(** * Spectral response from monochromator data: combining partial spectra

    A shallow embedding of [calibration/spectral_response_monochromator.py]:
    the alignment of the per-setting spectra on one wavelength grid, their
    calibration, the overlap matrix, the choice of the baseline, the
    normalisation loop and the SNR-weighted combination with numpy masked
    arrays.

    Numbers.  A numpy [float64] is embedded as [float]: a real number, one
    of the two infinities, or NaN.  Arithmetic on finite values is exact
    (rounding, overflow and the sign of zero are not represented); the
    special values follow IEEE 754 as numpy applies it: [x/0] is an
    infinity for [x <> 0], and [0/0], [inf - inf], [0 * inf], [inf/inf] are
    NaN.  Wavelengths are numbers that are never NaN, hence plain reals.

    Arrays.  A spectrum on the grid has shape [(L, 4)]: a list of rows, one
    per wavelength, each row a [chan4] of the four colour channels R, G, B
    and G2.  A stack of spectra, shape [(n, L, 4)], is a list of those. *)

From Stdlib Require Import Reals Lra Lia ZArith Ascii.
From stdpp Require Import base list sorting strings.

(** ** Floating-point values *)

Inductive float : Type :=
  | NaN : float
  | Inf (neg : bool) : float
  | Fin (x : R) : float.

#[global] Instance R_eq_dec : EqDecision R := Req_dec_T.
#[global] Instance float_eq_dec : EqDecision float.
Proof. solve_decision. Defined.

Definition Rneg (x : R) : bool := if Rlt_dec x 0 then true else false.
Definition Rzero (x : R) : bool := if Req_dec_T x 0 then true else false.

Definition isnan (a : float) : bool :=
  match a with NaN => true | _ => false end.

Definition isfinite (a : float) : bool :=
  match a with Fin _ => true | _ => false end.

Definition fadd (a b : float) : float :=
  match a, b with
  | NaN, _ | _, NaN => NaN
  | Inf s, Inf t => if eqb s t then Inf s else NaN
  | Inf s, Fin _ => Inf s
  | Fin _, Inf t => Inf t
  | Fin x, Fin y => Fin (x + y)
  end.

Definition fmul (a b : float) : float :=
  match a, b with
  | NaN, _ | _, NaN => NaN
  | Inf s, Inf t => Inf (xorb s t)
  | Inf s, Fin y => if Rzero y then NaN else Inf (xorb s (Rneg y))
  | Fin x, Inf t => if Rzero x then NaN else Inf (xorb (Rneg x) t)
  | Fin x, Fin y => Fin (x * y)
  end.

Definition fdiv (a b : float) : float :=
  match a, b with
  | NaN, _ | _, NaN => NaN
  | Inf _, Inf _ => NaN
  | Inf s, Fin y => Inf (xorb s (Rneg y))
  | Fin _, Inf _ => Fin 0
  | Fin x, Fin y =>
      if Rzero y then (if Rzero x then NaN else Inf (Rneg x))
      else Fin (x / y)
  end.

(** [x ** 2] *)
Definition fsquare (a : float) : float := fmul a a.

Definition fsqrt (a : float) : float :=
  match a with
  | NaN => NaN
  | Inf s => if s then NaN else Inf false
  | Fin x => if Rneg x then NaN else Fin (sqrt x)
  end.

(** [np.maximum]: NaN wins over everything, then the usual order. *)
Definition fmax (a b : float) : float :=
  match a, b with
  | NaN, _ | _, NaN => NaN
  | Inf false, _ | _, Inf false => Inf false
  | Inf true, c | c, Inf true => c
  | Fin x, Fin y => Fin (Rmax x y)
  end.

(** [x < 0] as numpy evaluates it (false on NaN). *)
Definition fneg (a : float) : bool :=
  match a with
  | NaN => false
  | Inf s => s
  | Fin x => Rneg x
  end.

(** two infinities of opposite sign: the one case in which the sum of two
    values that are not NaN is NaN *)
Definition opposite_infinities (a b : float) : bool :=
  match a, b with
  | Inf s, Inf t => negb (eqb s t)
  | _, _ => false
  end.

(** ** Rows of four channels *)

Inductive channel : Type := chR | chG | chB | chG2.

Record chan4 (A : Type) : Type :=
  Chan4 { c0 : A; c1 : A; c2 : A; c3 : A }.
Arguments Chan4 {A} _ _ _ _.
Arguments c0 {A} _.
Arguments c1 {A} _.
Arguments c2 {A} _.
Arguments c3 {A} _.

Definition get {A} (c : channel) (r : chan4 A) : A :=
  match c with chR => c0 r | chG => c1 r | chB => c2 r | chG2 => c3 r end.

Definition tab4 {A} (f : channel -> A) : chan4 A :=
  Chan4 (f chR) (f chG) (f chB) (f chG2).

Definition map4 {A B} (f : A -> B) (r : chan4 A) : chan4 B :=
  tab4 (fun c => f (get c r)).

Definition zip4 {A B C} (f : A -> B -> C) (r : chan4 A) (s : chan4 B) : chan4 C :=
  tab4 (fun c => f (get c r) (get c s)).

(** every channel the same value: a scalar broadcast over the last axis *)
Definition all4 {A} (x : A) : chan4 A := Chan4 x x x x.

Abbreviation arr2 := (list (chan4 float)).
Abbreviation arr3 := (list (list (chan4 float))).

(** elementwise operations on arrays of equal shape *)
Definition map2d {A B} (f : A -> B) (a : list (chan4 A)) : list (chan4 B) :=
  map4 f <$> a.
Definition zip2d {A B C} (f : A -> B -> C)
    (a : list (chan4 A)) (b : list (chan4 B)) : list (chan4 C) :=
  zip_with (zip4 f) a b.
Definition map3d {A B} (f : A -> B) (a : list (list (chan4 A))) :=
  map2d f <$> a.
Definition zip3d {A B C} (f : A -> B -> C)
    (a : list (list (chan4 A))) (b : list (list (chan4 B))) :=
  zip_with (zip2d f) a b.

(** the cell [(w, c)] of a spectrum, when the grid has index [w] *)
Definition cell {A} (a : list (chan4 A)) (w : nat) (c : channel) : option A :=
  get c <$> a !! w.

(** the values of cell [(w, c)] along axis 0 of a stack of spectra *)
Definition column {A} (a : list (list (chan4 A))) (w : nat) (c : channel) : list A :=
  omap (fun s => cell s w c) a.

(** a reduction along axis 0: [out[w, c] = f (a[:, w, c])] *)
Definition axis0 {A B} (f : list A -> B) (a : list (list (chan4 A))) : list (chan4 B) :=
  match a with
  | [] => []
  | s :: _ => imap (fun w _ => tab4 (fun c => f (column a w c))) s
  end.

(** ** Exceptions *)

Inductive exn : Type :=
  | ValueError      (* shapes that do not broadcast; nothing to concatenate *)
  | IndexError      (* an index out of bounds *)
  | TypeError       (* [np.polyfit]: expected non-empty vector for x *)
  | LinAlgError.    (* the least-squares solver gave up *)

Inductive result (A : Type) : Type :=
  | Ok (a : A)
  | Raise (e : exn).
Arguments Ok {A} _.
Arguments Raise {A} _.

#[global] Instance result_bind : MBind result :=
  fun A B k m => match m with Ok a => k a | Raise e => Raise e end.

Definition raised {A} (m : result A) : bool :=
  match m with Ok _ => false | Raise _ => true end.

#[global] Instance result_ret : MRet result := fun A a => Ok a.

#[global] Instance chan4_inhabited `{Inhabited A} : Inhabited (chan4 A) :=
  populate (all4 inhabitant).

(** [for i, x in enumerate(xs): st = body(i, x, st)] *)
Fixpoint for_enumerate {X St} (body : nat -> X -> St -> result St)
    (i : nat) (xs : list X) (st : St) : result St :=
  match xs with
  | [] => Ok st
  | x :: xs' => st' ← body i x st; for_enumerate body (S i) xs' st'
  end.

(** [for x in xs: st = body(x, st)] *)
Fixpoint for_each {X St} (body : X -> St -> result St)
    (xs : list X) (st : St) : result St :=
  match xs with
  | [] => Ok st
  | x :: xs' => st' ← body x st; for_each body xs' st'
  end.

(** ** numpy indexing *)

(** [a[i]] *)
Definition getitem {A} (a : list A) (i : nat) : result A :=
  match a !! i with Some x => Ok x | None => Raise IndexError end.

(** [a[indices]] *)
Fixpoint np_take {A} (a : list A) (indices : list nat) : result (list A) :=
  match indices with
  | [] => Ok []
  | i :: rest => x ← getitem a i; xs ← np_take a rest; Ok (x :: xs)
  end.

(** the right-hand side of [a[indices] = vals] is broadcast against the
    indices: as many rows, or one row repeated *)
Definition broadcast_rows {A} (k : nat) (vals : list A) : result (list A) :=
  if decide (length vals = k) then Ok vals
  else match vals with
       | [v] => Ok (replicate k v)
       | _ => Raise ValueError
       end.

(** the writes of [a[indices] = vals], in order: a later write to the same
    index wins *)
Fixpoint setitems {A} (a : list A) (ivs : list (nat * A)) : result (list A) :=
  match ivs with
  | [] => Ok a
  | (i, v) :: rest =>
      if decide (i < length a) then setitems (<[i:=v]> a) rest
      else Raise IndexError
  end.

(** [a[indices] = vals] *)
Definition setitem_fancy {A} (a : list A) (indices : list nat) (vals : list A)
    : result (list A) :=
  vals' ← broadcast_rows (length indices) vals;
  setitems a (zip indices vals').

(** [a[ind]] for a boolean index array *)
Definition mask_select {A} (ind : list bool) (a : list A) : list A :=
  (zip ind a) ≫= (fun p : bool * A => if p.1 then [p.2] else []).

(** ** Grid aligner (lines 66-75) *)

Fixpoint insert_unique (v : R) (l : list R) : list R :=
  match l with
  | [] => [v]
  | x :: l' =>
      if Rlt_dec v x then v :: l
      else if Req_dec_T v x then l
      else x :: insert_unique v l'
  end.

(** [np.unique]: the sorted distinct values *)
Definition np_unique (l : list R) : list R := foldr insert_unique [] l.

(** [np.searchsorted(a, v)] on a sorted [a]: the leftmost insertion point,
    that is the number of leading elements smaller than [v] *)
Fixpoint np_searchsorted (a : list R) (v : R) : nat :=
  match a with
  | [] => 0
  | x :: a' => if Rlt_dec x v then S (np_searchsorted a' v) else 0
  end.

Definition nan_row : chan4 float := all4 NaN.

(** [np.full((n, L, 4), np.nan)] *)
Definition full_nan (n L : nat) : arr3 := replicate n (replicate L nan_row).

(** [np.full(a.shape, np.nan)] *)
Definition full_like_nan (a : arr3) : arr3 :=
  (fun s => replicate (length s) nan_row) <$> a.

(** [np.concatenate] needs at least one array *)
Definition np_concatenate (ls : list (list R)) : result (list R) :=
  match ls with
  | [] => Raise ValueError
  | _ => Ok (concat ls)
  end.

Record spectra : Type := Spectra {
  all_wavelengths : list R;
  all_means : arr3;
  all_stds : arr3
}.

(** one pass of the loop of lines 72-75 *)
Definition align_body (grid : list R) (i : nat)
    (x : list R * arr2 * arr2) (st : arr3 * arr3) : result (arr3 * arr3) :=
  let '(wvl, mean, std) := x in
  let indices := np_searchsorted grid <$> wvl in
  m ← setitem_fancy (st.1 !!! i) indices mean;
  s ← setitem_fancy (st.2 !!! i) indices std;
  Ok (<[i:=m]> st.1, <[i:=s]> st.2).

Definition align (wavelengths : list (list R)) (means stds : list arr2)
    : result spectra :=
  cat ← np_concatenate wavelengths;
  let grid := np_unique cat in
  let all_means := full_nan (length wavelengths) (length grid) in
  let all_stds := all_means in
  st ← for_enumerate (align_body grid) 0
         (zip (zip wavelengths means) stds) (all_means, all_stds);
  Ok (Spectra grid st.1 st.2).

(** ** Calibrator (lines 85-98) *)

(** the index of the first occurrence of [v] *)
Fixpoint index_of (v : R) (l : list R) : nat :=
  match l with
  | [] => 0
  | x :: l' => if decide (x = v) then 0 else S (index_of v l')
  end.

(** [np.intersect1d(ar1, ar2, return_indices=True)]: the sorted common
    values and the index of the first occurrence of each in either array *)
Definition np_intersect1d (ar1 ar2 : list R) : list R * list nat * list nat :=
  let common := filter (fun v => v ∈ ar2) (np_unique ar1) in
  (common, (fun v => index_of v ar1) <$> common,
           (fun v => index_of v ar2) <$> common).

(** a calibration file: the rows [cal[0]] (wavelengths) and [cal[1]]
    (factors), given column by column *)
Abbreviation calibration := (list (R * float)).

(** [x[idx] / cal[1, cal_indices, np.newaxis]] written to [acc[idx]] *)
Definition calibrate_one (grid : list R) (cal : calibration)
    (x acc : arr2) : result arr2 :=
  let '(_, cal_indices, all_wavelengths_indices) :=
    np_intersect1d (cal.*1) grid in
  rows ← np_take x all_wavelengths_indices;
  factors ← np_take (cal.*2) cal_indices;
  setitem_fancy acc all_wavelengths_indices
    (zip_with (fun r f => map4 (fun v => fdiv v f) r) rows factors).

(** one pass of the loop of lines 89-98 *)
Definition calibrate_body (grid : list R) (i : nat)
    (x : arr2 * arr2 * calibration) (st : arr3 * arr3) : result (arr3 * arr3) :=
  let '(mean, std, cal) := x in
  m ← calibrate_one grid cal mean (st.1 !!! i);
  s ← calibrate_one grid cal std (st.2 !!! i);
  Ok (<[i:=m]> st.1, <[i:=s]> st.2).

Definition calibrate (sp : spectra) (cals : list calibration)
    : result (arr3 * arr3) :=
  let all_means_calibrated := full_like_nan (all_means sp) in
  let all_stds_calibrated := all_means_calibrated in
  for_enumerate (calibrate_body (all_wavelengths sp)) 0
    (zip (zip (all_means sp) (all_stds sp)) cals)
    (all_means_calibrated, all_stds_calibrated).

(** ** Overlap analysis (lines 110-127) *)

(** the cells of an array of shape [(L, 4)], row by row *)
Definition cells {A} (a : list (chan4 A)) : list A :=
  a ≫= (fun r => [c0 r; c1 r; c2 r; c3 r]).

Definition overlap (spectrum_a spectrum_b : arr2) : nat :=
  let summed := zip2d fadd spectrum_a spectrum_b in
  length (filter (fun x => isnan x = false) (cells summed)).

Definition all_overlaps (all_means_calibrated : arr3) : list (list nat) :=
  (fun mean2 => (fun mean1 => overlap mean1 mean2) <$> all_means_calibrated)
    <$> all_means_calibrated.

Definition np_diag (m : list (list nat)) : list nat :=
  imap (fun i row => row !!! i) m.

Fixpoint argmax_from (best best_val i : nat) (l : list nat) : nat :=
  match l with
  | [] => best
  | v :: l' =>
      if decide (best_val < v) then argmax_from i v (S i) l'
      else argmax_from best best_val (S i) l'
  end.

(** [np.argmax]: the first index of the maximum *)
Definition np_argmax (l : list nat) : result nat :=
  match l with
  | [] => Raise ValueError
  | v :: l' => Ok (argmax_from 0 v 1 l')
  end.

(** one step of insertion sort on indices: [i] moves in front of the
    entries whose key is strictly larger *)
Fixpoint insert_index (keys : list nat) (i : nat) (sorted : list nat) : list nat :=
  match sorted with
  | [] => [i]
  | j :: rest =>
      if decide (keys !!! i < keys !!! j) then i :: sorted
      else j :: insert_index keys i rest
  end.

(** [np.argsort] with the default kind.  numpy's introsort sorts runs of
    at most 16 elements by insertion, left to right, so that equal keys
    stay in index order; a handful of monochromator settings is such a
    run, and for up to 16 keys this is the order numpy returns.  For more
    keys introsort partitions first and does not keep equal keys in index
    order: there this definition gives a permutation of the indices
    sorted by key, as numpy does, but equal keys may come in another
    order than numpy's.  The statements below that depend on the order of
    equal keys are about two spectra; the general ones use only that the
    result is a sorted permutation. *)
Definition np_argsort (keys : list nat) : list nat :=
  foldl (fun sorted i => insert_index keys i sorted) [] (seq 0 (length keys)).

(** [a[-k]] *)
Definition getitem_from_end {A} (a : list A) (k : nat) : result A :=
  if decide (1 <= k <= length a) then getitem a (length a - k)
  else Raise IndexError.

(** [a[-2::-1]]: from the last element but one down to the first *)
Definition slice_from_m2_reversed {A} (a : list A) : list A :=
  reverse (take (length a - 1) a).

Definition baseline_of (all_means_calibrated : arr3) : result nat :=
  np_argmax (np_diag (all_overlaps all_means_calibrated)).

Definition normalise_order_of (all_means_calibrated : arr3) (baseline : nat)
    : list nat :=
  slice_from_m2_reversed
    (np_argsort (all_overlaps all_means_calibrated !!! baseline)).

(** ** Normaliser (lines 105-152) *)

(** [np.polyval(p, x)] *)
Definition np_polyval (p : list float) (x : R) : float :=
  foldl (fun y pv => fadd (fmul y (Fin x)) pv) (Fin 0) p.

Record normalised : Type := Normalised {
  all_means_normalised : arr3;
  all_stds_normalised : arr3;
  printed : list (nat * nat)   (* "Normalising spectrum i to spectrum comparison" *)
}.

Section Normaliser.

(** The least-squares solve inside [np.polyfit(x, y, deg)], for [y] with
    one column per channel: the coefficients, highest power first, or
    nothing when the solver raises. *)
Variable lstsq : list R -> list (chan4 float) -> nat -> option (list (chan4 float)).

Definition np_polyfit (x : list R) (y : list (chan4 float)) (deg : nat)
    : result (list (chan4 float)) :=
  match x with
  | [] => Raise TypeError
  | _ => match lstsq x y deg with
         | Some fits => Ok fits
         | None => Raise LinAlgError
         end
  end.

(** the body of the loop of lines 130-152 *)
Definition normalise_body (grid : list R)
    (all_means_calibrated all_stds_calibrated : arr3)
    (overlaps : list (list nat)) (baseline : nat)
    (i : nat) (st : normalised) : result normalised :=
  comparison ←
    (if decide ((overlaps !!! i) !!! baseline ≠ 0) then Ok baseline
     else getitem_from_end (np_argsort (overlaps !!! i)) 2);
  let ratios :=
    zip2d fdiv (all_means_calibrated !!! i)
               (all_means_normalised st !!! comparison) in
  let ind := (fun r => negb (isnan (c0 r))) <$> ratios in
  fits ← np_polyfit (mask_select ind grid) (mask_select ind ratios) 2;
  let fit_norms :=
    (fun w => tab4 (fun c => np_polyval (get c <$> fits) w)) <$> grid in
  Ok (Normalised
        (<[i := zip2d fdiv (all_means_calibrated !!! i) fit_norms]>
           (all_means_normalised st))
        (<[i := zip2d fdiv (all_stds_calibrated !!! i) fit_norms]>
           (all_stds_normalised st))
        (printed st ++ [(i, comparison)])).

Definition normalise (grid : list R)
    (all_means_calibrated all_stds_calibrated : arr3) : result normalised :=
  let overlaps := all_overlaps all_means_calibrated in
  baseline ← baseline_of all_means_calibrated;
  let normalise_order := normalise_order_of all_means_calibrated baseline in
  for_each
    (normalise_body grid all_means_calibrated all_stds_calibrated
       overlaps baseline)
    normalise_order
    (Normalised all_means_calibrated all_stds_calibrated []).

End Normaliser.

(** ** Masked arrays (numpy.ma)

    A masked entry keeps a value under its mask, and [.data] reads it; the
    operations below say which value that is. *)

Record mfloat : Type := MFloat { data : float; mask : bool }.

(** the default fill value of a float array, 1e20 *)
Definition fill_value : float := Fin (10 ^ 20).

(** [np.ma.array(x, mask=np.isnan(x))] *)
Definition ma_array (x : float) : mfloat := MFloat x (isnan x).

(** [a ** 2], that is [np.ma.power(a, 2)]: the value of a masked entry is
    kept as it is, an entry that is not finite afterwards is masked and
    receives the fill value *)
Definition ma_power2 (a : mfloat) : mfloat :=
  let result := if mask a then data a else fsquare (data a) in
  let invalid := negb (isfinite result) in
  MFloat (if invalid then fill_value else result) (mask a || invalid).

(** [a * b], that is [np.ma.multiply]: under the mask the value of [a] *)
Definition ma_multiply (a b : mfloat) : mfloat :=
  let m := mask a || mask b in
  MFloat (if m then data a else fmul (data a) (data b)) m.

(** the ufunc [np.multiply] applied to masked arrays: the plain product
    with the union of the masks *)
Definition np_multiply (a b : mfloat) : mfloat :=
  MFloat (fmul (data a) (data b)) (mask a || mask b).

(** [a / b], that is [np.ma.true_divide]: a quotient that is not finite is
    masked as well, and under the mask the value is that of [a].  (The
    domain test of the division, [|a| * tiny >= |b|], is a zero divisor
    here: quotients are exact and do not overflow.) *)
Definition ma_true_divide (a b : mfloat) : mfloat :=
  let result := fdiv (data a) (data b) in
  let m := negb (isfinite result) || mask a || mask b in
  MFloat (if m then data a else result) m.

(** [a.sum(axis=0)] at one cell: masked values count as 0, and the sum is
    masked when every value is *)
Definition ma_sum (col : list mfloat) : mfloat :=
  MFloat (foldl fadd (Fin 0) ((fun x => if mask x then Fin 0 else data x) <$> col))
         (forallb mask col).

(** the ufunc [np.sqrt] applied to a masked array: masked or negative
    entries are outside its domain, they are masked and set to 0 *)
Definition np_sqrt (a : mfloat) : mfloat :=
  let d := mask a || fneg (data a) in
  MFloat (if d then Fin 0 else fsqrt (data a)) (mask a || d).

(** [np.ma.masked] *)
Definition ma_masked : mfloat := MFloat (Fin 0) true.

(** [a.max()]: the maximum of the values that are not masked,
    [np.ma.masked] when all are, an error on an empty array *)
Definition ma_max (a : list mfloat) : result mfloat :=
  match a with
  | [] => Raise ValueError
  | _ => match filter (fun x => mask x = false) a with
         | [] => Ok ma_masked
         | x :: xs => Ok (MFloat (foldl fmax (data x) (data <$> xs)) false)
         end
  end.

(** [~a.mask] as a factor: 1.0 for True and 0.0 for False *)
Definition not_mask (a : mfloat) : mfloat :=
  MFloat (if mask a then Fin 0 else Fin 1) false.

(** [np.ma.average(a, axis=0, weights=weights)] *)
Definition ma_average (a weights : list (list (chan4 mfloat))) : list (chan4 mfloat) :=
  let wgt := zip3d (fun w x => ma_multiply w (not_mask x)) weights a in
  let wgt := zip3d (fun w x => MFloat (data w) (mask w || mask x)) wgt a in
  let scl := axis0 ma_sum wgt in
  zip2d ma_true_divide (axis0 ma_sum (zip3d np_multiply a wgt)) scl.

(** ** Combiner (lines 159-183) *)

(** [weights = SNR_mask**2] with [SNR = means / stds] *)
Definition weights (means_normalised stds_normalised : arr3)
    : list (list (chan4 mfloat)) :=
  let SNR := zip3d fdiv means_normalised stds_normalised in
  let SNR_mask := map3d ma_array SNR in
  map3d ma_power2 SNR_mask.

Definition flat_means_mask (means_normalised stds_normalised : arr3)
    : list (chan4 mfloat) :=
  let mean_mask := map3d ma_array means_normalised in
  ma_average mean_mask (weights means_normalised stds_normalised).

Definition flat_errs_mask (means_normalised stds_normalised : arr3)
    : list (chan4 mfloat) :=
  let stds_mask := map3d ma_array stds_normalised in
  let weights := weights means_normalised stds_normalised in
  let weights_sum := axis0 ma_sum weights in
  map2d np_sqrt
    (axis0 ma_sum
       (map3d ma_power2
          (zip3d ma_multiply
             ((fun w => zip2d ma_true_divide w weights_sum) <$> weights)
             stds_mask))).

Record combined : Type := Combined {
  response_normalised : arr2;
  errors_normalised : arr2
}.

(** lines 178-180: the division by the maximum and [.data] *)
Definition combine (means_normalised stds_normalised : arr3) : result combined :=
  let flat_means := flat_means_mask means_normalised stds_normalised in
  let flat_errs := flat_errs_mask means_normalised stds_normalised in
  flat_max ← ma_max (cells flat_means);
  Ok (Combined
        (map2d (fun x => data (ma_true_divide x flat_max)) flat_means)
        (map2d (fun x => data (ma_true_divide x flat_max)) flat_errs)).

(** ** The whole script *)

Record curve : Type := Curve {
  curve_wavelengths : list R;
  curve_response : arr2;
  curve_errors : arr2
}.

Definition spectral_response
    (lstsq : list R -> list (chan4 float) -> nat -> option (list (chan4 float)))
    (wavelengths : list (list R)) (means stds : list arr2)
    (cals : list calibration) : result curve :=
  sp ← align wavelengths means stds;
  cal ← calibrate sp cals;
  nrm ← normalise lstsq (all_wavelengths sp) cal.1 cal.2;
  cmb ← combine (all_means_normalised nrm) (all_stds_normalised nrm);
  Ok (Curve (all_wavelengths sp) (response_normalised cmb) (errors_normalised cmb)).

(** ** Notions used in the statements *)

(** the order [np.argsort] sorts by *)
Definition key_le (keys : list nat) (a b : nat) : Prop :=
  keys !!! a <= keys !!! b.

(** a spectrum as the normalisation loop may have left it: untouched, or
    divided by a fitted curve *)
Definition rescale (fit : option arr2) (x : arr2) : arr2 :=
  match fit with
  | None => x
  | Some fit_norms => zip2d fdiv x fit_norms
  end.

(** the state of the normalisation loop holds, for every spectrum, the
    calibrated mean and std divided by one and the same curve, if any *)
Definition normalise_inv (all_means_calibrated all_stds_calibrated : arr3)
    (st : normalised) : Prop :=
  length (all_means_normalised st) = length all_means_calibrated /\
  length (all_stds_normalised st) = length all_stds_calibrated /\
  forall k, exists fit,
    all_means_normalised st !!! k = rescale fit (all_means_calibrated !!! k) /\
    all_stds_normalised st !!! k = rescale fit (all_stds_calibrated !!! k).

(** rows [rm], [rs] of a processed mean and std at grid index [w] carry,
    wherever their ratio is a number, the ratio of the rows they were
    computed from *)
Definition snr_kept (mean std : arr2) (w : nat) (rm rs : chan4 float) : Prop :=
  forall c, isfinite (fdiv (get c rm) (get c rs)) = true ->
    exists m s, cell mean w c = Some m /\ cell std w c = Some s /\
                fdiv (get c rm) (get c rs) = fdiv m s.

(** every spectrum of the stack has the grid index [w] *)
Definition has_row {A} (a : list (list (chan4 A))) (w : nat) : Prop :=
  Forall (fun s => w < length s) a.


(** a spectrum is valid at a cell when its mean and std are numbers and
    the std is not zero, so that mean/std is a number *)
Definition valid_pair (p : float * float) : option (R * R) :=
  match p with
  | (Fin x, Fin y) => if Rzero y then None else Some (x, y)
  | _ => None
  end.

(** a spectrum is missing at a cell when its mean or its std is NaN *)
Definition missing_pair (p : float * float) : bool :=
  isnan p.1 || isnan p.2.

Definition valid_or_missing (p : float * float) : Prop :=
  is_Some (valid_pair p) \/ missing_pair p = true.

(** the (mean, std) of the spectra that are valid at a cell *)
Definition valid_pairs (col : list (float * float)) : list (R * R) :=
  omap valid_pair col.

(** the weight of a valid measurement: (mean/std) squared *)
Definition weight (p : R * R) : R := (p.1 / p.2) * (p.1 / p.2).

Definition sumR (l : list R) : R := foldl Rplus 0%R l.




(** The computation of the combiner at one cell, from the means and stds
    of the spectra at that cell. *)
Definition weight_cell (p : float * float) : mfloat :=
  ma_power2 (ma_array (fdiv p.1 p.2)).

Definition wgt_cell (p : float * float) : mfloat :=
  let w1 := ma_multiply (weight_cell p) (not_mask (ma_array p.1)) in
  MFloat (data w1) (mask w1 || mask (ma_array p.1)).

Definition flat_mean_cell (col : list (float * float)) : mfloat :=
  ma_true_divide
    (ma_sum ((fun p => np_multiply (ma_array p.1) (wgt_cell p)) <$> col))
    (ma_sum (wgt_cell <$> col)).

Definition err_term (weights_sum : mfloat) (p : float * float) : mfloat :=
  ma_power2 (ma_multiply (ma_true_divide (weight_cell p) weights_sum) (ma_array p.2)).

Definition flat_err_cell (col : list (float * float)) : mfloat :=
  let weights_sum := ma_sum (weight_cell <$> col) in
  np_sqrt (ma_sum (err_term weights_sum <$> col)).

(** The cells at which the combination of one spectrum has a value: the
    mean and the std are numbers other than 0. *)
Definition usable_mean (p : float * float) : option R :=
  match p with
  | (Fin x, Fin y) => if Rzero x || Rzero y then None else Some x
  | _ => None
  end.

(** the maximum of the mean of a spectrum over those cells *)
Definition peak_of (mean std : arr2) : option R :=
  match omap usable_mean (zip (cells mean) (cells std)) with
  | [] => None
  | x :: xs => Some (foldl Rmax x xs)
  end.

(** ** Example inputs *)

(** two spectra with data at the same cells, on a grid of one wavelength *)
Definition twins : arr3 := [[all4 (Fin 1)]; [all4 (Fin 2)]].





(** a least-squares solver for ratios that do not vary: the parabola
    through points of one common value [r] is the constant [r] *)
Definition constant_fit (x : list R) (y : list (chan4 float)) (deg : nat)
    : option (list (chan4 float)) :=
  match y with
  | [] => None
  | r :: _ => Some [all4 (Fin 0); all4 (Fin 0); r]
  end.

(** one spectrum on two wavelengths, without data at the second *)
Definition gap : arr3 := [[all4 (Fin 1); nan_row]].

(** one spectrum on two wavelengths, with mean 0 at the second *)
Definition lone_mean : arr2 := [all4 (Fin 2); all4 (Fin 0)].
Definition lone_std : arr2 := [all4 (Fin 1); all4 (Fin 1)].

(** two settings of the monochromator that share the wavelength 2 *)
Definition pair_wavelengths : list (list R) := [[1; 2]; [2; 3]]%R.
Definition pair_means : list arr2 :=
  [[all4 (Fin 10); all4 (Fin 20)]; [all4 (Fin 30); all4 (Fin 40)]].
Definition pair_stds : list arr2 :=
  [[all4 (Fin 1); all4 (Fin 2)]; [all4 (Fin 3); all4 (Fin 4)]].

(** two spectra on two wavelengths: the first has data at both, the
    second at the last one only, at twice the scale *)
Definition stairs : arr3 :=
  [[all4 (Fin 1); all4 (Fin 1)]; [nan_row; all4 (Fin 2)]].

(** [stairs] after its second spectrum was divided by 2 *)
Definition stairs_normalised : arr3 :=
  [[all4 (Fin 1); all4 (Fin 1)]; [nan_row; all4 (Fin 1)]].

(** one spectrum on the grid [1, 2] and a calibration file that lists the
    wavelength 2 only *)
Definition one_spectrum : spectra :=
  Spectra [1%R; 2%R] [[all4 (Fin 6); all4 (Fin 8)]] [[all4 (Fin 2); all4 (Fin 4)]].
Definition one_cal : calibration := [(2%R, Fin 2)].

(** two spectra with data at the same cells; the first one has a reading
    of exactly 0 in the channel R at the second wavelength *)
Definition dark : arr3 :=
  [[all4 (Fin 1); Chan4 (Fin 0) (Fin 1) (Fin 1) (Fin 1)];
   [all4 (Fin 2); all4 (Fin 2)]].
Definition dark_stds : arr3 :=
  [[all4 (Fin 1); all4 (Fin 1)]; [all4 (Fin 1); all4 (Fin 1)]].

(** [dark] and [dark_stds] after the division of their first spectrum by
    a parabola with the value 1 at the first wavelength and 7/3 at the
    second *)
Definition dark_normalised : arr3 :=
  [[all4 (Fin 1); Chan4 (Fin 0) (Fin (3 / 7)) (Fin (3 / 7)) (Fin (3 / 7))];
   [all4 (Fin 2); all4 (Fin 2)]].
Definition dark_stds_normalised : arr3 :=
  [[all4 (Fin 1); all4 (Fin (3 / 7))]; [all4 (Fin 1); all4 (Fin 1)]].

(** The least-squares fit of a parabola to one point [(x0, r)].  The
    system has one equation for three coefficients; [np.polyfit] scales
    the columns of its matrix to unit norm and the least-squares solver
    returns the solution of smallest norm, which gives each of the three
    terms a third of [r] at [x0]: the coefficients are [r/(3 x0^2)],
    [r/(3 x0)] and [r/3] (numpy warns that the fit is poorly conditioned,
    and goes on). *)
Definition min_norm_fit (x : list R) (y : list (chan4 float)) (deg : nat)
    : option (list (chan4 float)) :=
  match x, y with
  | [x0], [r] =>
      Some [map4 (fun v => fdiv v (Fin (3 * x0 * x0))) r;
            map4 (fun v => fdiv v (Fin (3 * x0))) r;
            map4 (fun v => fdiv v (Fin 3)) r]
  | _, _ => None
  end.

(** * The files around the spectra

    The array that [spectral_response_monochromator.py] saves, the way
    [analysis/spectral_response_monochromator_output.py] reads it back,
    and the functions of [spectacle/metadata.py] that load the camera:
    [find_root_folder], [_convert_exposure_time], the Bayer map and the
    bias map.  [np.save] followed by [np.load] is taken to return the
    array that was saved. *)

(** ** The saved curve (line 183) and its reader *)

(** [a.T] for [a] of shape [(L, 4)]: one row per channel *)
Definition transpose_channels (a : arr2) : list (list float) :=
  (fun c => get c <$> a) <$> [chR; chG; chB; chG2].

(** [np.stack] of one-dimensional arrays: they must have one shape, and
    there must be at least one *)
Definition np_stack (arrays : list (list float)) : result (list (list float)) :=
  match arrays with
  | [] => Raise ValueError
  | a :: rest =>
      if decide (Forall (fun b => length b = length a) rest) then Ok arrays
      else Raise ValueError
  end.

(** [np.array(np.stack([all_wavelengths, *response_normalised.T,
    *errors_normalised.T]))] *)
Definition stack_curve (all_wavelengths : list R)
    (response_normalised errors_normalised : arr2) : result (list (list float)) :=
  np_stack ((Fin <$> all_wavelengths)
            :: transpose_channels response_normalised
            ++ transpose_channels errors_normalised).

(** [a[lo:hi]] along the first axis, for [lo <= hi] within the bounds *)
Definition slice_rows {A} (a : list A) (lo hi : nat) : list A :=
  take (hi - lo) (drop lo a).

(** [a.T] for a two-dimensional array given by its rows *)
Definition np_transpose (a : list (list float)) : list (list float) :=
  match a with
  | [] => []
  | r :: _ => imap (fun j _ => omap (fun row => row !! j) a) r
  end.

(** the rows of an array of shape [(L, 4)] as plain lists *)
Definition rows_of (a : arr2) : list (list float) :=
  (fun r => [c0 r; c1 r; c2 r; c3 r]) <$> a.

(** [final_curves[1:5].T] and [final_curves[5:].T] of the analysis script *)
Definition final_mean (final_curves : list (list float)) : list (list float) :=
  np_transpose (slice_rows final_curves 1 5).
Definition final_stds (final_curves : list (list float)) : list (list float) :=
  np_transpose (drop 5 final_curves).

(** ** Camera metadata (spectacle/metadata.py) *)

Module metadata.

(** the exceptions of this file *)
Inductive exception : Type :=
  | OSError             (* no metadata file above the input path *)
  | ValueError          (* [float] of a string that is no number; a wrong
                           number of values to unpack *)
  | ZeroDivisionError   (* a fraction with denominator 0 *)
  | IndexError.         (* a Bayer pattern that is not 2 by 2 *)

Inductive outcome (A : Type) : Type :=
  | Return (a : A)
  | Except (e : exception).
Arguments Return {A} _.
Arguments Except {A} _.

#[global] Instance outcome_bind : MBind outcome :=
  fun A B k m => match m with Return a => k a | Except e => Except e end.

(** *** Paths *)

(** A [pathlib.Path]: its anchor (the root or the drive, empty for a
    relative path) and its components below the anchor. *)
Record path : Type := Path { anchor : string; parts : list string }.

(** [Path.parents]: the path without its last component, without its
    last two, and so on up to the anchor *)
Definition parents (p : path) : list path :=
  (fun k => Path (anchor p) (take k (parts p))) <$> reverse (seq 0 (length (parts p))).

(** the loop of [find_root_folder]: the first candidate that holds a
    'metadata.json' *)
Fixpoint first_with_metadata (has_metadata : path -> bool) (candidates : list path)
    : option path :=
  match candidates with
  | [] => None
  | parent :: rest =>
      if has_metadata parent then Some parent
      else first_with_metadata has_metadata rest
  end.

(** [has_metadata parent] stands for [(parent/"metadata.json").exists()] *)
Definition find_root_folder (has_metadata : path -> bool) (input_path : path)
    : outcome path :=
  match first_with_metadata has_metadata (input_path :: parents input_path) with
  | Some root => Return root
  | None => Except OSError
  end.

(** *** Exposure times *)

Inductive pyvalue : Type :=
  | PyFloat (x : float)
  | PyInt (n : Z)
  | PyStr (s : string)
  | PyNone.

(** [s.split("/")] *)
Fixpoint split_slash (s : string) : list string :=
  match s with
  | EmptyString => [EmptyString]
  | String c rest =>
      if Ascii.eqb c "/"%char then EmptyString :: split_slash rest
      else match split_slash rest with
           | [] => [String c EmptyString]
           | piece :: pieces => String c piece :: pieces
           end
  end.

(** ["/" in s] *)
Fixpoint has_slash (s : string) : bool :=
  match s with
  | EmptyString => false
  | String c rest => Ascii.eqb c "/"%char || has_slash rest
  end.

(** [num/den] for Python floats: a zero denominator raises *)
Definition truediv (num den : float) : outcome float :=
  match den with
  | Fin y => if Rzero y then Except ZeroDivisionError else Return (fdiv num den)
  | _ => Return (fdiv num den)
  end.

Fixpoint floats (float_of_string : string -> option float) (pieces : list string)
    : outcome (list float) :=
  match pieces with
  | [] => Return []
  | piece :: rest =>
      match float_of_string piece with
      | None => Except ValueError
      | Some x => xs ← floats float_of_string rest; Return (x :: xs)
      end
  end.

(** [_convert_exposure_time]; [float_of_string] is Python's [float] on a
    string, [None] where it raises ValueError.  An input that is neither
    a number nor a string falls through both tests, and the function
    returns [None]. *)
Definition _convert_exposure_time (float_of_string : string -> option float)
    (exposure : pyvalue) : outcome pyvalue :=
  match exposure with
  | PyFloat _ | PyInt _ => Return exposure
  | PyStr s =>
      if has_slash s then
        values ← floats float_of_string (split_slash s);
        match values with
        | [num; den] => q ← truediv num den; Return (PyFloat q)
        | _ => Except ValueError
        end
      else
        match float_of_string s with
        | Some x => Return (PyFloat x)
        | None => Except ValueError
        end
  | PyNone => Return PyNone
  end.

(** *** Bayer and bias maps *)

(** [a[r0::2, c0::2] = v] *)
Definition set_strided (r0 c0 : nat) (v : Z) (a : list (list Z)) : list (list Z) :=
  imap (fun r row =>
          if decide (r0 <= r /\ Nat.even (r - r0) = true)
          then imap (fun c x =>
                       if decide (c0 <= c /\ Nat.even (c - c0) = true) then v else x)
                    row
          else row) a.

(** [pattern[i][j]] for a list of lists *)
Definition pattern_at (bayer_pattern : list (list Z)) (i j : nat) : outcome Z :=
  match bayer_pattern !! i with
  | None => Except IndexError
  | Some row => match row !! j with
                | None => Except IndexError
                | Some v => Return v
                end
  end.

(** [Camera._generate_bayer_map] for [image.shape = (height, width)] *)
Definition _generate_bayer_map (height width : nat) (bayer_pattern : list (list Z))
    : outcome (list (list Z)) :=
  let bayer_map := replicate height (replicate width 0%Z) in
  p00 ← pattern_at bayer_pattern 0 0;
  let bayer_map := set_strided 0 0 p00 bayer_map in
  p01 ← pattern_at bayer_pattern 0 1;
  let bayer_map := set_strided 0 1 p01 bayer_map in
  p10 ← pattern_at bayer_pattern 1 0;
  let bayer_map := set_strided 1 0 p10 bayer_map in
  p11 ← pattern_at bayer_pattern 1 1;
  let bayer_map := set_strided 1 1 p11 bayer_map in
  Return bayer_map.

(** [bayer_map[bayer_map == j] = bias_value] *)
Definition replace_equal (j bias_value : Z) (a : list (list Z)) : list (list Z) :=
  (fun row : list Z => (fun x => if decide (x = j) then bias_value else x) <$> row)
    <$> a.

(** the loop of [generate_bias_map], from index [j] on *)
Fixpoint replace_channels (j : Z) (bias : list Z) (bayer_map : list (list Z))
    : list (list Z) :=
  match bias with
  | [] => bayer_map
  | bias_value :: rest =>
      replace_channels (j + 1) rest (replace_equal j bias_value bayer_map)
  end.

(** [Camera.generate_bias_map]; the bias values of the metadata are
    integers here (the map has dtype int) *)
Definition generate_bias_map (height width : nat) (bayer_pattern : list (list Z))
    (bias : list Z) : outcome (list (list Z)) :=
  bayer_map ← _generate_bayer_map height width bayer_pattern;
  Return (replace_channels 0 bias bayer_map).

(** [a[r, c]] *)
Definition pixel (a : list (list Z)) (r c : nat) : option Z :=
  row ← a !! r; row !! c.

(** what the loop of [generate_bias_map] makes of one value of the map *)
Fixpoint replace_value (j : Z) (bias : list Z) (x : Z) : Z :=
  match bias with
  | [] => x
  | bias_value :: rest =>
      replace_value (j + 1) rest (if decide (x = j) then bias_value else x)
  end.

(** [bias[v]] for a channel number [v] that is not negative *)
Definition bias_of (bias : list Z) (v : Z) : option Z :=
  if decide (0 <= v)%Z then bias !! Z.to_nat v else None.

End metadata.

(** ** Shapes of the arrays of the script *)

(** [vals] can be assigned to [k] rows: it has [k] rows, or one row, which
    is then repeated *)
Definition broadcasts {A} (k : nat) (vals : list A) : Prop :=
  length vals = k \/ length vals = 1.

(** the mean and the std of a spectrum can be written at its wavelengths *)
Definition assignable (x : list R * arr2 * arr2) : Prop :=
  broadcasts (length x.1.1) x.1.2 /\ broadcasts (length x.1.1) x.2.

(** a stack of shape [(n, L, 4)] *)
Definition has_shape (n L : nat) (a : arr3) : Prop :=
  length a = n /\ Forall (fun s : arr2 => length s = L) a.

(** one spectrum that lists the wavelength 1 twice *)
Definition repeated_wavelengths : list (list R) := [[1; 1]]%R.
Definition repeated_means : list arr2 := [[all4 (Fin 10); all4 (Fin 20)]].
Definition repeated_stds : list arr2 := [[all4 (Fin 1); all4 (Fin 2)]].

(** * Properties *)

(** ** Floating-point arithmetic *)

Lemma Rzero_spec x : Rzero x = true <-> x = 0%R.
Proof. unfold Rzero. destruct (Req_dec_T x 0); split; congruence. Qed.

Lemma Rneg_spec x : Rneg x = true <-> (x < 0)%R.
Proof. unfold Rneg. destruct (Rlt_dec x 0); split; done. Qed.

Lemma Rzero_true x : x = 0%R -> Rzero x = true.
Proof. apply Rzero_spec. Qed.

Lemma Rzero_false x : x <> 0%R -> Rzero x = false.
Proof. intros H. destruct (Rzero x) eqn:E; [|done]. by apply Rzero_spec in E. Qed.

Lemma Rneg_true x : (x < 0)%R -> Rneg x = true.
Proof. apply Rneg_spec. Qed.

Lemma Rneg_false x : (0 <= x)%R -> Rneg x = false.
Proof. intros H. destruct (Rneg x) eqn:E; [|done]. apply Rneg_spec in E. lra. Qed.

(** case analysis on every sign or zero test in the goal *)
Ltac Rcases :=
  repeat match goal with
  | |- context [Rzero ?x] => let E := fresh "E" in destruct (Rzero x) eqn:E; simpl
  | |- context [Rneg ?x] => let E := fresh "E" in destruct (Rneg x) eqn:E; simpl
  end;
  repeat match goal with
  | H : Rzero _ = true |- _ => apply Rzero_spec in H
  | H : Rzero ?x = false |- _ =>
      assert (x <> 0%R) by (intros ?%Rzero_spec; congruence); clear H
  | H : Rneg _ = true |- _ => apply Rneg_spec in H
  | H : Rneg ?x = false |- _ =>
      assert (0 <= x)%R by (destruct (Rlt_dec x 0) as [?%Rneg_spec|]; [congruence | lra]);
      clear H
  end.

(** evaluation of the tests on closed terms *)
Ltac Reval :=
  repeat first
    [ rewrite Rzero_true by lra | rewrite Rzero_false by lra
    | rewrite Rneg_true by lra | rewrite Rneg_false by lra ].

(** A ratio survives the division of both of its terms by the same
    number, wherever the new ratio is a number. *)
Lemma fdiv_common_divisor (m s f : float) :
  isfinite (fdiv (fdiv m f) (fdiv s f)) = true ->
  fdiv (fdiv m f) (fdiv s f) = fdiv m s.
Proof.
  destruct m as [|mn|x], s as [|sn|y], f as [|fn|z]; simpl; try done.
  all: Rcases; subst; try done.
  all: try (intros _; f_equal; field; done).
  all: exfalso;
    match goal with H : (?a / ?b)%R <> 0%R |- _ => apply H; unfold Rdiv; ring end.
Qed.

Lemma isnan_fadd (a b : float) :
  opposite_infinities a b = false ->
  isnan (fadd a b) = isnan a || isnan b.
Proof. destruct a as [|[]|], b as [|[]|]; simpl; done. Qed.

Lemma isnan_fadd_self (a : float) : isnan (fadd a a) = isnan a.
Proof. by destruct a as [|[]|]. Qed.



(** ** Rows and arrays *)

Lemma get_tab4 {A} (f : channel -> A) (c : channel) : get c (tab4 f) = f c.
Proof. by destruct c. Qed.

Lemma get_map4 {A B} (f : A -> B) (r : chan4 A) (c : channel) :
  get c (map4 f r) = f (get c r).
Proof. by destruct c. Qed.

Lemma get_zip4 {A B C} (f : A -> B -> C) (r : chan4 A) (s : chan4 B) (c : channel) :
  get c (zip4 f r s) = f (get c r) (get c s).
Proof. by destruct c. Qed.

Lemma get_all4 {A} (x : A) (c : channel) : get c (all4 x) = x.
Proof. by destruct c. Qed.

Lemma chan4_ext {A} (r s : chan4 A) : (forall c, get c r = get c s) -> r = s.
Proof.
  intros H. destruct r, s.
  pose proof (H chR). pose proof (H chG). pose proof (H chB). pose proof (H chG2).
  simpl in *. congruence.
Qed.

Lemma cell_map2d {A B} (f : A -> B) (a : list (chan4 A)) w c :
  cell (map2d f a) w c = f <$> cell a w c.
Proof.
  unfold cell, map2d. rewrite list_lookup_fmap.
  destruct (a !! w); simpl; [by rewrite get_map4 | done].
Qed.

Lemma cell_zip2d {A B C} (f : A -> B -> C) (a : list (chan4 A)) (b : list (chan4 B)) w c :
  cell (zip2d f a b) w c = x ← cell a w c; y ← cell b w c; Some (f x y).
Proof.
  unfold cell, zip2d. rewrite lookup_zip_with.
  destruct (a !! w); simpl; [|done]. destruct (b !! w); simpl; [|done].
  by rewrite get_zip4.
Qed.

Lemma cell_is_Some {A} (a : list (chan4 A)) w c :
  is_Some (cell a w c) <-> w < length a.
Proof.
  unfold cell. rewrite <- lookup_lt_is_Some.
  destruct (a !! w); simpl; split; intros [? ?]; eauto; done.
Qed.

Lemma cells_zip2d {A B C} (f : A -> B -> C) (a : list (chan4 A)) (b : list (chan4 B)) :
  cells (zip2d f a b) = zip_with f (cells a) (cells b).
Proof.
  revert b. induction a as [|r a IH]; intros [|s b]; try done.
  unfold cells, zip2d in *. simpl. by rewrite IH.
Qed.

Lemma filter_length_zip_with {A B C} (f : A -> B -> C)
    (P : C -> Prop) `{!forall x, Decision (P x)}
    (Q : A * B -> Prop) `{!forall x, Decision (Q x)} (l : list A) (k : list B) :
  Forall (fun p => P (f p.1 p.2) <-> Q p) (zip l k) ->
  length (filter P (zip_with f l k)) = length (filter Q (zip l k)).
Proof.
  revert k. induction l as [|x l IH]; intros [|y k] Hall; try done.
  simpl in *. apply Forall_cons in Hall as [Hxy Hrest]. simpl in Hxy.
  rewrite !filter_cons. specialize (IH _ Hrest).
  destruct (decide (P (f x y))), (decide (Q (x, y))); simpl; try tauto; by rewrite IH.
Qed.

Lemma zip_diag {A} (l : list A) : zip l l = (fun x => (x, x)) <$> l.
Proof. induction l; simpl; [done | by f_equal]. Qed.

Lemma filter_length_fmap {A B} (f : A -> B)
    (P : B -> Prop) `{!forall x, Decision (P x)}
    (Q : A -> Prop) `{!forall x, Decision (Q x)} (l : list A) :
  (forall x, P (f x) <-> Q x) ->
  length (filter P (f <$> l)) = length (filter Q l).
Proof.
  intros Hall. induction l as [|x l IH]; [done|].
  rewrite fmap_cons, !filter_cons.
  destruct (decide (P (f x))) as [HP|HP], (decide (Q x)) as [HQ|HQ]; simpl;
    try (by rewrite IH); exfalso; [apply HQ, Hall, HP | apply HP, Hall, HQ].
Qed.

(** ** Overlap score *)

Lemma overlap_self (A : arr2) :
  overlap A A = length (filter (fun x => isnan x = false) (cells A)).
Proof.
  unfold overlap. rewrite !cells_zip2d.
  rewrite (filter_length_zip_with _ _ (fun p => isnan p.1 = false)).
  - rewrite zip_diag. rewrite (filter_length_fmap _ _ (fun x => isnan x = false)); done.
  - rewrite zip_diag. apply Forall_fmap, Forall_forall. intros x _. simpl.
    by rewrite isnan_fadd_self.
Qed.

Lemma overlap_pair (A B : arr2) :
  Forall (fun p => opposite_infinities p.1 p.2 = false) (zip (cells A) (cells B)) ->
  overlap A B =
    length (filter (fun p => isnan p.1 = false /\ isnan p.2 = false)
              (zip (cells A) (cells B))).
Proof.
  unfold overlap. rewrite !cells_zip2d.
  intros H. apply filter_length_zip_with.
  eapply Forall_impl; [exact H|]. intros [a b] Hab. simpl in *.
  rewrite isnan_fadd by done.
  destruct (isnan a), (isnan b); simpl; intuition discriminate.
Qed.

(** C7.  The overlap score of a spectrum with itself is the number of its
    cells that are not missing (not NaN).  The overlap score of two
    spectra is the number of cells at which neither is missing, provided
    no cell holds two infinities of opposite sign (their sum is NaN); this
    covers all spectra whose cells are finite or missing. *)
Theorem overlap_counts_valid_cells (A B : arr2) :
  overlap A A = length (filter (fun x => isnan x = false) (cells A)) /\
  (Forall (fun p => opposite_infinities p.1 p.2 = false) (zip (cells A) (cells B)) ->
   overlap A B =
     length (filter (fun p => isnan p.1 = false /\ isnan p.2 = false)
               (zip (cells A) (cells B)))).
Proof. split; [apply overlap_self | apply overlap_pair]. Qed.

Lemma overlap_counts_valid_cells_witness :
  let A := [Chan4 (Fin 1) NaN (Fin 2) (Inf false)] in
  let B := [Chan4 (Fin 3) (Fin 1) NaN (Fin 0)] in
  Forall (fun p => opposite_infinities p.1 p.2 = false) (zip (cells A) (cells B)) /\
  overlap A B =
    length (filter (fun p => isnan p.1 = false /\ isnan p.2 = false)
              (zip (cells A) (cells B))).
Proof.
  intros A B.
  assert (H : Forall (fun p => opposite_infinities p.1 p.2 = false)
                (zip (cells A) (cells B))).
  { repeat constructor. }
  split; [exact H|].
  exact (proj2 (overlap_counts_valid_cells A B) H).
Defined.

(** C7 as the specification has it does not hold for every pair.  These
    two spectra have a value, not NaN, at each of the four cells of their
    one wavelength: +inf in the first and -inf in the second (a
    calibration factor of 0 gives such values).  The four sums are NaN,
    and the overlap score is 0, not 4. *)
Lemma overlap_opposite_infinities :
  overlap [all4 (Inf false)] [all4 (Inf true)] = 0 /\
  length (filter (fun p => isnan p.1 = false /\ isnan p.2 = false)
            (zip (cells [all4 (Inf false)]) (cells [all4 (Inf true)]))) = 4.
Proof. split; reflexivity. Qed.

(** ** Sorting indices *)

Section Argsort.
Variable keys : list nat.

Lemma insert_index_perm i l : insert_index keys i l ≡ₚ i :: l.
Proof.
  induction l as [|j l IH]; simpl; [done|].
  destruct (decide (keys !!! i < keys !!! j)); [done|].
  rewrite IH. apply Permutation_swap.
Qed.

Lemma insert_index_sorted i l :
  StronglySorted (key_le keys) l -> StronglySorted (key_le keys) (insert_index keys i l).
Proof.
  induction 1 as [|j l Hl IH Hj]; simpl.
  - repeat constructor.
  - destruct (decide (keys !!! i < keys !!! j)) as [Hlt|Hge].
    + constructor; [by constructor|].
      constructor; [unfold key_le; lia|].
      eapply Forall_impl; [exact Hj|]. unfold key_le. intros; simpl in *; lia.
    + constructor; [done|].
      rewrite insert_index_perm. constructor; [unfold key_le; lia | done].
Qed.

Lemma insertion_perm (todo acc : list nat) :
  foldl (fun sorted i => insert_index keys i sorted) acc todo ≡ₚ todo ++ acc.
Proof.
  revert acc. induction todo as [|i todo IH]; intros acc; simpl; [done|].
  rewrite IH, insert_index_perm. by rewrite Permutation_middle.
Qed.

Lemma insertion_sorted (todo acc : list nat) :
  StronglySorted (key_le keys) acc ->
  StronglySorted (key_le keys) (foldl (fun sorted i => insert_index keys i sorted) acc todo).
Proof.
  revert acc. induction todo as [|i todo IH]; intros acc Hacc; simpl; [done|].
  by apply IH, insert_index_sorted.
Qed.

Lemma np_argsort_perm : np_argsort keys ≡ₚ seq 0 (length keys).
Proof. unfold np_argsort. by rewrite insertion_perm, app_nil_r. Qed.

Lemma np_argsort_sorted : StronglySorted (key_le keys) (np_argsort keys).
Proof. apply insertion_sorted. constructor. Qed.

Lemma np_argsort_length : length (np_argsort keys) = length keys.
Proof. by rewrite np_argsort_perm, length_seq. Qed.

Lemma np_argsort_NoDup : NoDup (np_argsort keys).
Proof. rewrite np_argsort_perm. apply NoDup_seq. Qed.

Lemma elem_of_np_argsort i : i ∈ np_argsort keys <-> i < length keys.
Proof. rewrite np_argsort_perm, elem_of_seq. lia. Qed.

(** the last index of the sorted order carries a largest key *)
Lemma np_argsort_snoc :
  keys <> [] ->
  exists init last,
    np_argsort keys = init ++ [last] /\
    last < length keys /\
    forall j, j < length keys -> keys !!! j <= keys !!! last.
Proof.
  intros Hne.
  destruct (np_argsort keys) as [|a l] eqn:E using rev_ind.
  { apply (f_equal length) in E. rewrite np_argsort_length in E.
    destruct keys; simpl in *; [done | lia]. }
  clear IHl. exists l, a. split; [done|].
  assert (Ha : a < length keys).
  { apply elem_of_np_argsort. rewrite E. apply elem_of_app. right. constructor. }
  split; [done|]. intros j Hj.
  apply elem_of_np_argsort in Hj. rewrite E in Hj.
  apply elem_of_app in Hj as [Hj|Hj].
  - pose proof np_argsort_sorted as Hs. rewrite E in Hs.
    apply (StronglySorted_app_1_elem_of _ _ _ j a) in Hs; [done | done | constructor].
  - inversion Hj as [|? ? ? Hnil]; subst; [done | inversion Hnil].
Qed.

(** an index whose key is strictly the largest comes last *)
Lemma np_argsort_strict_max i :
  i < length keys ->
  (forall j, j < length keys -> j <> i -> keys !!! j < keys !!! i) ->
  exists init, np_argsort keys = init ++ [i] /\ i ∉ init.
Proof.
  intros Hi Hmax.
  destruct np_argsort_snoc as (init & last & E & Hlast & Hle).
  { destruct keys; simpl in *; [lia | done]. }
  assert (last = i) as ->.
  { destruct (decide (last = i)) as [|Hne]; [done|].
    specialize (Hmax last Hlast Hne). specialize (Hle i Hi). lia. }
  exists init. split; [done|].
  pose proof np_argsort_NoDup as Hnd. rewrite E in Hnd.
  apply NoDup_app in Hnd as (_ & Hnd & _). intros Hin.
  apply (Hnd i Hin). constructor.
Qed.

End Argsort.

Lemma slice_from_m2_reversed_snoc {A} (init : list A) (x : A) :
  slice_from_m2_reversed (init ++ [x]) = reverse init.
Proof.
  unfold slice_from_m2_reversed. rewrite length_app. simpl.
  replace (length init + 1 - 1) with (length init) by lia.
  by rewrite take_app_length.
Qed.



(** ** Loops *)

Lemma for_each_inv {X St} (body : X -> St -> result St) (Inv : St -> Prop)
    (xs : list X) (st st' : St) :
  (forall x s s', Inv s -> body x s = Ok s' -> Inv s') ->
  Inv st -> for_each body xs st = Ok st' -> Inv st'.
Proof.
  intros Hbody. revert st. induction xs as [|x xs IH]; intros st Hst; simpl.
  - by intros [= <-].
  - destruct (body x st) as [s|e] eqn:E; simpl; [|done].
    apply IH. by eapply Hbody.
Qed.


(** ** Overlap matrix and baseline *)

Lemma all_overlaps_length (cal : arr3) : length (all_overlaps cal) = length cal.
Proof. unfold all_overlaps. by rewrite length_fmap. Qed.

Lemma all_overlaps_row (cal : arr3) i :
  i < length cal ->
  all_overlaps cal !!! i = (fun mean1 => overlap mean1 (cal !!! i)) <$> cal.
Proof.
  intros Hi. apply list_lookup_total_correct. unfold all_overlaps.
  rewrite list_lookup_fmap. by rewrite (list_lookup_lookup_total_lt cal i) by done.
Qed.

Lemma all_overlaps_row_length (cal : arr3) i :
  i < length cal -> length (all_overlaps cal !!! i) = length cal.
Proof. intros Hi. rewrite all_overlaps_row by done. by rewrite length_fmap. Qed.

Lemma all_overlaps_lookup (cal : arr3) i j :
  i < length cal -> j < length cal ->
  (all_overlaps cal !!! i) !!! j = overlap (cal !!! j) (cal !!! i).
Proof.
  intros Hi Hj. rewrite all_overlaps_row by done.
  apply list_lookup_total_correct. rewrite list_lookup_fmap.
  by rewrite (list_lookup_lookup_total_lt cal j) by done.
Qed.

Lemma np_diag_lookup (m : list (list nat)) k :
  k < length m -> np_diag m !!! k = (m !!! k) !!! k.
Proof.
  intros Hk. unfold np_diag. apply list_lookup_total_correct.
  rewrite list_lookup_imap. by rewrite (list_lookup_lookup_total_lt m k) by done.
Qed.

Lemma argmax_from_spec (seen l : list nat) (best best_val : nat) :
  best < length seen ->
  seen !!! best = best_val ->
  (forall k, k < length seen -> seen !!! k <= best_val) ->
  let r := argmax_from best best_val (length seen) l in
  r < length (seen ++ l) /\
  forall k, k < length (seen ++ l) -> (seen ++ l) !!! k <= (seen ++ l) !!! r.
Proof.
  revert seen best best_val.
  induction l as [|v l IH]; intros seen best best_val Hbest Hval Hmax; simpl.
  - rewrite app_nil_r. split; [done|]. intros k Hk. rewrite Hval. by apply Hmax.
  - assert (Hlen : length (seen ++ [v]) = S (length seen)).
    { rewrite length_app. simpl. lia. }
    assert (Hlast : (seen ++ [v]) !!! length seen = v).
    { apply list_lookup_total_correct. by rewrite list_lookup_middle. }
    assert (Hold : forall k, k < length seen -> (seen ++ [v]) !!! k = seen !!! k).
    { intros k Hk. apply list_lookup_total_correct.
      rewrite lookup_app_l by done. by apply list_lookup_lookup_total_lt. }
    replace (seen ++ v :: l) with ((seen ++ [v]) ++ l) by (by rewrite <- app_assoc).
    destruct (decide (best_val < v)) as [Hlt|Hge].
    + specialize (IH (seen ++ [v]) (length seen) v). rewrite Hlen in IH.
      apply IH; [lia | done |].
      intros k Hk. destruct (decide (k = length seen)) as [->|Hne].
      * by rewrite Hlast.
      * rewrite Hold by lia. specialize (Hmax k). lia.
    + specialize (IH (seen ++ [v]) best best_val). rewrite Hlen in IH.
      apply IH; [lia | by rewrite Hold |].
      intros k Hk. destruct (decide (k = length seen)) as [->|Hne].
      * rewrite Hlast. lia.
      * rewrite Hold by lia. apply Hmax. lia.
Qed.

Lemma np_argmax_spec (l : list nat) (r : nat) :
  np_argmax l = Ok r ->
  r < length l /\ forall k, k < length l -> l !!! k <= l !!! r.
Proof.
  destruct l as [|v l]; simpl; [done|]. intros [= <-].
  apply (argmax_from_spec [v] l 0 v); simpl; [lia | done |].
  intros [|k] Hk; simpl in *; [done | lia].
Qed.

Lemma baseline_of_spec (cal : arr3) (baseline : nat) :
  baseline_of cal = Ok baseline ->
  baseline < length cal /\
  forall k, k < length cal ->
    overlap (cal !!! k) (cal !!! k) <= overlap (cal !!! baseline) (cal !!! baseline).
Proof.
  unfold baseline_of. intros H. apply np_argmax_spec in H as [Hlt Hmax].
  unfold np_diag in Hlt. rewrite length_imap, all_overlaps_length in Hlt.
  split; [done|]. intros k Hk.
  specialize (Hmax k). unfold np_diag in Hmax at 1.
  rewrite length_imap, all_overlaps_length in Hmax. specialize (Hmax Hk).
  rewrite !np_diag_lookup in Hmax by (by rewrite all_overlaps_length).
  by rewrite !all_overlaps_lookup in Hmax.
Qed.

(** ** Overlap zero *)

Lemma cell_elem_of_cells {A} (a : list (chan4 A)) w c x :
  cell a w c = Some x -> x ∈ cells a.
Proof.
  unfold cell, cells. destruct (a !! w) as [r|] eqn:E; simpl; [|done].
  intros [= <-]. apply list_elem_of_bind. exists r. split.
  - destruct c; simpl; repeat constructor.
  - by eapply list_elem_of_lookup_2.
Qed.


Lemma fadd_comm (a b : float) : fadd a b = fadd b a.
Proof.
  destruct a as [|[]|x], b as [|[]|y]; simpl; try done. f_equal. lra.
Qed.

Lemma zip_with_comm {A B} (f : A -> A -> B) (l k : list A) :
  (forall x y, f x y = f y x) -> zip_with f l k = zip_with f k l.
Proof.
  intros Hf. revert k. induction l as [|x l IH]; intros [|y k]; simpl; try done.
  by rewrite Hf, IH.
Qed.

Lemma overlap_comm (a b : arr2) : overlap a b = overlap b a.
Proof.
  unfold overlap. rewrite !cells_zip2d.
  by rewrite (zip_with_comm fadd (cells a) (cells b)) by apply fadd_comm.
Qed.

Lemma filter_length_zip_with_le {A B C} (f : A -> B -> C)
    (P : C -> Prop) `{!forall x, Decision (P x)}
    (Q : B -> Prop) `{!forall x, Decision (Q x)} (l : list A) (k : list B) :
  (forall x y, P (f x y) -> Q y) ->
  length (filter P (zip_with f l k)) <= length (filter Q k).
Proof.
  intros Hall. revert k. induction l as [|x l IH]; intros [|y k]; simpl; try lia.
  rewrite !filter_cons. specialize (IH k).
  destruct (decide (P (f x y))) as [HP|HP], (decide (Q y)) as [HQ|HQ]; simpl;
    try lia. exfalso. by apply HQ, (Hall x).
Qed.

Lemma overlap_le_self (a b : arr2) : overlap a b <= overlap b b.
Proof.
  rewrite (overlap_self b).
  unfold overlap. rewrite cells_zip2d.
  apply filter_length_zip_with_le. intros x y.
  destruct x as [|[]|], y as [|[]|]; simpl; done.
Qed.

(** ** The normalisation loop *)

Lemma lookup_total_nil_ge {A} (l : list (list A)) i :
  length l <= i -> l !!! i = [].
Proof.
  intros Hi. rewrite list_lookup_total_alt. by rewrite lookup_ge_None_2.
Qed.

Lemma zip2d_nil_l {A B C} (f : A -> B -> C) (b : list (chan4 B)) :
  zip2d f [] b = [].
Proof. done. Qed.


Section NormaliserFacts.

Variable lstsq : list R -> list (chan4 float) -> nat -> option (list (chan4 float)).
Variable grid : list R.
Variables cal_m cal_s : arr3.

Lemma normalise_inv_init : normalise_inv cal_m cal_s (Normalised cal_m cal_s []).
Proof. repeat split. intros k. by exists None. Qed.

Lemma normalise_body_inv overlaps baseline i st st' :
  normalise_inv cal_m cal_s st ->
  normalise_body lstsq grid cal_m cal_s overlaps baseline i st = Ok st' ->
  normalise_inv cal_m cal_s st'.
Proof.
  intros (Hlm & Hls & Hk). unfold normalise_body.
  destruct (if decide _ then _ else _) as [comparison|]; simpl; [|done].
  destruct (np_polyfit _ _ _ _) as [fits|]; simpl; [|done].
  intros [= <-]. unfold normalise_inv. simpl.
  set (fit_norms := (fun w => tab4 (fun c => np_polyval (get c <$> fits) w)) <$> grid).
  split; [by rewrite length_insert|]. split; [by rewrite length_insert|].
  intros k. rewrite !list_lookup_total_insert.
  destruct (decide (i = k)) as [<-|Hne].
  - exists (Some fit_norms). simpl. split.
    + destruct (decide (i < length (all_means_normalised st))).
      * by rewrite decide_True.
      * rewrite decide_False by tauto.
        rewrite !lookup_total_nil_ge by lia. done.
    + destruct (decide (i < length (all_stds_normalised st))).
      * by rewrite decide_True.
      * rewrite decide_False by tauto.
        rewrite !lookup_total_nil_ge by lia. done.
  - rewrite !decide_False by tauto. apply Hk.
Qed.

Lemma normalise_keeps_inv st :
  normalise lstsq grid cal_m cal_s = Ok st -> normalise_inv cal_m cal_s st.
Proof.
  unfold normalise. destruct (baseline_of cal_m) as [baseline|]; simpl; [|done].
  apply for_each_inv; [|apply normalise_inv_init].
  intros x s s'. apply normalise_body_inv.
Qed.



End NormaliserFacts.


(** ** A spectrum without overlap *)


(** ** Loops that fill one row per pass *)

Section RowLoop.

Context {X A B : Type} `{Inhabited A, Inhabited B}.
Variable F : X -> A -> result A.
Variable G : X -> B -> result B.
Variable body : nat -> X -> list A * list B -> result (list A * list B).
Hypothesis body_eq : forall i x st,
  body i x st =
    m ← F x (st.1 !!! i); s ← G x (st.2 !!! i); Ok (<[i:=m]> st.1, <[i:=s]> st.2).

Lemma for_enumerate_rows (xs : list X) (k : nat) (st st' : list A * list B) :
  for_enumerate body k xs st = Ok st' ->
  k + length xs <= length st.1 ->
  k + length xs <= length st.2 ->
  length st'.1 = length st.1 /\ length st'.2 = length st.2 /\
  (forall j, j < k \/ k + length xs <= j ->
     st'.1 !! j = st.1 !! j /\ st'.2 !! j = st.2 !! j) /\
  (forall i x, xs !! i = Some x ->
     exists m s,
       F x (st.1 !!! (k + i)) = Ok m /\ G x (st.2 !!! (k + i)) = Ok s /\
       st'.1 !! (k + i) = Some m /\ st'.2 !! (k + i) = Some s).
Proof.
  revert k st. induction xs as [|x xs IH]; intros k st; simpl.
  - intros [= <-] _ _. repeat split; done.
  - rewrite body_eq.
    destruct (F x (st.1 !!! k)) as [m|] eqn:EF; simpl; [|done].
    destruct (G x (st.2 !!! k)) as [s|] eqn:EG; simpl; [|done].
    intros Hrun H1 H2.
    apply IH in Hrun; simpl; rewrite ?length_insert; [|lia..].
    simpl in Hrun. rewrite !length_insert in Hrun.
    destruct Hrun as (Hl1 & Hl2 & Hout & Hin).
    split; [done|]. split; [done|]. split.
    + intros j Hj. destruct (Hout j) as [E1 E2]; [lia|].
      rewrite E1, E2. rewrite !list_lookup_insert_ne by lia. done.
    + intros [|i] y Hy; simpl in Hy.
      * injection Hy as <-. replace (k + 0) with k by lia.
        exists m, s. repeat split; try done.
        -- destruct (Hout k) as [E1 _]; [lia|]. rewrite E1.
           apply list_lookup_insert_eq. lia.
        -- destruct (Hout k) as [_ E2]; [lia|]. rewrite E2.
           apply list_lookup_insert_eq. lia.
      * destruct (Hin i y Hy) as (m' & s' & EF' & EG' & E1 & E2).
        rewrite list_lookup_total_insert_ne in EF' by lia.
        rewrite list_lookup_total_insert_ne in EG' by lia.
        replace (k + S i) with (S k + i) by lia. by exists m', s'.
Qed.

Lemma for_enumerate_rows_Ok (xs : list X) (k : nat) (st : list A * list B) :
  (forall i x, xs !! i = Some x ->
     raised (F x (st.1 !!! (k + i))) = false /\
     raised (G x (st.2 !!! (k + i))) = false) ->
  raised (for_enumerate body k xs st) = false.
Proof.
  revert k st. induction xs as [|x xs IH]; intros k st Hok; simpl; [done|].
  rewrite body_eq. destruct (Hok 0 x eq_refl) as [H1 H2].
  rewrite Nat.add_0_r in H1, H2.
  destruct (F x (st.1 !!! k)) as [m|]; simpl in H1 |- *; [|done].
  destruct (G x (st.2 !!! k)) as [s|]; simpl in H2 |- *; [|done].
  apply IH. intros i y Hy. simpl.
  destruct (Hok (S i) y Hy) as [H3 H4]. rewrite Nat.add_succ_r in H3, H4.
  split.
  - by rewrite list_lookup_total_insert_ne by lia.
  - by rewrite list_lookup_total_insert_ne by lia.
Qed.

End RowLoop.

Lemma raised_false {A} (m : result A) : raised m = false -> exists a, m = Ok a.
Proof. destruct m; [eauto | done]. Qed.

(** ** Writing rows by index *)

Lemma setitems_length {A} (a a' : list A) ivs :
  setitems a ivs = Ok a' -> length a' = length a.
Proof.
  revert a. induction ivs as [|[i v] ivs IH]; intros a; simpl.
  - by intros [= <-].
  - case_decide; [|done]. intros Hrun. apply IH in Hrun.
    by rewrite length_insert in Hrun.
Qed.

Lemma setitems_Ok {A} (a : list A) ivs :
  Forall (fun p => p.1 < length a) ivs -> raised (setitems a ivs) = false.
Proof.
  revert a. induction ivs as [|[i v] ivs IH]; intros a Hall; simpl; [done|].
  apply Forall_cons in Hall as [Hi Hall]. simpl in Hi.
  rewrite decide_True by done. apply IH.
  eapply Forall_impl; [exact Hall|]. intros p. by rewrite length_insert.
Qed.

Lemma setitems_other {A} (a a' : list A) ivs w :
  setitems a ivs = Ok a' -> w ∉ ivs.*1 -> a' !! w = a !! w.
Proof.
  revert a. induction ivs as [|[i v] ivs IH]; intros a; simpl.
  - by intros [= <-].
  - case_decide; [|done]. intros Hrun Hw.
    apply not_elem_of_cons in Hw as [Hne Hw].
    rewrite (IH _ Hrun Hw). by apply list_lookup_insert_ne.
Qed.

Lemma setitems_written {A} (a a' : list A) ivs i v :
  setitems a ivs = Ok a' -> NoDup ivs.*1 -> (i, v) ∈ ivs -> a' !! i = Some v.
Proof.
  revert a. induction ivs as [|[j u] ivs IH]; intros a; simpl.
  - intros _ _ Hin. inversion Hin.
  - case_decide; [|done]. intros Hrun Hnd Hin.
    apply NoDup_cons in Hnd as [Hj Hnd].
    apply elem_of_cons in Hin as [[= -> ->]|Hin].
    + rewrite (setitems_other _ _ _ _ Hrun Hj). by apply list_lookup_insert_eq.
    + by eapply IH.
Qed.

(** two arrays written at the same indices stay related row by row *)
Lemma setitems_rel {A} (P : nat -> A -> A -> Prop) ivs jvs (a b a' b' : list A) :
  Forall2 (fun p q => p.1 = q.1 /\ P p.1 p.2 q.2) ivs jvs ->
  (forall w x y, a !! w = Some x -> b !! w = Some y -> P w x y) ->
  setitems a ivs = Ok a' -> setitems b jvs = Ok b' ->
  forall w x y, a' !! w = Some x -> b' !! w = Some y -> P w x y.
Proof.
  intros Hall. revert a b.
  induction Hall as [|[i v] [j u] ivs jvs [Hij HP] _ IH]; intros a b Hab; simpl.
  - by intros [= <-] [= <-].
  - simpl in *. subst j. do 2 (case_decide; [|done]).
    apply IH. intros w x y.
    destruct (decide (i = w)) as [->|Hne].
    + rewrite !list_lookup_insert_eq by done. by intros [= <-] [= <-].
    + rewrite !list_lookup_insert_ne by done. apply Hab.
Qed.

Lemma np_take_spec {A} (a : list A) indices rows :
  np_take a indices = Ok rows -> Forall2 (fun g r => a !! g = Some r) indices rows.
Proof.
  revert rows. induction indices as [|g indices IH]; intros rows; simpl.
  - intros [= <-]. constructor.
  - unfold getitem. destruct (a !! g) as [r|] eqn:E; simpl; [|done].
    destruct (np_take a indices) as [rs|]; simpl; [|done].
    intros [= <-]. constructor; [done | by apply IH].
Qed.

Lemma np_take_Ok {A} (a : list A) indices :
  Forall (fun g => g < length a) indices -> raised (np_take a indices) = false.
Proof.
  induction 1 as [|g indices Hg _ IH]; simpl; [done|].
  unfold getitem. apply lookup_lt_is_Some in Hg as [r ->]. simpl.
  by destruct (np_take a indices).
Qed.

Lemma broadcast_rows_same {A} (vals : list A) :
  broadcast_rows (length vals) vals = Ok vals.
Proof. unfold broadcast_rows. by rewrite decide_True. Qed.

(** ** Signal-to-noise ratio through the stages *)

Lemma snr_kept_nan (mean std : arr2) w (rs : chan4 float) :
  snr_kept mean std w nan_row rs.
Proof. unfold snr_kept, nan_row. intros c. by rewrite get_all4. Qed.

Lemma snr_kept_divided (mean std : arr2) g (rm rs : chan4 float) (f : float) :
  mean !! g = Some rm -> std !! g = Some rs ->
  snr_kept mean std g (map4 (fun v => fdiv v f) rm) (map4 (fun v => fdiv v f) rs).
Proof.
  intros Hm Hs c. rewrite !get_map4. intros Hfin.
  exists (get c rm), (get c rs). unfold cell. rewrite Hm, Hs. simpl.
  repeat split. by apply fdiv_common_divisor.
Qed.

Lemma calibrated_rows_rel (mean std : arr2) (gi : list nat)
    (rows_m rows_s : arr2) (factors : list float) :
  Forall2 (fun g r => mean !! g = Some r) gi rows_m ->
  Forall2 (fun g r => std !! g = Some r) gi rows_s ->
  Forall2 (fun p q => p.1 = q.1 /\ snr_kept mean std p.1 p.2 q.2)
    (zip gi (zip_with (fun r f => map4 (fun v => fdiv v f) r) rows_m factors))
    (zip gi (zip_with (fun r f => map4 (fun v => fdiv v f) r) rows_s factors)).
Proof.
  intros Hm. revert rows_s factors.
  induction Hm as [|g rm gi rows_m Hg _ IH]; intros rows_s factors Hs.
  - inversion Hs. constructor.
  - inversion Hs as [|? rs ? rows_s' Hgs Hs']; subst.
    destruct factors as [|f factors]; simpl; [constructor|].
    constructor; [|by apply IH]. simpl. split; [done|].
    by apply snr_kept_divided.
Qed.

Lemma calibrate_one_rel (grid : list R) (cal : calibration)
    (mean std accm accs cm cs : arr2) :
  calibrate_one grid cal mean accm = Ok cm ->
  calibrate_one grid cal std accs = Ok cs ->
  (forall w x y, accm !! w = Some x -> accs !! w = Some y -> snr_kept mean std w x y) ->
  forall w x y, cm !! w = Some x -> cs !! w = Some y -> snr_kept mean std w x y.
Proof.
  unfold calibrate_one, np_intersect1d. cbv zeta.
  set (common := filter _ _).
  set (ci := (fun v => index_of v cal.*1) <$> common).
  set (gi := (fun v => index_of v grid) <$> common).
  destruct (np_take mean gi) as [rows_m|] eqn:Em; simpl; [|done].
  destruct (np_take cal.*2 ci) as [factors|] eqn:Ef; simpl; [|done].
  destruct (np_take std gi) as [rows_s|] eqn:Es; simpl; [|done].
  apply np_take_spec in Em, Ef, Es.
  assert (Hlen : forall rows : arr2, length rows = length gi ->
     length (zip_with (fun r f => map4 (fun v => fdiv v f) r) rows factors) = length gi).
  { intros rows Hr. rewrite length_zip_with, Hr.
    apply Forall2_length in Ef. rewrite <- Ef. unfold ci, gi.
    rewrite !length_fmap. lia. }
  unfold setitem_fancy.
  rewrite <- (Hlen rows_m) at 1 by (symmetry; by eapply Forall2_length).
  rewrite broadcast_rows_same. simpl.
  rewrite <- (Hlen rows_s) at 1 by (symmetry; by eapply Forall2_length).
  rewrite broadcast_rows_same. simpl.
  intros Hcm Hcs Hacc. eapply setitems_rel; [|exact Hacc|exact Hcm|exact Hcs].
  by apply calibrated_rows_rel.
Qed.

Lemma calibrate_body_eq (grid : list R) i (x : arr2 * arr2 * calibration)
    (st : arr3 * arr3) :
  calibrate_body grid i x st =
    m ← calibrate_one grid x.2 x.1.1 (st.1 !!! i);
    s ← calibrate_one grid x.2 x.1.2 (st.2 !!! i);
    Ok (<[i:=m]> st.1, <[i:=s]> st.2).
Proof. by destruct x as [[mean std] cal]. Qed.

Lemma full_like_nan_lookup (a : arr3) i rows w r :
  full_like_nan a !! i = Some rows -> rows !! w = Some r -> r = nan_row.
Proof.
  unfold full_like_nan. rewrite list_lookup_fmap.
  destruct (a !! i); simpl; [|done]. intros [= <-] Hr.
  by apply lookup_replicate in Hr as [-> _].
Qed.

Lemma calibrate_keeps_snr (sp : spectra) (cals : list calibration) (mc sc : arr3) :
  calibrate sp cals = Ok (mc, sc) ->
  forall i w c m' s',
    cell (mc !!! i) w c = Some m' -> cell (sc !!! i) w c = Some s' ->
    isfinite (fdiv m' s') = true ->
    exists m s,
      cell (all_means sp !!! i) w c = Some m /\
      cell (all_stds sp !!! i) w c = Some s /\
      fdiv m' s' = fdiv m s.
Proof.
  unfold calibrate. cbv zeta. intros Hrun.
  set (xs := zip (zip (all_means sp) (all_stds sp)) cals) in Hrun.
  assert (Hxs : length xs <= length (all_means sp)).
  { unfold xs. rewrite !length_zip. lia. }
  assert (Hinit : length (full_like_nan (all_means sp)) = length (all_means sp)).
  { unfold full_like_nan. by rewrite length_fmap. }
  apply (for_enumerate_rows
           (fun x a => calibrate_one (all_wavelengths sp) x.2 x.1.1 a)
           (fun x b => calibrate_one (all_wavelengths sp) x.2 x.1.2 b)
           _ (calibrate_body_eq (all_wavelengths sp)))
    in Hrun; simpl; [|lia..].
  simpl in Hrun. destruct Hrun as (Hl1 & Hl2 & Hout & Hin).
  intros i w c m' s' Hm Hs Hfin.
  assert (Hrows : exists rm rs,
             (mc !!! i) !! w = Some rm /\ (sc !!! i) !! w = Some rs /\
             get c rm = m' /\ get c rs = s').
  { unfold cell in Hm, Hs.
    destruct ((mc !!! i) !! w) as [rm|]; simpl in Hm; [|done].
    destruct ((sc !!! i) !! w) as [rs|]; simpl in Hs; [|done].
    exists rm, rs. injection Hm as <-. injection Hs as <-. done. }
  destruct Hrows as (rm & rs & Erm & Ers & <- & <-).
  assert (Hi : i < length mc).
  { destruct (decide (i < length mc)); [done|].
    rewrite lookup_total_nil_ge in Erm by lia. done. }
  rewrite Hl1, Hinit in Hi.
  destruct (decide (i < length xs)) as [Hlt|Hge].
  - destruct (lookup_lt_is_Some_2 xs i Hlt) as [[[mean std] cal] Hx].
    destruct (Hin i _ Hx) as (m & s & Fm & Fs & E1 & E2). simpl in *.
    rewrite (list_lookup_total_correct _ _ _ E1) in Erm.
    rewrite (list_lookup_total_correct _ _ _ E2) in Ers.
    unfold xs in Hx. apply lookup_zip_with_Some in Hx as (p & cal' & [= <- <-] & Hp & _).
    apply lookup_zip_with_Some in Hp as (mean' & std' & [= <- <-] & Hmean & Hstd).
    rewrite (list_lookup_total_correct _ _ _ Hmean).
    rewrite (list_lookup_total_correct _ _ _ Hstd).
    eapply (calibrate_one_rel _ _ _ _ _ _ _ _ Fm Fs); [|exact Erm|exact Ers|exact Hfin].
    intros w' x y Hx' _.
    assert (x = nan_row) as ->; [|apply snr_kept_nan].
    eapply full_like_nan_lookup; [|exact Hx'].
    apply list_lookup_lookup_total_lt. lia.
  - destruct (Hout i) as [E1 _]; [lia|].
    exfalso. rewrite list_lookup_total_alt, E1 in Erm.
    destruct (full_like_nan (all_means sp) !! i) as [rows|] eqn:Er; simpl in Erm; [|done].
    pose proof (full_like_nan_lookup _ _ _ _ _ Er Erm) as ->.
    unfold nan_row in Hfin. by rewrite get_all4 in Hfin.
Qed.

Lemma normalise_keeps_snr lstsq (grid : list R) (cal_m cal_s : arr3) (st : normalised) :
  normalise lstsq grid cal_m cal_s = Ok st ->
  forall i w c m' s',
    cell (all_means_normalised st !!! i) w c = Some m' ->
    cell (all_stds_normalised st !!! i) w c = Some s' ->
    isfinite (fdiv m' s') = true ->
    exists m s,
      cell (cal_m !!! i) w c = Some m /\ cell (cal_s !!! i) w c = Some s /\
      fdiv m' s' = fdiv m s.
Proof.
  intros Hrun i w c m' s'. apply normalise_keeps_inv in Hrun as (_ & _ & Hk).
  destruct (Hk i) as ([fit_norms|] & -> & ->); simpl.
  - rewrite !cell_zip2d.
    destruct (cell (cal_m !!! i) w c) as [m|]; simpl; [|done].
    destruct (cell fit_norms w c) as [f|]; simpl; [|done].
    destruct (cell (cal_s !!! i) w c) as [s|]; simpl; [|done].
    intros [= <-] [= <-] Hfin. exists m, s. repeat split.
    by apply fdiv_common_divisor.
  - intros Hm Hs _. by exists m', s'.
Qed.

Lemma combine_keeps_snr (mn sn : arr3) (cmb : combined) :
  combine mn sn = Ok cmb ->
  exists flat_max,
    ma_max (cells (flat_means_mask mn sn)) = Ok flat_max /\
    forall w c fm fe,
      cell (flat_means_mask mn sn) w c = Some fm ->
      cell (flat_errs_mask mn sn) w c = Some fe ->
      mask (ma_true_divide fm flat_max) = false ->
      mask (ma_true_divide fe flat_max) = false ->
      exists r e,
        cell (response_normalised cmb) w c = Some r /\
        cell (errors_normalised cmb) w c = Some e /\
        r = fdiv (data fm) (data flat_max) /\
        e = fdiv (data fe) (data flat_max) /\
        (isfinite (fdiv r e) = true -> fdiv r e = fdiv (data fm) (data fe)).
Proof.
  unfold combine. cbv zeta.
  destruct (ma_max _) as [flat_max|] eqn:E; simpl; [|done].
  intros [= <-]. exists flat_max. split; [done|].
  intros w c fm fe Hm He Hmm Hme. simpl.
  rewrite !cell_map2d, Hm, He. simpl.
  unfold ma_true_divide in *. simpl in *. rewrite Hmm, Hme.
  eexists _, _. repeat split. apply fdiv_common_divisor.
Qed.

(** C9.  Every stage leaves the ratio mean/std of a cell unchanged wherever
    the ratio of the processed cell is a number: the calibrator, the
    normaliser, and the final division by the maximum of the combined mean
    (at the cells that stay unmasked). *)
Theorem every_stage_keeps_snr :
  (forall (sp : spectra) (cals : list calibration) (mc sc : arr3),
     calibrate sp cals = Ok (mc, sc) ->
     forall i w c m' s',
       cell (mc !!! i) w c = Some m' -> cell (sc !!! i) w c = Some s' ->
       isfinite (fdiv m' s') = true ->
       exists m s,
         cell (all_means sp !!! i) w c = Some m /\
         cell (all_stds sp !!! i) w c = Some s /\
         fdiv m' s' = fdiv m s) /\
  (forall lstsq (grid : list R) (cal_m cal_s : arr3) (st : normalised),
     normalise lstsq grid cal_m cal_s = Ok st ->
     forall i w c m' s',
       cell (all_means_normalised st !!! i) w c = Some m' ->
       cell (all_stds_normalised st !!! i) w c = Some s' ->
       isfinite (fdiv m' s') = true ->
       exists m s,
         cell (cal_m !!! i) w c = Some m /\ cell (cal_s !!! i) w c = Some s /\
         fdiv m' s' = fdiv m s) /\
  (forall (mn sn : arr3) (cmb : combined),
     combine mn sn = Ok cmb ->
     exists flat_max,
       ma_max (cells (flat_means_mask mn sn)) = Ok flat_max /\
       forall w c fm fe,
         cell (flat_means_mask mn sn) w c = Some fm ->
         cell (flat_errs_mask mn sn) w c = Some fe ->
         mask (ma_true_divide fm flat_max) = false ->
         mask (ma_true_divide fe flat_max) = false ->
         exists r e,
           cell (response_normalised cmb) w c = Some r /\
           cell (errors_normalised cmb) w c = Some e /\
           r = fdiv (data fm) (data flat_max) /\
           e = fdiv (data fe) (data flat_max) /\
           (isfinite (fdiv r e) = true -> fdiv r e = fdiv (data fm) (data fe))).
Proof.
  split; [exact calibrate_keeps_snr|].
  split; [exact normalise_keeps_snr | exact combine_keeps_snr].
Qed.

(** ** Cells of stacked arrays *)

Lemma column_map3d {A B} (f : A -> B) (a : list (list (chan4 A))) w c :
  column (map3d f a) w c = f <$> column a w c.
Proof.
  unfold column, map3d. induction a as [|s a IH]; [done|].
  rewrite fmap_cons. cbn [omap list_omap]. rewrite cell_map2d.
  destruct (cell s w c); simpl; [f_equal|]; exact IH.
Qed.

Lemma column_full {A} (a : list (list (chan4 A))) w c :
  has_row a w -> length (column a w c) = length a.
Proof.
  unfold column. induction 1 as [|s a Hs _ IH]; [done|].
  cbn [omap list_omap]. apply (cell_is_Some s w c) in Hs as [x ->].
  simpl. f_equal. exact IH.
Qed.

Lemma column_zip3d {A B C} (f : A -> B -> C)
    (a : list (list (chan4 A))) (b : list (list (chan4 B))) w c :
  has_row a w -> has_row b w ->
  column (zip3d f a b) w c = zip_with f (column a w c) (column b w c).
Proof.
  unfold column, zip3d. intros Ha. revert b.
  induction Ha as [|s a Hs _ IH]; intros b Hb; [done|].
  destruct Hb as [|t b Ht Hb].
  - cbn [omap list_omap zip_with].
    apply (cell_is_Some s w c) in Hs as [x ->]. simpl. done.
  - cbn [omap list_omap zip_with]. rewrite cell_zip2d.
    apply (cell_is_Some s w c) in Hs as [x ->].
    apply (cell_is_Some t w c) in Ht as [y ->]. simpl. f_equal. by apply IH.
Qed.

Lemma has_row_zip3d {A B C} (f : A -> B -> C)
    (a : list (list (chan4 A))) (b : list (list (chan4 B))) w :
  has_row a w -> has_row b w -> has_row (zip3d f a b) w.
Proof.
  unfold has_row, zip3d. intros Ha. revert b.
  induction Ha as [|s a Hs _ IH]; intros b Hb; simpl; [constructor|].
  destruct Hb as [|t b Ht Hb]; simpl; constructor; [|by apply IH].
  unfold zip2d. rewrite length_zip_with. lia.
Qed.

Lemma has_row_map3d {A B} (f : A -> B) (a : list (list (chan4 A))) w :
  has_row a w -> has_row (map3d f a) w.
Proof.
  unfold has_row, map3d. intros Ha. apply Forall_fmap.
  eapply Forall_impl; [exact Ha|]. intros s Hs. simpl.
  unfold map2d. by rewrite length_fmap.
Qed.

Lemma column_broadcast {A B C} (f : A -> B -> C)
    (a : list (list (chan4 A))) (y : list (chan4 B)) w c yv :
  cell y w c = Some yv ->
  column ((fun x => zip2d f x y) <$> a) w c = (fun v => f v yv) <$> column a w c.
Proof.
  intros Hy. unfold column. induction a as [|s a IH]; [done|].
  rewrite fmap_cons. cbn [omap list_omap]. rewrite cell_zip2d, Hy.
  destruct (cell s w c); simpl; [f_equal|]; exact IH.
Qed.

Lemma has_row_broadcast {A B C} (f : A -> B -> C)
    (a : list (list (chan4 A))) (y : list (chan4 B)) w :
  has_row a w -> w < length y -> has_row ((fun x => zip2d f x y) <$> a) w.
Proof.
  unfold has_row. intros Ha Hy. apply Forall_fmap.
  eapply Forall_impl; [exact Ha|]. intros s Hs. simpl in *.
  unfold zip2d. rewrite length_zip_with. lia.
Qed.

Lemma cell_axis0 {A B} (f : list A -> B) (a : list (list (chan4 A))) w c :
  a <> [] -> has_row a w -> cell (axis0 f a) w c = Some (f (column a w c)).
Proof.
  destruct a as [|s a]; [done|]. intros _ Ha.
  apply Forall_cons in Ha as [Hs _]. unfold axis0, cell.
  rewrite list_lookup_imap.
  apply lookup_lt_is_Some in Hs as [r ->]. simpl. by rewrite get_tab4.
Qed.

Lemma axis0_length {A B} (f : list A -> B) (a : list (list (chan4 A))) w :
  a <> [] -> has_row a w -> w < length (axis0 f a).
Proof.
  destruct a as [|s a]; [done|]. intros _ Ha.
  apply Forall_cons in Ha as [Hs _]. unfold axis0. by rewrite length_imap.
Qed.

Lemma zip_with_zip {A B C} (f : A -> B -> C) (l : list A) (k : list B) :
  zip_with f l k = (fun p => f p.1 p.2) <$> zip l k.
Proof.
  revert k. induction l as [|x l IH]; intros [|y k]; simpl; try done.
  by rewrite IH.
Qed.

Lemma zip_with_fmap_zip_l {A B C D} (f : C -> A -> D) (g : A * B -> C)
    (l : list A) (k : list B) :
  length l = length k ->
  zip_with f (g <$> zip l k) l = (fun p => f (g p) p.1) <$> zip l k.
Proof.
  revert k. induction l as [|x l IH]; intros [|y k] Hlen; simpl in *; try done.
  rewrite IH by lia. done.
Qed.

Lemma zip_with_fmap_zip_r {A B C D} (f : C -> B -> D) (g : A * B -> C)
    (l : list A) (k : list B) :
  length l = length k ->
  zip_with f (g <$> zip l k) k = (fun p => f (g p) p.2) <$> zip l k.
Proof.
  revert k. induction l as [|x l IH]; intros [|y k] Hlen; simpl in *; try done.
  rewrite IH by lia. done.
Qed.

Lemma zip_with_fmap_zip_l' {A B C D} (f : A -> C -> D) (g : A * B -> C)
    (l : list A) (k : list B) :
  length l = length k ->
  zip_with f l (g <$> zip l k) = (fun p => f p.1 (g p)) <$> zip l k.
Proof.
  revert k. induction l as [|x l IH]; intros [|y k] Hlen; simpl in *; try done.
  rewrite IH by lia. done.
Qed.

(** ** The combiner at one cell *)

Section CombinerCells.

Variables mn sn : arr3.
Variables (w : nat) (c : channel).
Hypothesis Hne : mn <> [].
Hypothesis Hlen : length mn = length sn.
Hypothesis Hm : has_row mn w.
Hypothesis Hs : has_row sn w.

Let col := zip (column mn w c) (column sn w c).

Lemma column_lengths : length (column mn w c) = length (column sn w c).
Proof. by rewrite !column_full. Qed.

Lemma weights_has_row : has_row (weights mn sn) w.
Proof.
  unfold weights. do 2 apply has_row_map3d. by apply has_row_zip3d.
Qed.

Lemma weights_ne : weights mn sn <> [].
Proof.
  unfold weights, map3d, zip3d. destruct mn, sn; simpl in *; done.
Qed.

Lemma column_weights : column (weights mn sn) w c = weight_cell <$> col.
Proof.
  unfold weights. rewrite !column_map3d, column_zip3d by done.
  rewrite zip_with_zip, <- !list_fmap_compose. done.
Qed.

Lemma cell_flat_means_mask :
  cell (flat_means_mask mn sn) w c = Some (flat_mean_cell col).
Proof.
  unfold flat_means_mask, ma_average. cbv zeta.
  pose proof weights_has_row as Hw. pose proof weights_ne as Hwne.
  pose proof column_lengths as Hcl.
  assert (Hmm : has_row (map3d ma_array mn) w) by by apply has_row_map3d.
  set (wgt1 := zip3d (fun w0 x => ma_multiply w0 (not_mask x)) _ _).
  assert (H1 : has_row wgt1 w) by by apply has_row_zip3d.
  set (wgt := zip3d (fun w0 x => MFloat (data w0) (mask w0 || mask x)) wgt1 _).
  assert (H2 : has_row wgt w) by by apply has_row_zip3d.
  assert (Ecol : column wgt w c = wgt_cell <$> col).
  { unfold wgt, wgt1. rewrite !column_zip3d by done.
    rewrite column_weights, column_map3d.
    rewrite zip_with_zip.
    assert (Hz : zip (zip_with (fun w0 x => ma_multiply w0 (not_mask x))
                        (weight_cell <$> col) (ma_array <$> column mn w c))
                     (ma_array <$> column mn w c)
                 = (fun p => (ma_multiply (weight_cell p) (not_mask (ma_array p.1)),
                              ma_array p.1)) <$> col).
    { unfold col. generalize (column mn w c) (column sn w c) Hcl.
      induction l as [|x l IH]; intros [|y k] Hl; simpl in *; try done.
      f_equal. apply IH. lia. }
    rewrite Hz, <- list_fmap_compose. done. }
  assert (Hwgt_ne : wgt <> []).
  { unfold wgt, wgt1, zip3d, map3d.
    destruct (weights mn sn), mn; simpl in *; done. }
  assert (Hprod : has_row (zip3d np_multiply (map3d ma_array mn) wgt) w)
    by by apply has_row_zip3d.
  assert (Hprod_ne : zip3d np_multiply (map3d ma_array mn) wgt <> []).
  { unfold zip3d, map3d. destruct mn, wgt; simpl in *; done. }
  rewrite cell_zip2d.
  rewrite (cell_axis0 _ _ _ _ Hprod_ne Hprod), (cell_axis0 _ _ _ _ Hwgt_ne H2).
  simpl.
  rewrite column_zip3d, column_map3d, Ecol by done.
  unfold flat_mean_cell. do 3 f_equal.
  unfold col. rewrite zip_with_zip.
  generalize (column mn w c) (column sn w c) Hcl.
  induction l as [|x l IH]; intros [|y k] Hl; simpl in *; try done.
  f_equal. apply IH. lia.
Qed.

Lemma cell_flat_errs_mask :
  cell (flat_errs_mask mn sn) w c = Some (flat_err_cell col).
Proof.
  unfold flat_errs_mask. cbv zeta.
  pose proof weights_has_row as Hw. pose proof weights_ne as Hwne.
  pose proof column_lengths as Hcl.
  assert (Hsm : has_row (map3d ma_array sn) w) by by apply has_row_map3d.
  set (ws := axis0 ma_sum (weights mn sn)).
  assert (Hws : cell ws w c = Some (ma_sum (weight_cell <$> col))).
  { unfold ws. rewrite cell_axis0 by done. by rewrite column_weights. }
  assert (Hb : has_row ((fun w0 => zip2d ma_true_divide w0 ws) <$> weights mn sn) w).
  { apply has_row_broadcast; [done|]. by apply axis0_length. }
  rewrite cell_map2d, cell_axis0.
  - simpl. f_equal. unfold flat_err_cell. cbv zeta.
    rewrite column_map3d, column_zip3d by (done || by apply has_row_map3d).
    rewrite (column_broadcast _ _ _ _ _ _ Hws), column_weights, column_map3d.
    rewrite <- !list_fmap_compose. do 2 f_equal.
    unfold col. rewrite zip_with_zip.
    generalize (ma_sum (weight_cell <$> zip (column mn w c) (column sn w c))).
    intros total.
    generalize (column mn w c) (column sn w c) Hcl.
    induction l as [|x l IH]; intros [|y k] Hl; simpl in *; try done.
    f_equal. apply IH. lia.
  - unfold map3d, zip3d. destruct (weights mn sn), sn; simpl in *; try done.
    destruct mn; simpl in *; done.
  - apply has_row_map3d. by apply has_row_zip3d.
Qed.

End CombinerCells.

(** ** Sums of reals *)

Lemma foldl_Rplus_acc (a : R) (l : list R) :
  foldl Rplus a l = (a + sumR l)%R.
Proof.
  unfold sumR. revert a. induction l as [|x l IH]; intros a; simpl.
  - lra.
  - rewrite (IH (a + x)%R), (IH (0 + x)%R). lra.
Qed.

Lemma sumR_cons (x : R) (l : list R) : sumR (x :: l) = (x + sumR l)%R.
Proof. unfold sumR at 1. simpl. rewrite foldl_Rplus_acc. lra. Qed.

Lemma sumR_nil : sumR [] = 0%R.
Proof. done. Qed.

Lemma sumR_nonneg (l : list R) : Forall (fun x => (0 <= x)%R) l -> (0 <= sumR l)%R.
Proof.
  induction 1 as [|x l Hx _ IH]; [rewrite sumR_nil; lra|].
  rewrite sumR_cons. lra.
Qed.



Lemma weight_nonneg (p : R * R) : (0 <= weight p)%R.
Proof. unfold weight. nra. Qed.


(** ** Masked sums *)

Lemma ma_sum_all_masked (l : list mfloat) :
  Forall (fun x => mask x = true) l -> ma_sum l = MFloat (Fin 0) true.
Proof.
  unfold ma_sum. intros Hall.
  assert (Hd : forall a, foldl fadd (Fin a)
                 ((fun x => if mask x then Fin 0 else data x) <$> l) = Fin a).
  { induction Hall as [|x l Hx _ IH]; intros a; simpl; [done|].
    rewrite Hx. simpl. rewrite Rplus_0_r. apply IH. }
  rewrite Hd. f_equal. clear Hd.
  induction Hall as [|x l Hx _ IH]; simpl; [done|]. rewrite Hx. exact IH.
Qed.

Lemma valid_pair_inv (p : float * float) (q : R * R) :
  valid_pair p = Some q -> p = (Fin q.1, Fin q.2) /\ q.2 <> 0%R.
Proof.
  destruct p as [[| |x] [| |y]]; simpl; try done.
  destruct (Rzero y) eqn:E; [done|]. intros [= <-]. simpl. split; [done|].
  intros ->. by rewrite Rzero_true in E.
Qed.

Lemma valid_pair_not_missing (p : float * float) (q : R * R) :
  valid_pair p = Some q -> missing_pair p = false.
Proof. intros [-> _]%valid_pair_inv. done. Qed.

Lemma missing_pair_not_valid (p : float * float) :
  missing_pair p = true -> valid_pair p = None.
Proof. destruct p as [[| |x] [| |y]]; simpl; done. Qed.

(** a masked sum over the column: the valid spectra contribute [g], the
    missing ones are masked *)
Lemma ma_sum_valid (f : float * float -> mfloat) (g : R * R -> R)
    (col : list (float * float)) :
  Forall valid_or_missing col ->
  (forall p q, valid_pair p = Some q -> f p = MFloat (Fin (g q)) false) ->
  (forall p, missing_pair p = true -> mask (f p) = true) ->
  ma_sum (f <$> col) =
    MFloat (Fin (sumR (g <$> valid_pairs col)))
           (bool_decide (valid_pairs col = [])).
Proof.
  intros Hall Hv Hmiss. unfold ma_sum, sumR. f_equal.
  - assert (Hacc : forall a,
      foldl fadd (Fin a)
        ((fun x => if mask x then Fin 0 else data x) <$> (f <$> col)) =
      Fin (foldl Rplus a (g <$> valid_pairs col))); [|apply Hacc].
    induction Hall as [|p col Hp _ IH]; intros a; [done|].
    rewrite !fmap_cons. cbn [foldl]. unfold valid_pairs. cbn [omap list_omap].
    destruct (valid_pair p) as [q|] eqn:E.
    + rewrite (Hv p q E). simpl. apply IH.
    + destruct Hp as [[q Hq]|Hp]; [congruence|].
      rewrite (Hmiss p Hp). simpl. rewrite Rplus_0_r. apply IH.
  - induction Hall as [|p col Hp _ IH]; [done|].
    rewrite fmap_cons. cbn [forallb]. unfold valid_pairs. cbn [omap list_omap].
    destruct (valid_pair p) as [q|] eqn:E.
    + by rewrite (Hv p q E).
    + destruct Hp as [[q Hq]|Hp]; [congruence|].
      rewrite (Hmiss p Hp). simpl. exact IH.
Qed.

(** ** The weights at one cell *)

Lemma weight_cell_valid (p : float * float) (q : R * R) :
  valid_pair p = Some q -> weight_cell p = MFloat (Fin (weight q)) false.
Proof.
  intros [-> Hq]%valid_pair_inv. unfold weight_cell, ma_array, ma_power2. simpl.
  rewrite Rzero_false by done. done.
Qed.

Lemma fdiv_missing (p : float * float) :
  missing_pair p = true -> fdiv p.1 p.2 = NaN.
Proof. destruct p as [[| |x] [| |y]]; simpl; done. Qed.

Lemma weight_cell_missing (p : float * float) :
  missing_pair p = true -> weight_cell p = MFloat fill_value true.
Proof.
  intros Hp. unfold weight_cell. by rewrite fdiv_missing.
Qed.

Lemma wgt_cell_valid (p : float * float) (q : R * R) :
  valid_pair p = Some q -> wgt_cell p = MFloat (Fin (weight q)) false.
Proof.
  intros Hp. unfold wgt_cell. rewrite (weight_cell_valid p q Hp).
  apply valid_pair_inv in Hp as [-> _]. simpl.
  do 2 f_equal. lra.
Qed.

Lemma wgt_cell_missing (p : float * float) :
  missing_pair p = true -> mask (wgt_cell p) = true.
Proof.
  intros Hp. unfold wgt_cell. by rewrite (weight_cell_missing p Hp).
Qed.

Lemma product_cell_valid (p : float * float) (q : R * R) :
  valid_pair p = Some q ->
  np_multiply (ma_array p.1) (wgt_cell p) = MFloat (Fin (weight q * q.1)) false.
Proof.
  intros Hp. rewrite (wgt_cell_valid p q Hp).
  apply valid_pair_inv in Hp as [-> _]. unfold np_multiply. simpl.
  do 2 f_equal. lra.
Qed.

Lemma product_cell_missing (p : float * float) :
  missing_pair p = true -> mask (np_multiply (ma_array p.1) (wgt_cell p)) = true.
Proof.
  intros Hp. unfold np_multiply. cbn [mask]. rewrite (wgt_cell_missing p Hp).
  apply orb_true_r.
Qed.

Section OneCell.

Variable col : list (float * float).
Hypothesis Hcol : Forall valid_or_missing col.

Let valid := valid_pairs col.
Let total := sumR (weight <$> valid).

Lemma weights_sum_cell :
  ma_sum (weight_cell <$> col) = MFloat (Fin total) (bool_decide (valid = [])).
Proof.
  apply ma_sum_valid; [done | apply weight_cell_valid |].
  intros p Hp. by rewrite weight_cell_missing.
Qed.

Lemma flat_mean_cell_eq :
  flat_mean_cell col =
    ma_true_divide
      (MFloat (Fin (sumR ((fun q => weight q * q.1)%R <$> valid)))
              (bool_decide (valid = [])))
      (MFloat (Fin total) (bool_decide (valid = []))).
Proof.
  unfold flat_mean_cell. f_equal.
  - apply (ma_sum_valid _ (fun q => weight q * q.1)%R);
      [done | apply product_cell_valid | apply product_cell_missing].
  - apply ma_sum_valid; [done | apply wgt_cell_valid | apply wgt_cell_missing].
Qed.

Lemma total_nonneg : (0 <= total)%R.
Proof.
  apply sumR_nonneg, Forall_fmap, Forall_forall. intros q _. apply weight_nonneg.
Qed.


Lemma err_term_valid (p : float * float) (q : R * R) :
  total <> 0%R -> valid_pair p = Some q ->
  err_term (MFloat (Fin total) false) p =
    MFloat (Fin ((weight q / total * q.2) * (weight q / total * q.2))) false.
Proof.
  intros Ht Hp. unfold err_term. rewrite (weight_cell_valid p q Hp).
  apply valid_pair_inv in Hp as [-> _].
  unfold ma_true_divide, ma_multiply, ma_power2, ma_array. simpl.
  rewrite Rzero_false by done. simpl. done.
Qed.

Lemma err_term_missing (ws : mfloat) (p : float * float) :
  missing_pair p = true -> mask (err_term ws p) = true.
Proof.
  intros Hp. unfold err_term. rewrite (weight_cell_missing p Hp).
  unfold ma_true_divide, ma_multiply, ma_power2. simpl.
  rewrite orb_true_r. simpl. done.
Qed.

Lemma err_term_zero_total (p : float * float) (b : bool) :
  valid_or_missing p -> mask (err_term (MFloat (Fin 0) b) p) = true.
Proof.
  intros [[q Hq]|Hp]; [|by apply err_term_missing].
  unfold err_term. rewrite (weight_cell_valid p q Hq).
  unfold ma_true_divide, ma_multiply, ma_power2. simpl.
  rewrite Rzero_true by done.
  destruct (Rzero (weight q)); simpl; done.
Qed.

Lemma flat_err_cell_eq :
  valid <> [] -> total <> 0%R ->
  flat_err_cell col =
    MFloat (Fin (sqrt (sumR ((fun q => (weight q / total * q.2)
                                        * (weight q / total * q.2))%R <$> valid))))
           false.
Proof.
  intros Hv Ht. unfold flat_err_cell. cbv zeta.
  rewrite weights_sum_cell. rewrite bool_decide_eq_false_2 by done.
  rewrite (ma_sum_valid _
    (fun q => (weight q / total * q.2) * (weight q / total * q.2))%R);
    [|done | intros p q; by apply err_term_valid | apply err_term_missing].
  fold valid. rewrite bool_decide_eq_false_2 by done.
  unfold np_sqrt. simpl. rewrite Rneg_false; [done|].
  apply sumR_nonneg, Forall_fmap, Forall_forall. intros q _. simpl. nra.
Qed.

Lemma flat_err_cell_zero_total :
  total = 0%R -> flat_err_cell col = MFloat (Fin 0) true.
Proof.
  intros Ht. unfold flat_err_cell. cbv zeta.
  rewrite weights_sum_cell, Ht.
  rewrite ma_sum_all_masked; [done|].
  apply Forall_fmap. eapply Forall_impl; [exact Hcol|].
  intros p Hp. by apply err_term_zero_total.
Qed.

End OneCell.

(** ** The weighted average *)

Lemma fadd_nan_l (a : float) : fadd NaN a = NaN.
Proof. done. Qed.



Lemma column_nil_row {A} (a : list (list (chan4 A))) w c :
  column a w c <> [] -> a <> [].
Proof. by destruct a. Qed.





(** ** Two copies of one spectrum *)

Lemma column_pair {A} (a b : list (chan4 A)) w c x y :
  cell a w c = Some x -> cell b w c = Some y -> column [a; b] w c = [x; y].
Proof. intros Ha Hb. unfold column. simpl. by rewrite Ha, Hb. Qed.

Lemma has_row_of_cells {A} (l : list (list (chan4 A))) w c :
  Forall (fun a => is_Some (cell a w c)) l -> has_row l w.
Proof.
  unfold has_row. intros H. eapply Forall_impl; [exact H|].
  intros a. apply cell_is_Some.
Qed.

Lemma sqrt_half_square (y : R) :
  (0 < y)%R -> sqrt (y * y / 2) = (y / sqrt 2)%R.
Proof.
  intros Hy. assert (H2 : (0 < sqrt 2)%R) by (apply sqrt_lt_R0; lra).
  apply sqrt_lem_1.
  - nra.
  - apply Rlt_le, Rdiv_lt_0_compat; lra.
  - assert (Hs : (sqrt 2 * sqrt 2 = 2)%R) by (apply sqrt_sqrt; lra).
    replace (y * y / 2)%R with (y * y / (sqrt 2 * sqrt 2))%R by (by rewrite Hs).
    field. lra.
Qed.

(** C6.  Combining two identical copies of a spectrum gives, at every cell
    where its mean is a nonzero number and its std a positive number, a
    combined mean equal to the mean and a combined std equal to the std
    divided by sqrt 2 (before the final rescale). *)
Theorem two_copies_combine (mean std : arr2) (w : nat) (c : channel) (x y : R) :
  cell mean w c = Some (Fin x) ->
  cell std w c = Some (Fin y) ->
  x <> 0%R ->
  (0 < y)%R ->
  cell (flat_means_mask [mean; mean] [std; std]) w c
    = Some (MFloat (Fin x) false) /\
  cell (flat_errs_mask [mean; mean] [std; std]) w c
    = Some (MFloat (Fin (y / sqrt 2)) false).
Proof.
  intros Hm Hs Hx Hy.
  assert (Hrm : has_row [mean; mean] w).
  { apply (has_row_of_cells _ w c). repeat constructor; by rewrite Hm. }
  assert (Hrs : has_row [std; std] w).
  { apply (has_row_of_cells _ w c). repeat constructor; by rewrite Hs. }
  rewrite cell_flat_means_mask, cell_flat_errs_mask by done.
  rewrite (column_pair mean mean w c _ _ Hm Hm), (column_pair std std w c _ _ Hs Hs).
  set (col := zip [Fin x; Fin x] [Fin y; Fin y]).
  assert (Hvalid : valid_pairs col = [(x, y); (x, y)]).
  { unfold col, valid_pairs. simpl. by rewrite Rzero_false by lra. }
  assert (Hcol : Forall valid_or_missing col).
  { assert (Hp : valid_or_missing (Fin x, Fin y)).
    { left. exists (x, y). simpl. by rewrite Rzero_false by lra. }
    unfold col. simpl. by repeat apply Forall_cons_2. }
  assert (Hw : (0 < weight (x, y))%R).
  { unfold weight. simpl. assert (x / y <> 0)%R; [|nra].
    unfold Rdiv. apply Rmult_integral_contrapositive_currified; [done|].
    apply Rinv_neq_0_compat. lra. }
  assert (Htotal : sumR (weight <$> valid_pairs col) = (2 * weight (x, y))%R).
  { rewrite Hvalid. unfold sumR. simpl. lra. }
  split; f_equal.
  - rewrite flat_mean_cell_eq by done.
    rewrite bool_decide_eq_false_2 by (by rewrite Hvalid).
    rewrite Htotal. rewrite Hvalid. unfold ma_true_divide, sumR. simpl.
    rewrite Rzero_false by lra. simpl. do 2 f_equal. field. lra.
  - rewrite flat_err_cell_eq; [|done|by rewrite Hvalid|rewrite Htotal; lra].
    do 2 f_equal. rewrite Htotal, Hvalid. unfold sumR. simpl.
    rewrite <- sqrt_half_square by done. f_equal. field. lra.
Qed.

Lemma two_copies_combine_witness :
  cell [all4 (Fin 3)] 0 chG = Some (Fin 3) /\
  cell [all4 (Fin 2)] 0 chG = Some (Fin 2) /\
  cell (flat_means_mask [[all4 (Fin 3)]; [all4 (Fin 3)]]
                        [[all4 (Fin 2)]; [all4 (Fin 2)]]) 0 chG
    = Some (MFloat (Fin 3) false) /\
  cell (flat_errs_mask [[all4 (Fin 3)]; [all4 (Fin 3)]]
                       [[all4 (Fin 2)]; [all4 (Fin 2)]]) 0 chG
    = Some (MFloat (Fin (2 / sqrt 2)) false).
Proof.
  split; [done|]. split; [done|].
  apply (two_copies_combine [all4 (Fin 3)] [all4 (Fin 2)] 0 chG 3 2);
    [done | done | lra | lra].
Defined.

(** ** The normaliser on small inputs *)

Lemma fdiv_Fin (x y z : R) :
  y <> 0%R -> (x / y)%R = z -> fdiv (Fin x) (Fin y) = Fin z.
Proof. intros Hy <-. simpl. by rewrite Rzero_false. Qed.

Lemma all_overlaps_twins : all_overlaps twins = [[4; 4]; [4; 4]].
Proof. reflexivity. Qed.

Lemma baseline_of_twins : baseline_of twins = Ok 0.
Proof. reflexivity. Qed.

Lemma normalise_order_of_twins : normalise_order_of twins 0 = [0].
Proof. reflexivity. Qed.

(** C3, at two spectra with data at the same cells.  The overlaps with
    the baseline are all equal, [np.argsort] leaves the indices in their
    order, and [[-2::-1]] drops the last one: the normalise order is the
    baseline itself, and the other spectrum is not in it. *)
Theorem normalise_order_tie :
  all_overlaps twins = [[4; 4]; [4; 4]] /\
  baseline_of twins = Ok 0 /\
  normalise_order_of twins 0 = [0].
Proof. repeat split. Qed.

Lemma normalise_dark :
  normalise min_norm_fit [1; 2]%R dark dark_stds =
    Ok (Normalised dark_normalised dark_stds_normalised [(0, 0)]).
Proof.
  unfold normalise.
  change (baseline_of dark) with (Ok (A := nat) 0). cbn [mbind result_bind].
  change (normalise_order_of dark 0) with [0].
  change (all_overlaps dark) with [[8; 8]; [8; 8]].
  cbn [for_each]. unfold normalise_body.
  rewrite decide_True by (simpl; lia).
  cbn [mbind result_bind all_means_normalised all_stds_normalised printed].
  change (dark !!! 0) with [all4 (Fin 1); Chan4 (Fin 0) (Fin 1) (Fin 1) (Fin 1)].
  change (dark_stds !!! 0) with [all4 (Fin 1); all4 (Fin 1)].
  assert (Hr : zip2d fdiv [all4 (Fin 1); Chan4 (Fin 0) (Fin 1) (Fin 1) (Fin 1)]
                          [all4 (Fin 1); Chan4 (Fin 0) (Fin 1) (Fin 1) (Fin 1)]
               = [all4 (Fin 1); Chan4 NaN (Fin 1) (Fin 1) (Fin 1)]).
  { unfold zip2d, zip4, tab4, all4. cbn -[fdiv].
    rewrite !(fdiv_Fin 1 1 1) by lra. simpl. by rewrite Rzero_true. }
  rewrite Hr.
  change (np_polyfit min_norm_fit _ _ 2)
    with (np_polyfit min_norm_fit [1%R] [all4 (Fin 1)] 2).
  assert (Hfits : np_polyfit min_norm_fit [1%R] [all4 (Fin 1)] 2
                  = Ok [all4 (Fin (1 / 3)); all4 (Fin (1 / 3)); all4 (Fin (1 / 3))]).
  { unfold np_polyfit, min_norm_fit, map4, tab4, all4. cbn -[fdiv Rmult IZR].
    by rewrite (fdiv_Fin 1 (3 * 1 * 1) (1 / 3)), (fdiv_Fin 1 (3 * 1) (1 / 3)),
      (fdiv_Fin 1 3 (1 / 3)) by lra. }
  rewrite Hfits. cbn [mbind result_bind].
  set (e1 := (((0 * 1 + 1 / 3) * 1 + 1 / 3) * 1 + 1 / 3)%R).
  set (e2 := (((0 * 2 + 1 / 3) * 2 + 1 / 3) * 2 + 1 / 3)%R).
  assert (Hnorms :
            (fun w => tab4 (fun c => np_polyval
               (get c <$> [all4 (Fin (1 / 3)); all4 (Fin (1 / 3)); all4 (Fin (1 / 3))]) w))
            <$> [1; 2]%R = [all4 (Fin e1); all4 (Fin e2)]).
  { reflexivity. }
  rewrite Hnorms.
  unfold dark_normalised, dark_stds_normalised.
  change (dark !!! 0) with [all4 (Fin 1); Chan4 (Fin 0) (Fin 1) (Fin 1) (Fin 1)].
  unfold zip2d, zip4, tab4, all4. cbn -[fdiv Rmult Rplus IZR Rdiv e1 e2].
  rewrite !(fdiv_Fin 1 e1 1), !(fdiv_Fin 1 e2 (3 / 7)), !(fdiv_Fin 0 e2 0)
    by (unfold e1, e2; lra).
  done.
Qed.

(** C5, at two spectra with data at the same cells.  The normalise order
    is the baseline itself, and the loop normalises the baseline to
    itself.  The baseline has a reading of 0 in the channel R at the
    second wavelength, so its ratio to itself is 0/0 there and the
    parabola is fitted through the first wavelength only: it is 1 at the
    first wavelength and 7/3 at the second.  The mean and the std of the
    baseline in the channels G, B and G2 at the second wavelength are 1
    after the calibration and 3/7 after the normalisation. *)
Theorem normalise_tie_writes_baseline :
  baseline_of dark = Ok 0 /\
  normalise_order_of dark 0 = [0] /\
  normalise min_norm_fit [1; 2]%R dark dark_stds =
    Ok (Normalised dark_normalised dark_stds_normalised [(0, 0)]) /\
  (forall c, c <> chR ->
     cell (dark !!! 0) 1 c = Some (Fin 1) /\
     cell (dark_normalised !!! 0) 1 c = Some (Fin (3 / 7)) /\
     cell (dark_stds !!! 0) 1 c = Some (Fin 1) /\
     cell (dark_stds_normalised !!! 0) 1 c = Some (Fin (3 / 7))) /\
  Fin (3 / 7) <> Fin 1.
Proof.
  split; [reflexivity|]. split; [reflexivity|]. split; [apply normalise_dark|].
  split; [by intros [] Hc|]. intros [= H]. lra.
Qed.







(** ** Cells without data *)

Lemma valid_pairs_all_missing (col : list (float * float)) :
  Forall (fun p => missing_pair p = true) col -> valid_pairs col = [].
Proof.
  unfold valid_pairs. induction 1 as [|p col Hp _ IH]; [done|].
  cbn [omap list_omap]. by rewrite missing_pair_not_valid.
Qed.

Lemma all_missing_valid_or_missing (col : list (float * float)) :
  Forall (fun p => missing_pair p = true) col -> Forall valid_or_missing col.
Proof. intros H. eapply Forall_impl; [exact H|]. intros p Hp. by right. Qed.

Lemma flat_mean_cell_all_missing (col : list (float * float)) :
  Forall (fun p => missing_pair p = true) col ->
  flat_mean_cell col = MFloat (Fin 0) true.
Proof.
  intros Hcol. rewrite flat_mean_cell_eq by by apply all_missing_valid_or_missing.
  rewrite valid_pairs_all_missing by done.
  unfold ma_true_divide. simpl. rewrite sumR_nil. Reval. done.
Qed.

Lemma flat_err_cell_all_missing (col : list (float * float)) :
  Forall (fun p => missing_pair p = true) col ->
  flat_err_cell col = MFloat (Fin 0) true.
Proof.
  intros Hcol. apply flat_err_cell_zero_total.
  - by apply all_missing_valid_or_missing.
  - by rewrite valid_pairs_all_missing.
Qed.

Lemma ma_max_Ok (a : list mfloat) :
  a <> [] -> exists flat_max, ma_max a = Ok flat_max.
Proof.
  destruct a as [|x a]; [done|]. intros _. unfold ma_max.
  destruct (filter _ _); eauto.
Qed.

(** the combination of a stack with at least one row does not fail *)
Lemma combine_Ok (mn sn : arr3) (w : nat) :
  mn <> [] -> length mn = length sn -> has_row mn w -> has_row sn w ->
  exists flat_max,
    ma_max (cells (flat_means_mask mn sn)) = Ok flat_max /\
    combine mn sn =
      Ok (Combined
            (map2d (fun x => data (ma_true_divide x flat_max))
                   (flat_means_mask mn sn))
            (map2d (fun x => data (ma_true_divide x flat_max))
                   (flat_errs_mask mn sn))).
Proof.
  intros Hne Hlen Hm Hs.
  destruct (ma_max_Ok (cells (flat_means_mask mn sn))) as [flat_max E].
  { pose proof (cell_flat_means_mask mn sn w chR Hne Hlen Hm Hs) as Hc.
    apply cell_elem_of_cells in Hc. intros Hnil. rewrite Hnil in Hc.
    inversion Hc. }
  exists flat_max. split; [done|]. unfold combine. cbv zeta. by rewrite E.
Qed.

(** [.data] of a quotient reads, under the mask, the dividend *)
Lemma masked_divide_data (x flat_max : mfloat) :
  mask x = true -> data (ma_true_divide x flat_max) = data x.
Proof.
  intros Hx. unfold ma_true_divide. cbn [data]. rewrite Hx, orb_true_r. done.
Qed.

Lemma all_missing_cell_combined (mn sn : arr3) (w : nat) (c : channel) :
  mn <> [] -> length mn = length sn -> has_row mn w -> has_row sn w ->
  Forall (fun p => missing_pair p = true) (zip (column mn w c) (column sn w c)) ->
  exists cmb, combine mn sn = Ok cmb /\
    cell (response_normalised cmb) w c = Some (Fin 0) /\
    cell (errors_normalised cmb) w c = Some (Fin 0).
Proof.
  intros Hne Hlen Hm Hs Hcol.
  destruct (combine_Ok mn sn w Hne Hlen Hm Hs) as (flat_max & _ & ->).
  eexists. split; [done|]. cbn [response_normalised errors_normalised].
  rewrite !cell_map2d, cell_flat_means_mask, cell_flat_errs_mask by done.
  rewrite flat_mean_cell_all_missing, flat_err_cell_all_missing by done.
  cbn [fmap option_fmap option_map]. by rewrite !masked_divide_data.
Qed.

(** C8, as the code has it.  At a cell where every spectrum is missing
    (mean or std NaN), the combined mean and std are masked in the masked
    arrays, with the value 0 under the mask; the combination succeeds, and
    after the division by the maximum and [.data] the response and its
    error at that cell are the number 0, not NaN. *)
Theorem all_missing_cell_reads_zero (means_normalised stds_normalised : arr3)
    (w : nat) (c : channel) :
  means_normalised <> [] ->
  length means_normalised = length stds_normalised ->
  has_row means_normalised w ->
  has_row stds_normalised w ->
  Forall (fun p => missing_pair p = true)
    (zip (column means_normalised w c) (column stds_normalised w c)) ->
  cell (flat_means_mask means_normalised stds_normalised) w c
    = Some (MFloat (Fin 0) true) /\
  cell (flat_errs_mask means_normalised stds_normalised) w c
    = Some (MFloat (Fin 0) true) /\
  exists cmb, combine means_normalised stds_normalised = Ok cmb /\
    cell (response_normalised cmb) w c = Some (Fin 0) /\
    cell (errors_normalised cmb) w c = Some (Fin 0).
Proof.
  intros Hne Hlen Hm Hs Hcol.
  split; [|split].
  - rewrite cell_flat_means_mask by done. by rewrite flat_mean_cell_all_missing.
  - rewrite cell_flat_errs_mask by done. by rewrite flat_err_cell_all_missing.
  - by apply all_missing_cell_combined.
Qed.

Lemma all_missing_cell_reads_zero_witness :
  cell (flat_means_mask gap gap) 1 chR = Some (MFloat (Fin 0) true) /\
  cell (flat_errs_mask gap gap) 1 chR = Some (MFloat (Fin 0) true) /\
  exists cmb, combine gap gap = Ok cmb /\
    cell (response_normalised cmb) 1 chR = Some (Fin 0) /\
    cell (errors_normalised cmb) 1 chR = Some (Fin 0).
Proof.
  apply (all_missing_cell_reads_zero gap gap 1 chR).
  - done.
  - done.
  - repeat constructor.
  - repeat constructor.
  - repeat constructor.
Defined.

(** C8 as the specification has it does not hold.  The one spectrum of
    [gap] has no data at the second wavelength, its mean and std are NaN
    there; the response and its error at that wavelength are 0, a number. *)
Lemma all_missing_cell_not_missing :
  column gap 1 chR = [NaN] /\
  exists cmb, combine gap gap = Ok cmb /\
    cell (response_normalised cmb) 1 chR = Some (Fin 0) /\
    cell (errors_normalised cmb) 1 chR = Some (Fin 0) /\
    isnan (Fin 0) = false.
Proof.
  split; [done|].
  destruct (all_missing_cell_combined gap gap 1 chR) as (cmb & E & Hr & He).
  - done.
  - done.
  - repeat constructor.
  - repeat constructor.
  - repeat constructor.
  - exists cmb. by repeat split.
Qed.

(** ** One configuration *)

Lemma rows_ext {A} (a b : list (chan4 A)) :
  length a = length b ->
  (forall w c, w < length a -> cell a w c = cell b w c) ->
  a = b.
Proof.
  intros Hlen Hcell. apply list_eq. intros w.
  destruct (decide (w < length a)) as [Hw|Hw].
  - destruct (lookup_lt_is_Some_2 a w Hw) as [r Hr].
    destruct (lookup_lt_is_Some_2 b w ltac:(lia)) as [s Hs].
    rewrite Hr, Hs. f_equal. apply chan4_ext. intros c.
    specialize (Hcell w c Hw). unfold cell in Hcell. rewrite Hr, Hs in Hcell.
    by injection Hcell.
  - rewrite !lookup_ge_None_2 by lia. done.
Qed.

Lemma column_single {A} (a : list (chan4 A)) w c x :
  cell a w c = Some x -> column [a] w c = [x].
Proof. intros Ha. unfold column. simpl. by rewrite Ha. Qed.

Lemma flat_means_mask_single_length (mean std : arr2) :
  length (flat_means_mask [mean] [std]) = length mean `min` length std.
Proof.
  unfold flat_means_mask, ma_average, weights, zip3d, map3d, axis0. simpl.
  unfold zip2d, map2d.
  rewrite ?length_zip_with, ?length_imap, ?length_zip_with, ?length_fmap,
    ?length_zip_with, ?length_fmap, ?length_zip_with, ?length_fmap.
  lia.
Qed.

Lemma flat_means_mask_single (mean std : arr2) :
  flat_means_mask [mean] [std] =
    zip2d (fun a b => flat_mean_cell [(a, b)]) mean std.
Proof.
  apply rows_ext.
  - rewrite flat_means_mask_single_length. unfold zip2d.
    by rewrite length_zip_with.
  - intros w c. rewrite flat_means_mask_single_length. intros Hw.
    destruct (proj2 (cell_is_Some mean w c) ltac:(lia)) as [a Ha].
    destruct (proj2 (cell_is_Some std w c) ltac:(lia)) as [b Hb].
    rewrite cell_flat_means_mask; [|done|done|repeat constructor; lia..].
    rewrite (column_single _ _ _ _ Ha), (column_single _ _ _ _ Hb).
    rewrite cell_zip2d, Ha, Hb. done.
Qed.

Lemma cell_pair_elem_of {A B} (a : list (chan4 A)) (b : list (chan4 B)) w c x y :
  cell a w c = Some x -> cell b w c = Some y -> (x, y) ∈ zip (cells a) (cells b).
Proof.
  intros Ha Hb.
  change (zip (cells a) (cells b)) with (zip_with pair (cells a) (cells b)).
  rewrite <- (cells_zip2d pair a b).
  apply (cell_elem_of_cells _ w c). by rewrite cell_zip2d, Ha, Hb.
Qed.

(** *** The mean and std of one spectrum at one cell *)

Lemma flat_mean_cell_usable (p : float * float) (x : R) :
  usable_mean p = Some x -> flat_mean_cell [p] = MFloat (Fin x) false.
Proof.
  destruct p as [[| |a] [| |b]]; simpl; try done.
  destruct (Rzero a) eqn:Ea; [done|]. destruct (Rzero b) eqn:Eb; [done|].
  simpl. intros [= <-].
  assert (Ha : a <> 0%R) by (intros ->; by rewrite Rzero_true in Ea).
  assert (Hb : b <> 0%R) by (intros ->; by rewrite Rzero_true in Eb).
  assert (Hw : (a / b * (a / b) <> 0)%R).
  { assert (a / b <> 0)%R; [|nra].
    unfold Rdiv. apply Rmult_integral_contrapositive_currified; [done|].
    by apply Rinv_neq_0_compat. }
  unfold flat_mean_cell, wgt_cell, weight_cell, ma_true_divide, ma_sum,
    np_multiply, ma_multiply, not_mask, ma_power2, ma_array. simpl.
  rewrite Eb. simpl.
  rewrite Rzero_false by lra. simpl. do 2 f_equal. field. lra.
Qed.

Lemma flat_mean_cell_unusable (p : float * float) :
  usable_mean p = None -> mask (flat_mean_cell [p]) = true.
Proof.
  unfold flat_mean_cell, wgt_cell, weight_cell, ma_true_divide, ma_sum,
    np_multiply, ma_multiply, not_mask, ma_power2, ma_array.
  destruct p as [[| |a] [| |b]]; simpl; try (intros _; by rewrite orb_true_r).
  - intros _. rewrite Rzero_true by lra. by destruct (Rzero _).
  - unfold fdiv. destruct (Rzero b) eqn:Eb.
    + intros _. destruct (Rzero a); simpl; by rewrite orb_true_r.
    + rewrite orb_false_r. destruct (Rzero a) eqn:Ea; [|done]. intros _. simpl.
      apply Rzero_spec in Ea. subst a.
      rewrite (Rzero_true (0 + _)) by (unfold Rdiv; ring).
      by destruct (Rzero (0 + _)).
Qed.

Lemma flat_err_cell_usable (x y : R) :
  x <> 0%R -> (0 < y)%R -> flat_err_cell [(Fin x, Fin y)] = MFloat (Fin y) false.
Proof.
  intros Hx Hy.
  assert (Hv : valid_pairs [(Fin x, Fin y)] = [(x, y)]).
  { unfold valid_pairs. simpl. by rewrite Rzero_false by lra. }
  assert (Hw : (0 < weight (x, y))%R).
  { unfold weight. simpl. assert (x / y <> 0)%R; [|nra].
    unfold Rdiv. apply Rmult_integral_contrapositive_currified; [done|].
    apply Rinv_neq_0_compat. lra. }
  rewrite flat_err_cell_eq.
  - rewrite Hv. do 2 f_equal. unfold sumR. simpl.
    apply sqrt_lem_1; [nra | lra | field; lra].
  - apply Forall_cons_2; [|constructor]. left. exists (x, y).
    simpl. by rewrite Rzero_false by lra.
  - by rewrite Hv.
  - rewrite Hv. unfold sumR. simpl. lra.
Qed.

Lemma flat_err_cell_zero_mean (y : R) :
  y <> 0%R -> flat_err_cell [(Fin 0, Fin y)] = MFloat (Fin 0) true.
Proof.
  intros Hy.
  assert (Hv : valid_pairs [(Fin 0, Fin y)] = [(0, y)%R]).
  { unfold valid_pairs. simpl. by rewrite Rzero_false by lra. }
  apply flat_err_cell_zero_total.
  - apply Forall_cons_2; [|constructor]. left. exists (0, y)%R.
    simpl. by rewrite Rzero_false by lra.
  - rewrite Hv. unfold sumR, weight. simpl. unfold Rdiv. ring.
Qed.

(** *** The maximum *)

Lemma foldl_fmax_Fin (x : R) (xs : list R) :
  foldl fmax (Fin x) (Fin <$> xs) = Fin (foldl Rmax x xs).
Proof. revert x. induction xs as [|y xs IH]; intros x; simpl; [done | apply IH]. Qed.

Lemma foldl_Rmax_elem_of (x : R) (xs : list R) : foldl Rmax x xs ∈ x :: xs.
Proof.
  revert x. induction xs as [|y xs IH]; intros x; simpl; [constructor|].
  specialize (IH (Rmax x y)). apply elem_of_cons in IH as [->|IH].
  - unfold Rmax. destruct (Rle_dec x y); [do 2 constructor | constructor].
  - by do 2 constructor.
Qed.

Lemma usable_mean_nonzero (p : float * float) (x : R) :
  usable_mean p = Some x -> x <> 0%R.
Proof.
  destruct p as [[| |a] [| |b]]; simpl; try done.
  destruct (Rzero a) eqn:Ea; [done|]. destruct (Rzero b); [done|].
  simpl. intros [= <-] ->. by rewrite Rzero_true in Ea.
Qed.

Lemma filter_unmasked_usable (f : float * float -> mfloat) (l : list (float * float)) :
  (forall p x, usable_mean p = Some x -> f p = MFloat (Fin x) false) ->
  (forall p, usable_mean p = None -> mask (f p) = true) ->
  filter (fun x => mask x = false) (f <$> l) =
    (fun x => MFloat (Fin x) false) <$> omap usable_mean l.
Proof.
  intros Hu Hn. induction l as [|p l IH]; [done|].
  rewrite fmap_cons. cbn [omap list_omap].
  destruct (usable_mean p) as [x|] eqn:E.
  - rewrite (Hu p x E). rewrite filter_cons_True by done.
    rewrite fmap_cons. by f_equal.
  - rewrite filter_cons_False; [done|]. rewrite (Hn p E). done.
Qed.

(** the maximum of the combined mean of one spectrum is the maximum of
    its mean over the usable cells *)
Lemma ma_max_single (mean std : arr2) (peak : R) :
  peak_of mean std = Some peak ->
  ma_max (cells (flat_means_mask [mean] [std])) = Ok (MFloat (Fin peak) false).
Proof.
  unfold peak_of. intros Hpeak.
  rewrite flat_means_mask_single, cells_zip2d, zip_with_zip.
  rewrite (list_fmap_ext _ (fun p => flat_mean_cell [p]) (zip (cells mean) (cells std)))
    by (by intros i [a b] _).
  unfold ma_max.
  rewrite (filter_unmasked_usable (fun p => flat_mean_cell [p]))
    by (apply flat_mean_cell_usable || apply flat_mean_cell_unusable).
  destruct (zip (cells mean) (cells std)) as [|p l]; [done|].
  rewrite fmap_cons.
  destruct (omap usable_mean (p :: l)) as [|x xs]; [done|].
  injection Hpeak as <-. rewrite fmap_cons. cbn [data].
  rewrite <- list_fmap_compose.
  rewrite (list_fmap_ext _ Fin xs) by done.
  by rewrite foldl_fmax_Fin.
Qed.

Lemma peak_of_usable (mean std : arr2) w c (x y : R) :
  cell mean w c = Some (Fin x) -> cell std w c = Some (Fin y) ->
  x <> 0%R -> y <> 0%R ->
  exists peak, peak_of mean std = Some peak /\ peak <> 0%R.
Proof.
  intros Hm Hs Hx Hy. unfold peak_of.
  pose proof (cell_pair_elem_of _ _ _ _ _ _ Hm Hs) as Hin.
  assert (Hu : x ∈ omap usable_mean (zip (cells mean) (cells std))).
  { apply list_elem_of_omap. exists (Fin x, Fin y). split; [done|].
    simpl. by rewrite !Rzero_false. }
  destruct (omap usable_mean _) as [|z zs] eqn:E; [inversion Hu|].
  eexists. split; [done|].
  pose proof (foldl_Rmax_elem_of z zs) as Hmax. rewrite <- E in Hmax.
  apply list_elem_of_omap in Hmax as (p & _ & Hp).
  by eapply usable_mean_nonzero.
Qed.

Lemma normalise_single lstsq (grid : list R) (mean std : arr2) :
  normalise lstsq grid [mean] [std] = Ok (Normalised [mean] [std] []).
Proof. reflexivity. Qed.

(** the response and its error of one spectrum at a cell with a nonzero
    mean and a positive std *)
Lemma combine_single_cell (mean std : arr2) w c (x y : R) :
  cell mean w c = Some (Fin x) -> cell std w c = Some (Fin y) ->
  x <> 0%R -> (0 < y)%R ->
  exists peak cmb,
    peak_of mean std = Some peak /\ peak <> 0%R /\
    combine [mean] [std] = Ok cmb /\
    cell (response_normalised cmb) w c = Some (Fin (x / peak)) /\
    cell (errors_normalised cmb) w c = Some (Fin (y / peak)).
Proof.
  intros Hm Hs Hx Hy.
  destruct (peak_of_usable mean std w c x y) as (peak & Hpeak & Hnz);
    [done | done | done | lra |].
  assert (Hrm : has_row [mean] w).
  { apply (has_row_of_cells _ w c). repeat constructor. by rewrite Hm. }
  assert (Hrs : has_row [std] w).
  { apply (has_row_of_cells _ w c). repeat constructor. by rewrite Hs. }
  destruct (combine_Ok [mean] [std] w) as (flat_max & Hmax & ->); [done..|].
  rewrite (ma_max_single _ _ _ Hpeak) in Hmax. injection Hmax as <-.
  exists peak. eexists. split; [done|]. split; [done|]. split; [done|].
  cbn [response_normalised errors_normalised].
  rewrite !cell_map2d, cell_flat_means_mask, cell_flat_errs_mask by done.
  rewrite (column_single _ _ _ _ Hm), (column_single _ _ _ _ Hs).
  cbn [zip zip_with fmap option_fmap option_map].
  rewrite (flat_mean_cell_usable (Fin x, Fin y) x)
    by (simpl; by rewrite !Rzero_false by lra).
  rewrite flat_err_cell_usable by done.
  unfold ma_true_divide. simpl. rewrite Rzero_false by done. done.
Qed.

(** C10, as the code has it.  With one configuration the normalise order
    is empty, the loop does not run and no fit is made, whatever the
    solver: the normalised arrays are the calibrated ones.  At every cell
    where the mean is a number other than 0 and the std a positive number,
    the response is the mean and its error the std, both divided by the
    maximum of the mean over the cells whose mean and std are numbers
    other than 0. *)
Theorem single_configuration
    (lstsq : list R -> list (chan4 float) -> nat -> option (list (chan4 float)))
    (grid : list R) (mean std : arr2) (w : nat) (c : channel) (x y : R) :
  cell mean w c = Some (Fin x) ->
  cell std w c = Some (Fin y) ->
  x <> 0%R ->
  (0 < y)%R ->
  normalise_order_of [mean] 0 = [] /\
  normalise lstsq grid [mean] [std] = Ok (Normalised [mean] [std] []) /\
  exists peak cmb,
    peak_of mean std = Some peak /\ peak <> 0%R /\
    combine [mean] [std] = Ok cmb /\
    cell (response_normalised cmb) w c = Some (Fin (x / peak)) /\
    cell (errors_normalised cmb) w c = Some (Fin (y / peak)).
Proof.
  intros Hm Hs Hx Hy.
  split; [reflexivity|]. split; [apply normalise_single|].
  by apply combine_single_cell.
Qed.

Lemma single_configuration_witness :
  normalise_order_of [lone_mean] 0 = [] /\
  normalise constant_fit [1%R; 2%R] [lone_mean] [lone_std]
    = Ok (Normalised [lone_mean] [lone_std] []) /\
  exists peak cmb,
    peak_of lone_mean lone_std = Some peak /\ peak <> 0%R /\
    combine [lone_mean] [lone_std] = Ok cmb /\
    cell (response_normalised cmb) 0 chR = Some (Fin (2 / peak)) /\
    cell (errors_normalised cmb) 0 chR = Some (Fin (1 / peak)).
Proof.
  apply (single_configuration constant_fit [1%R; 2%R] lone_mean lone_std 0 chR 2 1).
  - reflexivity.
  - reflexivity.
  - lra.
  - lra.
Defined.

Lemma peak_of_lone : peak_of lone_mean lone_std = Some 2%R.
Proof.
  unfold peak_of, lone_mean, lone_std, cells. simpl.
  rewrite (Rzero_false 2), (Rzero_false 1), (Rzero_true 0) by lra. simpl.
  by rewrite !(Rmax_left 2 2) by lra.
Qed.

(** C10 as the specification has it does not hold.  The one spectrum of
    this input has mean 2 and std 1 at the first wavelength, mean 0 and
    std 1 at the second; its maximum is 2.  The error of the response is
    1/2 at the first wavelength, and 0 at the second. *)
Lemma single_configuration_zero_mean :
  cell lone_mean 1 chR = Some (Fin 0) /\
  cell lone_std 1 chR = Some (Fin 1) /\
  peak_of lone_mean lone_std = Some 2%R /\
  exists cmb, combine [lone_mean] [lone_std] = Ok cmb /\
    cell (errors_normalised cmb) 0 chR = Some (Fin (1 / 2)) /\
    cell (errors_normalised cmb) 1 chR = Some (Fin 0).
Proof.
  split; [done|]. split; [done|]. split; [apply peak_of_lone|].
  destruct (combine_Ok [lone_mean] [lone_std] 0) as (flat_max & Hmax & E);
    [done | done | repeat constructor.. |].
  rewrite (ma_max_single _ _ _ peak_of_lone) in Hmax. injection Hmax as <-.
  eexists. split; [exact E|]. cbn [errors_normalised].
  rewrite !cell_map2d.
  rewrite (cell_flat_errs_mask [lone_mean] [lone_std] 0 chR);
    [|done|done|repeat constructor..].
  rewrite (cell_flat_errs_mask [lone_mean] [lone_std] 1 chR);
    [|done|done|repeat constructor..].
  change (zip (column [lone_mean] 0 chR) (column [lone_std] 0 chR))
    with [(Fin 2, Fin 1)].
  change (zip (column [lone_mean] 1 chR) (column [lone_std] 1 chR))
    with [(Fin 0, Fin 1)].
  rewrite flat_err_cell_usable, flat_err_cell_zero_mean by lra.
  cbn [fmap option_fmap option_map]. split.
  - unfold ma_true_divide. simpl. by rewrite Rzero_false by lra.
  - by rewrite masked_divide_data.
Qed.

(** ** The wavelength grid *)

Lemma elem_of_insert_unique (v x : R) (l : list R) :
  x ∈ insert_unique v l <-> x = v \/ x ∈ l.
Proof.
  induction l as [|y l IH]; simpl.
  - rewrite list_elem_of_singleton, elem_of_nil. tauto.
  - destruct (Rlt_dec v y) as [Hlt|Hge].
    + rewrite (elem_of_cons (y :: l)). tauto.
    + destruct (Req_dec_T v y) as [->|Hne].
      * rewrite elem_of_cons. tauto.
      * rewrite !elem_of_cons, IH. tauto.
Qed.

Lemma insert_unique_sorted (v : R) (l : list R) :
  StronglySorted Rlt l -> StronglySorted Rlt (insert_unique v l).
Proof.
  induction 1 as [|y l Hl IH Hy]; simpl.
  - by repeat constructor.
  - destruct (Rlt_dec v y) as [Hlt|Hge].
    + apply SSorted_cons; [by constructor|].
      constructor; [done|].
      eapply Forall_impl; [exact Hy|]. intros z Hz. simpl in *. lra.
    + destruct (Req_dec_T v y) as [->|Hne]; [by constructor|].
      apply SSorted_cons; [done|].
      apply Forall_forall. intros z [->|Hz]%elem_of_insert_unique.
      * lra.
      * by eapply Forall_forall in Hy.
Qed.

Lemma np_unique_sorted (l : list R) : StronglySorted Rlt (np_unique l).
Proof.
  unfold np_unique. induction l as [|v l IH]; simpl; [constructor|].
  by apply insert_unique_sorted.
Qed.

Lemma elem_of_np_unique (x : R) (l : list R) : x ∈ np_unique l <-> x ∈ l.
Proof.
  unfold np_unique. induction l as [|v l IH]; simpl; [done|].
  rewrite elem_of_insert_unique, elem_of_cons, IH. done.
Qed.

Lemma elem_of_concat {A} (x : A) (ls : list (list A)) :
  x ∈ concat ls <-> exists l, l ∈ ls /\ x ∈ l.
Proof.
  induction ls as [|k ls IH]; simpl.
  - split; [by intros ?%elem_of_nil | by intros (l & ?%elem_of_nil & _)].
  - rewrite elem_of_app, IH. split.
    + intros [Hx|(l & Hl & Hx)].
      * exists k. split; [constructor | done].
      * exists l. split; [by constructor | done].
    + intros (l & [->|Hl]%elem_of_cons & Hx); [by left|].
      right. by exists l.
Qed.

(** on a strictly increasing array [np.searchsorted] finds the index of
    a value that is in it *)
Lemma np_searchsorted_lookup (a : list R) (g : nat) (v : R) :
  StronglySorted Rlt a -> a !! g = Some v -> np_searchsorted a v = g.
Proof.
  intros Ha. revert g. induction Ha as [|x a Ha IH Hx]; intros g; [done|].
  destruct g as [|g]; simpl.
  - intros [= ->]. destruct (Rlt_dec v v); [lra | done].
  - intros Hg. assert (x < v)%R.
    { eapply Forall_forall in Hx; [exact Hx|]. by eapply list_elem_of_lookup_2. }
    destruct (Rlt_dec x v); [|done]. f_equal. by apply IH.
Qed.

Lemma np_searchsorted_elem_of (a : list R) (v : R) :
  StronglySorted Rlt a -> v ∈ a -> a !! np_searchsorted a v = Some v.
Proof.
  intros Ha [g Hg]%list_elem_of_lookup_1.
  by rewrite (np_searchsorted_lookup a g v Ha Hg).
Qed.

Lemma np_searchsorted_NoDup (a wvl : list R) :
  StronglySorted Rlt a -> (forall v, v ∈ wvl -> v ∈ a) -> NoDup wvl ->
  NoDup (np_searchsorted a <$> wvl).
Proof.
  intros Ha Hsub. apply NoDup_fmap_2_strong. intros x y Hx Hy Heq.
  pose proof (np_searchsorted_elem_of a x Ha (Hsub x Hx)) as E1.
  pose proof (np_searchsorted_elem_of a y Ha (Hsub y Hy)) as E2.
  rewrite Heq in E1. congruence.
Qed.

(** ** Writing the measurements on the grid *)

Lemma align_body_eq (grid : list R) i (x : list R * arr2 * arr2) (st : arr3 * arr3) :
  align_body grid i x st =
    m ← (fun (x : list R * arr2 * arr2) acc =>
           setitem_fancy acc (np_searchsorted grid <$> x.1.1) x.1.2) x (st.1 !!! i);
    s ← (fun (x : list R * arr2 * arr2) acc =>
           setitem_fancy acc (np_searchsorted grid <$> x.1.1) x.2) x (st.2 !!! i);
    Ok (<[i:=m]> st.1, <[i:=s]> st.2).
Proof. by destruct x as [[wvl mean] std]. Qed.

Lemma setitem_fancy_same_length {A} (acc : list A) indices vals :
  length vals = length indices ->
  setitem_fancy acc indices vals = setitems acc (zip indices vals).
Proof.
  intros Hlen. unfold setitem_fancy. rewrite <- Hlen, broadcast_rows_same. done.
Qed.

(** the rows written for one spectrum: row [g] of the result holds the
    measurement made at the wavelength with index [g] on the grid, and is
    NaN when there is none *)
Lemma setitems_on_grid (grid wvl : list R) (vals acc acc' : arr2) :
  StronglySorted Rlt grid -> (forall v, v ∈ wvl -> v ∈ grid) -> NoDup wvl ->
  length vals = length wvl ->
  setitem_fancy acc (np_searchsorted grid <$> wvl) vals = Ok acc' ->
  length acc' = length acc /\
  (forall k v, wvl !! k = Some v ->
     exists g, grid !! g = Some v /\ acc' !! g = vals !! k) /\
  (forall g v, grid !! g = Some v -> v ∉ wvl -> acc' !! g = acc !! g).
Proof.
  intros Hgrid Hsub Hnd Hlen.
  rewrite setitem_fancy_same_length by by rewrite length_fmap.
  intros Hrun. split; [by eapply setitems_length|]. split.
  - intros k v Hk. exists (np_searchsorted grid v).
    assert (Hv : v ∈ wvl) by by eapply list_elem_of_lookup_2.
    split; [by apply np_searchsorted_elem_of; auto|].
    destruct (lookup_lt_is_Some_2 vals k) as [r Hr].
    { rewrite Hlen. by eapply lookup_lt_Some. }
    rewrite Hr. eapply setitems_written; [exact Hrun | |].
    + rewrite fst_zip by (rewrite length_fmap; lia).
      by apply np_searchsorted_NoDup.
    + apply (list_elem_of_lookup_2 _ k). apply lookup_zip_with_Some.
      exists (np_searchsorted grid v), r. split; [done|]. split; [|done].
      by rewrite list_lookup_fmap, Hk.
  - intros g v Hg Hv. eapply setitems_other; [exact Hrun|].
    rewrite fst_zip by (rewrite length_fmap; lia).
    intros (u & -> & Hu)%list_elem_of_fmap. apply Hv.
    rewrite (np_searchsorted_elem_of grid u Hgrid (Hsub u Hu)) in Hg.
    by injection Hg as <-.
Qed.

Lemma setitems_on_grid_Ok (grid wvl : list R) (vals acc : arr2) :
  StronglySorted Rlt grid -> (forall v, v ∈ wvl -> v ∈ grid) ->
  length vals = length wvl -> length acc = length grid ->
  raised (setitem_fancy acc (np_searchsorted grid <$> wvl) vals) = false.
Proof.
  intros Hgrid Hsub Hlen Hacc.
  rewrite setitem_fancy_same_length by by rewrite length_fmap.
  apply setitems_Ok. apply Forall_forall. intros [g r] Hin. simpl.
  apply list_elem_of_lookup_1 in Hin as [k Hk].
  apply lookup_zip_with_Some in Hk as (g' & r' & [= -> ->] & Hg & _).
  rewrite list_lookup_fmap in Hg.
  destruct (wvl !! k) as [v|] eqn:Ev; simpl in Hg; [|done]. injection Hg as <-.
  rewrite Hacc. eapply lookup_lt_Some. apply np_searchsorted_elem_of; [done|].
  apply Hsub. by eapply list_elem_of_lookup_2.
Qed.

Lemma full_nan_lookup (n L i : nat) :
  i < n -> full_nan n L !!! i = replicate L nan_row.
Proof.
  intros Hi. apply list_lookup_total_correct. by apply lookup_replicate_2.
Qed.

(** C2.  For one or more spectra, each with as many rows of mean and std
    as it has wavelengths and without a repeated wavelength, the aligner
    returns a grid that is strictly increasing and holds exactly the
    wavelengths of the inputs; on that grid, spectrum [i] has at the index
    of each of its wavelengths the row measured there, and a row of NaN at
    the index of every wavelength it did not measure. *)
Theorem align_places_measurements
    (wavelengths : list (list R)) (means stds : list arr2) :
  wavelengths <> [] ->
  length means = length wavelengths ->
  length stds = length wavelengths ->
  Forall (fun x : list R * arr2 * arr2 =>
            NoDup x.1.1 /\ length x.1.2 = length x.1.1 /\ length x.2 = length x.1.1)
         (zip (zip wavelengths means) stds) ->
  exists sp, align wavelengths means stds = Ok sp /\
    StronglySorted Rlt (all_wavelengths sp) /\
    (forall v, v ∈ all_wavelengths sp <-> exists wvl, wvl ∈ wavelengths /\ v ∈ wvl) /\
    forall i wvl mean std,
      wavelengths !! i = Some wvl -> means !! i = Some mean -> stds !! i = Some std ->
      exists all_mean all_std,
        all_means sp !! i = Some all_mean /\
        all_stds sp !! i = Some all_std /\
        length all_mean = length (all_wavelengths sp) /\
        length all_std = length (all_wavelengths sp) /\
        (forall k v, wvl !! k = Some v ->
           exists g, all_wavelengths sp !! g = Some v /\
             all_mean !! g = mean !! k /\ all_std !! g = std !! k) /\
        (forall g v, all_wavelengths sp !! g = Some v -> v ∉ wvl ->
           all_mean !! g = Some nan_row /\ all_std !! g = Some nan_row).
Proof.
  intros Hne Hlm Hls Hwf. unfold align.
  destruct wavelengths as [|wvl0 rest] eqn:Ew; [done|]. rewrite <- Ew in *.
  assert (Hcat : np_concatenate wavelengths = Ok (concat wavelengths)) by by rewrite Ew.
  rewrite Hcat. cbn [mbind result_bind]. cbv zeta.
  set (grid := np_unique (concat wavelengths)).
  set (n := length wavelengths). set (L := length grid).
  set (xs := zip (zip wavelengths means) stds).
  assert (Hgrid : StronglySorted Rlt grid) by apply np_unique_sorted.
  assert (Hunion : forall v, v ∈ grid <-> exists wvl, wvl ∈ wavelengths /\ v ∈ wvl).
  { intros v. unfold grid. by rewrite elem_of_np_unique, elem_of_concat. }
  assert (Hxs_len : length xs = n).
  { unfold xs. rewrite !length_zip_with. lia. }
  assert (Hxs : forall i x, xs !! i = Some x ->
            wavelengths !! i = Some x.1.1 /\ means !! i = Some x.1.2 /\
            stds !! i = Some x.2).
  { intros i x Hx. unfold xs in Hx.
    apply lookup_zip_with_Some in Hx as (p & std & -> & Hp & Hstd).
    apply lookup_zip_with_Some in Hp as (wvl & mean & -> & Hwvl & Hmean). done. }
  assert (Hsub : forall i x, xs !! i = Some x -> forall v, v ∈ x.1.1 -> v ∈ grid).
  { intros i x Hx v Hv. apply Hunion. exists x.1.1. split; [|done].
    apply (list_elem_of_lookup_2 _ i). by apply Hxs. }
  set (F := fun (x : list R * arr2 * arr2) (acc : arr2) =>
              setitem_fancy acc (np_searchsorted grid <$> x.1.1) x.1.2).
  set (G := fun (x : list R * arr2 * arr2) (acc : arr2) =>
              setitem_fancy acc (np_searchsorted grid <$> x.1.1) x.2).
  destruct (raised_false (for_enumerate (align_body grid) 0 xs (full_nan n L, full_nan n L)))
    as [st Hrun].
  { apply (for_enumerate_rows_Ok F G); [apply align_body_eq|].
    intros i x Hx. simpl.
    assert (Hi : i < n) by (rewrite <- Hxs_len; by eapply lookup_lt_Some).
    rewrite full_nan_lookup by done.
    eapply Forall_lookup in Hwf as (_ & Hm & Hs); [|exact Hx].
    split; apply setitems_on_grid_Ok; try done.
    all: try by eapply Hsub.
    all: by rewrite length_replicate. }
  rewrite Hrun. cbn [mbind result_bind]. eexists. split; [done|].
  cbn [all_wavelengths all_means all_stds].
  split; [done|]. split; [done|].
  intros i wvl mean std Hwvl Hmean Hstd.
  assert (Hx : xs !! i = Some (wvl, mean, std)).
  { unfold xs. apply lookup_zip_with_Some. exists (wvl, mean), std.
    split; [done|]. split; [|done]. apply lookup_zip_with_Some. by exists wvl, mean. }
  assert (Hi : i < n) by by eapply lookup_lt_Some.
  destruct (for_enumerate_rows F G (align_body grid) (align_body_eq grid)
              xs 0 (full_nan n L, full_nan n L) st Hrun)
    as (_ & _ & _ & Hrows).
  { simpl. unfold full_nan. rewrite length_replicate. lia. }
  { simpl. unfold full_nan. rewrite length_replicate. lia. }
  destruct (Hrows i _ Hx) as (m & s & EF & EG & Em & Es).
  simpl in EF, EG, Em, Es. rewrite full_nan_lookup in EF, EG by done.
  eapply Forall_lookup in Hwf as (Hnd & Hm & Hs); [|exact Hx]. simpl in Hnd, Hm, Hs.
  unfold F in EF. unfold G in EG. simpl in EF, EG.
  apply (setitems_on_grid grid wvl mean) in EF as (Hml & Hmw & Hmo);
    [|done | by apply (Hsub i _ Hx) | done | done].
  apply (setitems_on_grid grid wvl std) in EG as (Hsl & Hsw & Hso);
    [|done | by apply (Hsub i _ Hx) | done | done].
  rewrite length_replicate in Hml, Hsl.
  exists m, s. split; [done|]. split; [done|]. split; [done|]. split; [done|].
  split.
  - intros k v Hk.
    destruct (Hmw k v Hk) as (g & Hg & Emg).
    destruct (Hsw k v Hk) as (g' & Hg' & Esg).
    assert (g' = g) as ->.
    { rewrite <- (np_searchsorted_lookup grid g v Hgrid Hg).
      by rewrite <- (np_searchsorted_lookup grid g' v Hgrid Hg'). }
    by exists g.
  - intros g v Hg Hv.
    rewrite (Hmo g v Hg Hv), (Hso g v Hg Hv).
    rewrite lookup_replicate_2; [done|]. by eapply lookup_lt_Some.
Qed.

Lemma align_places_measurements_witness :
  exists sp, align pair_wavelengths pair_means pair_stds = Ok sp /\
    StronglySorted Rlt (all_wavelengths sp) /\
    (forall v, v ∈ all_wavelengths sp <->
               exists wvl, wvl ∈ pair_wavelengths /\ v ∈ wvl) /\
    forall i wvl mean std,
      pair_wavelengths !! i = Some wvl -> pair_means !! i = Some mean ->
      pair_stds !! i = Some std ->
      exists all_mean all_std,
        all_means sp !! i = Some all_mean /\
        all_stds sp !! i = Some all_std /\
        length all_mean = length (all_wavelengths sp) /\
        length all_std = length (all_wavelengths sp) /\
        (forall k v, wvl !! k = Some v ->
           exists g, all_wavelengths sp !! g = Some v /\
             all_mean !! g = mean !! k /\ all_std !! g = std !! k) /\
        (forall g v, all_wavelengths sp !! g = Some v -> v ∉ wvl ->
           all_mean !! g = Some nan_row /\ all_std !! g = Some nan_row).
Proof.
  apply (align_places_measurements pair_wavelengths pair_means pair_stds).
  - done.
  - reflexivity.
  - reflexivity.
  - assert (H12 : NoDup [1%R; 2%R]).
    { apply NoDup_cons. split; [|apply NoDup_singleton].
      intros H%list_elem_of_singleton. lra. }
    assert (H23 : NoDup [2%R; 3%R]).
    { apply NoDup_cons. split; [|apply NoDup_singleton].
      intros H%list_elem_of_singleton. lra. }
    repeat apply Forall_cons_2; [done | done | constructor].
Defined.

(** ** The normalise order when the baseline has no equal *)

Lemma StronglySorted_reverse {A} (rel : relation A) (l : list A) :
  StronglySorted rel l -> StronglySorted (flip rel) (reverse l).
Proof.
  induction 1 as [|x l Hl IH Hx]; [constructor|].
  rewrite reverse_cons. apply StronglySorted_app_2; [|done|repeat constructor].
  intros x1 x2 Hx1 ->%list_elem_of_singleton.
  rewrite elem_of_reverse in Hx1.
  unfold flip. eapply Forall_forall in Hx; [exact Hx | done].
Qed.

(** when every other spectrum overlaps the baseline in fewer cells than
    the baseline has, [np.argsort] puts the baseline last *)
Lemma np_argsort_baseline_last (cal : arr3) (baseline : nat) :
  baseline < length cal ->
  (forall j, j < length cal -> j <> baseline ->
     overlap (cal !!! j) (cal !!! baseline)
       < overlap (cal !!! baseline) (cal !!! baseline)) ->
  exists init,
    np_argsort (all_overlaps cal !!! baseline) = init ++ [baseline] /\
    (baseline ∉ init) /\
    normalise_order_of cal baseline = reverse init.
Proof.
  intros Hb Hmax.
  assert (Hlen := all_overlaps_row_length cal baseline Hb).
  destruct (np_argsort_strict_max (all_overlaps cal !!! baseline) baseline)
    as (init & E & Hnotin).
  { by rewrite Hlen. }
  { rewrite Hlen. intros j Hj Hne. rewrite !all_overlaps_lookup by done.
    by apply Hmax. }
  exists init. split; [done|]. split; [done|].
  unfold normalise_order_of. by rewrite E, slice_from_m2_reversed_snoc.
Qed.

Lemma for_each_inv_elem_of {X St} (body : X -> St -> result St) (Inv : St -> Prop)
    (xs : list X) (st st' : St) :
  (forall x s s', x ∈ xs -> Inv s -> body x s = Ok s' -> Inv s') ->
  Inv st -> for_each body xs st = Ok st' -> Inv st'.
Proof.
  revert st. induction xs as [|x xs IH]; intros st Hbody Hst; simpl.
  - by intros [= <-].
  - destruct (body x st) as [s|e] eqn:E; simpl; [|done].
    apply IH.
    + intros y s0 s1 Hy. apply Hbody. by constructor.
    + eapply Hbody; [constructor | done | done].
Qed.

Lemma normalise_body_other lstsq (grid : list R) (cal_m cal_s : arr3)
    overlaps baseline i k st st' :
  i <> k ->
  normalise_body lstsq grid cal_m cal_s overlaps baseline i st = Ok st' ->
  all_means_normalised st' !! k = all_means_normalised st !! k /\
  all_stds_normalised st' !! k = all_stds_normalised st !! k.
Proof.
  intros Hne. unfold normalise_body.
  destruct (if decide _ then _ else _) as [comparison|]; simpl; [|done].
  destruct (np_polyfit _ _ _ _) as [fits|]; simpl; [|done].
  intros [= <-]. simpl. by rewrite !list_lookup_insert_ne.
Qed.

Lemma all_overlaps_stairs : all_overlaps stairs = [[8; 4]; [4; 4]].
Proof. reflexivity. Qed.

Lemma normalise_stairs :
  normalise constant_fit [1%R; 2%R] stairs stairs =
    Ok (Normalised stairs_normalised stairs_normalised [(1, 0)]).
Proof.
  unfold normalise.
  change (baseline_of stairs) with (Ok (A := nat) 0). cbn [mbind result_bind].
  change (normalise_order_of stairs 0) with [1].
  cbn [for_each]. unfold normalise_body. rewrite all_overlaps_stairs.
  rewrite decide_True by (simpl; lia).
  cbn [mbind result_bind all_means_normalised all_stds_normalised printed].
  change (stairs !!! 1) with [nan_row; all4 (Fin 2)].
  change (stairs !!! 0) with [all4 (Fin 1); all4 (Fin 1)].
  assert (Hr : zip2d fdiv [nan_row; all4 (Fin 2)] [all4 (Fin 1); all4 (Fin 1)]
               = [nan_row; all4 (Fin 2)]).
  { unfold zip2d, zip4, tab4, all4, nan_row. cbn -[fdiv].
    rewrite !(fdiv_Fin 2 1 2) by lra. done. }
  rewrite Hr.
  change (np_polyfit constant_fit _ _ 2) with
    (Ok (A := list (chan4 float)) [all4 (Fin 0); all4 (Fin 0); all4 (Fin 2)]).
  cbn [mbind result_bind].
  unfold stairs_normalised, stairs. cbn -[fdiv Rmult Rplus].
  unfold zip2d, zip4, tab4, all4, nan_row. cbn -[fdiv Rmult Rplus IZR].
  rewrite !(fdiv_Fin 2 _ 1) by lra. done.
Qed.

(** When every other spectrum overlaps the baseline in fewer cells than
    the baseline has data, the normalise order holds every spectrum other
    than the baseline exactly once, by descending overlap with the
    baseline. *)
Theorem normalise_order_without_tie (all_means_calibrated : arr3) (baseline : nat) :
  baseline < length all_means_calibrated ->
  (forall j, j < length all_means_calibrated -> j <> baseline ->
     overlap (all_means_calibrated !!! j) (all_means_calibrated !!! baseline)
       < overlap (all_means_calibrated !!! baseline)
                 (all_means_calibrated !!! baseline)) ->
  NoDup (normalise_order_of all_means_calibrated baseline) /\
  (forall i, i ∈ normalise_order_of all_means_calibrated baseline <->
             i < length all_means_calibrated /\ i <> baseline) /\
  StronglySorted
    (fun a b => (all_overlaps all_means_calibrated !!! baseline) !!! b
                <= (all_overlaps all_means_calibrated !!! baseline) !!! a)
    (normalise_order_of all_means_calibrated baseline).
Proof.
  intros Hb Hmax.
  destruct (np_argsort_baseline_last _ _ Hb Hmax) as (init & E & Hnotin & ->).
  assert (Hlen := all_overlaps_row_length _ baseline Hb).
  pose proof (np_argsort_NoDup (all_overlaps all_means_calibrated !!! baseline)) as Hnd.
  pose proof (np_argsort_sorted (all_overlaps all_means_calibrated !!! baseline)) as Hs.
  rewrite E in Hnd, Hs.
  split; [|split].
  - rewrite reverse_Permutation. by apply NoDup_app in Hnd as (Hnd & _ & _).
  - intros i. rewrite elem_of_reverse.
    pose proof (elem_of_np_argsort (all_overlaps all_means_calibrated !!! baseline) i)
      as Hi.
    rewrite E, Hlen, elem_of_app, list_elem_of_singleton in Hi. split.
    + intros Hin. split; [apply Hi; by left|]. by intros ->.
    + intros [Hlt Hne]. apply Hi in Hlt as [Hin| ->]; done.
  - apply StronglySorted_app_1_l in Hs.
    by apply StronglySorted_reverse in Hs.
Qed.

Lemma normalise_order_without_tie_witness :
  NoDup (normalise_order_of stairs 0) /\
  (forall i, i ∈ normalise_order_of stairs 0 <-> i < length stairs /\ i <> 0) /\
  StronglySorted
    (fun a b => (all_overlaps stairs !!! 0) !!! b <= (all_overlaps stairs !!! 0) !!! a)
    (normalise_order_of stairs 0).
Proof.
  apply (normalise_order_without_tie stairs 0).
  - simpl. lia.
  - intros [|[|j]] Hj Hne; [done | | simpl in Hj; lia].
    change (4 < 8). lia.
Defined.

(** When every other spectrum overlaps the baseline in fewer cells than
    the baseline has data, a normalisation that completes leaves the mean
    and the std of the baseline as they were calibrated. *)
Theorem baseline_copied_without_tie
    (lstsq : list R -> list (chan4 float) -> nat -> option (list (chan4 float)))
    (grid : list R) (all_means_calibrated all_stds_calibrated : arr3)
    (baseline : nat) (st : normalised) :
  baseline_of all_means_calibrated = Ok baseline ->
  (forall j, j < length all_means_calibrated -> j <> baseline ->
     overlap (all_means_calibrated !!! j) (all_means_calibrated !!! baseline)
       < overlap (all_means_calibrated !!! baseline)
                 (all_means_calibrated !!! baseline)) ->
  normalise lstsq grid all_means_calibrated all_stds_calibrated = Ok st ->
  all_means_normalised st !! baseline = all_means_calibrated !! baseline /\
  all_stds_normalised st !! baseline = all_stds_calibrated !! baseline.
Proof.
  intros Hbl Hmax. unfold normalise. rewrite Hbl. cbn [mbind result_bind].
  apply baseline_of_spec in Hbl as [Hb _].
  destruct (np_argsort_baseline_last _ _ Hb Hmax) as (init & _ & Hnotin & ->).
  apply (for_each_inv_elem_of _
    (fun s => all_means_normalised s !! baseline = all_means_calibrated !! baseline /\
              all_stds_normalised s !! baseline = all_stds_calibrated !! baseline));
    [|done].
  intros i s s' Hi [Hm Hs] Hrun. rewrite elem_of_reverse in Hi.
  apply (normalise_body_other _ _ _ _ _ _ _ baseline) in Hrun as [-> ->]; [done|].
  by intros ->.
Qed.

Lemma baseline_copied_without_tie_witness :
  all_means_normalised (Normalised stairs_normalised stairs_normalised [(1, 0)]) !! 0
    = stairs !! 0 /\
  all_stds_normalised (Normalised stairs_normalised stairs_normalised [(1, 0)]) !! 0
    = stairs !! 0.
Proof.
  apply (baseline_copied_without_tie constant_fit [1%R; 2%R] stairs stairs 0).
  - reflexivity.
  - intros [|[|j]] Hj Hne; [done | | simpl in Hj; lia].
    change (4 < 8). lia.
  - apply normalise_stairs.
Defined.

(** ** The overlap matrix, the baseline and the order in general *)

(** The overlap of two spectra does not depend on their order, and it is
    at most the number of cells with data of either. *)
Theorem overlap_symmetric_bounded (spectrum_a spectrum_b : arr2) :
  overlap spectrum_a spectrum_b = overlap spectrum_b spectrum_a /\
  overlap spectrum_a spectrum_b <= overlap spectrum_a spectrum_a /\
  overlap spectrum_a spectrum_b <= overlap spectrum_b spectrum_b.
Proof.
  split; [apply overlap_comm|]. split; [|apply overlap_le_self].
  rewrite overlap_comm. apply overlap_le_self.
Qed.

(** [np.argmax] returns the first index of the maximum: everything in
    front of it is strictly smaller *)
Lemma argmax_from_first (seen l : list nat) (best best_val : nat) :
  best < length seen ->
  seen !!! best = best_val ->
  (forall k, k < length seen -> seen !!! k <= best_val) ->
  (forall k, k < best -> seen !!! k < best_val) ->
  let r := argmax_from best best_val (length seen) l in
  forall k, k < r -> (seen ++ l) !!! k < (seen ++ l) !!! r.
Proof.
  revert seen best best_val.
  induction l as [|v l IH]; intros seen best best_val Hbest Hval Hmax Hfirst; simpl.
  - rewrite app_nil_r. intros k Hk. rewrite Hval. by apply Hfirst.
  - assert (Hlen : length (seen ++ [v]) = S (length seen)).
    { rewrite length_app. simpl. lia. }
    assert (Hlast : (seen ++ [v]) !!! length seen = v).
    { apply list_lookup_total_correct. by rewrite list_lookup_middle. }
    assert (Hold : forall k, k < length seen -> (seen ++ [v]) !!! k = seen !!! k).
    { intros k Hk. apply list_lookup_total_correct.
      rewrite lookup_app_l by done. by apply list_lookup_lookup_total_lt. }
    replace (seen ++ v :: l) with ((seen ++ [v]) ++ l) by (by rewrite <- app_assoc).
    destruct (decide (best_val < v)) as [Hlt|Hge].
    + specialize (IH (seen ++ [v]) (length seen) v). rewrite Hlen in IH.
      apply IH; [lia | done | |].
      * intros k Hk. destruct (decide (k = length seen)) as [->|Hne].
        -- by rewrite Hlast.
        -- rewrite Hold by lia. specialize (Hmax k). lia.
      * intros k Hk. rewrite Hold by done. specialize (Hmax k Hk). lia.
    + specialize (IH (seen ++ [v]) best best_val). rewrite Hlen in IH.
      apply IH; [lia | by rewrite Hold | |].
      * intros k Hk. destruct (decide (k = length seen)) as [->|Hne].
        -- rewrite Hlast. lia.
        -- rewrite Hold by lia. apply Hmax. lia.
      * intros k Hk. rewrite Hold by lia. by apply Hfirst.
Qed.

Lemma np_argmax_first (l : list nat) (r : nat) :
  np_argmax l = Ok r -> forall k, k < r -> l !!! k < l !!! r.
Proof.
  destruct l as [|v l]; simpl; [done|]. intros [= <-].
  apply (argmax_from_first [v] l 0 v); simpl; [lia | done | | lia].
  intros [|k] Hk; simpl in *; [done | lia].
Qed.

(** The baseline is the first of the spectra with the most data: no
    spectrum has more cells with data, and every spectrum in front of it
    has fewer.  Without any spectrum there is no baseline: [argmax] of an
    empty array raises. *)
Theorem baseline_first_with_most_data (all_means_calibrated : arr3) :
  (all_means_calibrated = [] ->
     baseline_of all_means_calibrated = Raise ValueError) /\
  (all_means_calibrated <> [] ->
     exists baseline,
       baseline_of all_means_calibrated = Ok baseline /\
       baseline < length all_means_calibrated /\
       (forall k, k < length all_means_calibrated ->
          overlap (all_means_calibrated !!! k) (all_means_calibrated !!! k)
          <= overlap (all_means_calibrated !!! baseline)
                     (all_means_calibrated !!! baseline)) /\
       (forall k, k < baseline ->
          overlap (all_means_calibrated !!! k) (all_means_calibrated !!! k)
          < overlap (all_means_calibrated !!! baseline)
                    (all_means_calibrated !!! baseline))).
Proof.
  split; [by intros ->|]. intros Hne.
  destruct (baseline_of all_means_calibrated) as [baseline|e] eqn:E.
  - exists baseline. split; [done|].
    destruct (baseline_of_spec _ _ E) as [Hb Hmax].
    split; [done|]. split; [done|]. intros k Hk.
    unfold baseline_of in E. pose proof (np_argmax_first _ _ E k Hk) as Hlt.
    rewrite !np_diag_lookup in Hlt by (rewrite all_overlaps_length; lia).
    rewrite !all_overlaps_lookup in Hlt by lia. done.
  - exfalso. unfold baseline_of, np_diag, all_overlaps in E.
    destruct all_means_calibrated; [done | simpl in E; done].
Qed.

Lemma filter_all {A} (P : A -> Prop) `{forall x, Decision (P x)} (l : list A) :
  Forall P l -> filter P l = l.
Proof.
  induction 1 as [|x l Hx _ IH]; [done|].
  rewrite filter_cons_True by done. by f_equal.
Qed.

(** Whatever the overlaps, the order holds all spectra but one, each at
    most once, sorted by descending overlap with the baseline; the one
    left out has the largest overlap with the baseline. *)
Theorem normalise_order_leaves_one_out (all_means_calibrated : arr3) (baseline : nat) :
  baseline < length all_means_calibrated ->
  exists left_out,
    normalise_order_of all_means_calibrated baseline ≡ₚ
      filter (fun i => i <> left_out) (seq 0 (length all_means_calibrated)) /\
    left_out < length all_means_calibrated /\
    (forall j, j < length all_means_calibrated ->
       overlap (all_means_calibrated !!! j) (all_means_calibrated !!! baseline)
       <= overlap (all_means_calibrated !!! left_out)
                  (all_means_calibrated !!! baseline)) /\
    StronglySorted
      (fun a b => (all_overlaps all_means_calibrated !!! baseline) !!! b
                  <= (all_overlaps all_means_calibrated !!! baseline) !!! a)
      (normalise_order_of all_means_calibrated baseline).
Proof.
  set (cal := all_means_calibrated). intros Hb.
  assert (Hlen := all_overlaps_row_length cal baseline Hb).
  destruct (np_argsort_snoc (all_overlaps cal !!! baseline))
    as (init & last & E & Hlast & Hle).
  { intros Hnil. rewrite Hnil in Hlen. simpl in Hlen. lia. }
  rewrite Hlen in Hlast, Hle. exists last.
  unfold normalise_order_of. fold cal. rewrite E, slice_from_m2_reversed_snoc.
  pose proof (np_argsort_perm (all_overlaps cal !!! baseline)) as Hperm.
  pose proof (np_argsort_NoDup (all_overlaps cal !!! baseline)) as Hnd.
  pose proof (np_argsort_sorted (all_overlaps cal !!! baseline)) as Hs.
  rewrite E in Hperm, Hnd, Hs. rewrite Hlen in Hperm.
  split; [|split; [done|split]].
  - rewrite reverse_Permutation, <- Hperm, filter_app.
    apply NoDup_app in Hnd as (_ & Hnotin & _).
    rewrite filter_cons_False, filter_nil, app_nil_r by (intros H; by apply H).
    rewrite filter_all; [done|]. apply Forall_forall. intros i Hi ->.
    apply (Hnotin last Hi). constructor.
  - intros j Hj. specialize (Hle j Hj).
    by rewrite !all_overlaps_lookup in Hle.
  - apply StronglySorted_app_1_l in Hs. by apply StronglySorted_reverse in Hs.
Qed.

Lemma normalise_order_leaves_one_out_witness :
  exists left_out,
    normalise_order_of stairs 0 ≡ₚ
      filter (fun i => i <> left_out) (seq 0 (length stairs)) /\
    left_out < length stairs /\
    (forall j, j < length stairs ->
       overlap (stairs !!! j) (stairs !!! 0)
       <= overlap (stairs !!! left_out) (stairs !!! 0)) /\
    StronglySorted
      (fun a b => (all_overlaps stairs !!! 0) !!! b
                  <= (all_overlaps stairs !!! 0) !!! a)
      (normalise_order_of stairs 0).
Proof.
  apply (normalise_order_leaves_one_out stairs 0). simpl. lia.
Defined.

(** ** The calibrated values *)

Lemma StronglySorted_Rlt_NoDup (l : list R) : StronglySorted Rlt l -> NoDup l.
Proof.
  induction 1 as [|x l Hl IH Hx]; [constructor|].
  constructor; [|done]. intros Hin.
  eapply Forall_forall in Hx; [|exact Hin]. lra.
Qed.

Lemma np_unique_NoDup (l : list R) : NoDup (np_unique l).
Proof. apply StronglySorted_Rlt_NoDup, np_unique_sorted. Qed.

Lemma index_of_elem_of (v : R) (l : list R) :
  v ∈ l -> l !! index_of v l = Some v.
Proof.
  induction l as [|x l IH]; [by intros ?%elem_of_nil|].
  intros Hin. simpl. destruct (decide (x = v)) as [->|Hne]; [done|].
  simpl. apply IH. by apply elem_of_cons in Hin as [->|Hin].
Qed.

Lemma index_of_lookup (v : R) (l : list R) (g : nat) :
  NoDup l -> l !! g = Some v -> index_of v l = g.
Proof.
  intros Hnd Hg. eapply NoDup_lookup; [exact Hnd | | exact Hg].
  apply index_of_elem_of. by eapply list_elem_of_lookup_2.
Qed.

(** what one call of the calibration writes: at the grid index of a
    wavelength of the calibration file the row divided by the factor the
    file has first for that wavelength, elsewhere nothing *)
Lemma calibrate_one_values (grid : list R) (cal : calibration) (x acc r : arr2) :
  NoDup grid ->
  calibrate_one grid cal x acc = Ok r ->
  length r = length acc /\
  forall g v, grid !! g = Some v ->
    (v ∈ cal.*1 ->
       exists f row, cal.*2 !! index_of v cal.*1 = Some f /\ x !! g = Some row /\
                     r !! g = Some (map4 (fun y => fdiv y f) row)) /\
    (v ∉ cal.*1 -> r !! g = acc !! g).
Proof.
  intros Hnd. unfold calibrate_one, np_intersect1d. cbv zeta.
  set (common := filter _ _).
  set (ci := (fun v => index_of v cal.*1) <$> common).
  set (gi := (fun v => index_of v grid) <$> common).
  destruct (np_take x gi) as [rows|] eqn:Ex; simpl; [|done].
  destruct (np_take cal.*2 ci) as [factors|] eqn:Ef; simpl; [|done].
  apply np_take_spec in Ex, Ef.
  assert (Hlr : length rows = length gi) by (symmetry; by eapply Forall2_length).
  assert (Hlf : length factors = length gi).
  { apply Forall2_length in Ef. rewrite <- Ef. unfold ci, gi.
    by rewrite !length_fmap. }
  rewrite setitem_fancy_same_length by (rewrite length_zip_with; lia).
  intros Hrun. split; [by eapply setitems_length|].
  assert (Hcommon : forall v, v ∈ common <-> v ∈ cal.*1 /\ v ∈ grid).
  { intros v. unfold common. rewrite list_elem_of_filter, elem_of_np_unique. tauto. }
  assert (Hgi : NoDup gi).
  { unfold gi. apply NoDup_fmap_2_strong.
    - intros u v [_ Hu]%Hcommon [_ Hv]%Hcommon Heq.
      apply index_of_elem_of in Hu, Hv. rewrite Heq in Hu. congruence.
    - unfold common. apply NoDup_filter, np_unique_NoDup. }
  assert (Hfst : (zip gi (zip_with (fun r0 f => map4 (fun v => fdiv v f) r0)
                            rows factors)).*1 = gi).
  { apply fst_zip. rewrite length_zip_with. lia. }
  intros g v Hg. split.
  - intros Hv.
    assert (Hin : v ∈ common).
    { apply Hcommon. split; [done|]. by eapply list_elem_of_lookup_2. }
    apply list_elem_of_lookup_1 in Hin as [k Hk].
    assert (Hgk : gi !! k = Some g).
    { unfold gi. rewrite list_lookup_fmap, Hk. simpl. f_equal.
      by apply index_of_lookup. }
    assert (Hck : ci !! k = Some (index_of v cal.*1)).
    { unfold ci. by rewrite list_lookup_fmap, Hk. }
    destruct (Forall2_lookup_l _ _ _ _ _ Ex Hgk) as (row & Hrow & Hxg).
    destruct (Forall2_lookup_l _ _ _ _ _ Ef Hck) as (f & Hf & Hcf).
    exists f, row. split; [done|]. split; [done|].
    eapply setitems_written; [exact Hrun | by rewrite Hfst |].
    apply (list_elem_of_lookup_2 _ k). apply lookup_zip_with_Some.
    eexists g, _. split; [done|]. split; [done|].
    apply lookup_zip_with_Some. by exists row, f.
  - intros Hv. eapply setitems_other; [exact Hrun|]. rewrite Hfst.
    unfold gi. intros (u & -> & Hu)%list_elem_of_fmap.
    apply Hcommon in Hu as [Hu1 Hu2]. apply index_of_elem_of in Hu2.
    rewrite Hu2 in Hg. injection Hg as ->. done.
Qed.

(** The calibrator divides, for every spectrum, the mean and the std at
    each grid wavelength that its calibration file lists by the factor
    the file has (first) for that wavelength, and leaves NaN at the grid
    wavelengths the file does not list. *)
Theorem calibrate_divides_by_factor (sp : spectra) (cals : list calibration)
    (all_means_calibrated all_stds_calibrated : arr3) :
  NoDup (all_wavelengths sp) ->
  calibrate sp cals = Ok (all_means_calibrated, all_stds_calibrated) ->
  forall i mean std cal,
    all_means sp !! i = Some mean -> all_stds sp !! i = Some std ->
    cals !! i = Some cal ->
    exists mean_calibrated std_calibrated,
      all_means_calibrated !! i = Some mean_calibrated /\
      all_stds_calibrated !! i = Some std_calibrated /\
      length mean_calibrated = length mean /\
      length std_calibrated = length mean /\
      forall g v, all_wavelengths sp !! g = Some v ->
        (v ∈ cal.*1 ->
           exists f rm rs,
             cal.*2 !! index_of v cal.*1 = Some f /\
             mean !! g = Some rm /\ std !! g = Some rs /\
             mean_calibrated !! g = Some (map4 (fun y => fdiv y f) rm) /\
             std_calibrated !! g = Some (map4 (fun y => fdiv y f) rs)) /\
        (v ∉ cal.*1 -> g < length mean ->
           mean_calibrated !! g = Some nan_row /\
           std_calibrated !! g = Some nan_row).
Proof.
  intros Hnd. unfold calibrate. cbv zeta. intros Hrun.
  set (xs := zip (zip (all_means sp) (all_stds sp)) cals) in Hrun.
  assert (Hxs : length xs <= length (all_means sp)).
  { unfold xs. rewrite !length_zip. lia. }
  assert (Hinit : length (full_like_nan (all_means sp)) = length (all_means sp)).
  { unfold full_like_nan. by rewrite length_fmap. }
  apply (for_enumerate_rows
           (fun x a => calibrate_one (all_wavelengths sp) x.2 x.1.1 a)
           (fun x b => calibrate_one (all_wavelengths sp) x.2 x.1.2 b)
           _ (calibrate_body_eq (all_wavelengths sp)))
    in Hrun; simpl; [|lia..].
  simpl in Hrun. destruct Hrun as (_ & _ & _ & Hin).
  intros i mean std cal Hmean Hstd Hcal.
  assert (Hx : xs !! i = Some (mean, std, cal)).
  { unfold xs. apply lookup_zip_with_Some. exists (mean, std), cal.
    split; [done|]. split; [|done]. apply lookup_zip_with_Some. by exists mean, std. }
  destruct (Hin i _ Hx) as (m & s & Fm & Fs & E1 & E2). simpl in Fm, Fs, E1, E2.
  assert (Hacc : full_like_nan (all_means sp) !!! i = replicate (length mean) nan_row).
  { apply list_lookup_total_correct. unfold full_like_nan.
    by rewrite list_lookup_fmap, Hmean. }
  rewrite Hacc in Fm, Fs.
  apply calibrate_one_values in Fm as (Hlm & Hvm); [|done].
  apply calibrate_one_values in Fs as (Hls & Hvs); [|done].
  rewrite length_replicate in Hlm, Hls.
  exists m, s. split; [done|]. split; [done|]. split; [done|]. split; [done|].
  intros g v Hg. destruct (Hvm g v Hg) as [Hm1 Hm2]. destruct (Hvs g v Hg) as [Hs1 Hs2].
  split.
  - intros Hv. destruct (Hm1 Hv) as (f & rm & Hf & Hrm & Em).
    destruct (Hs1 Hv) as (f' & rs & Hf' & Hrs & Es).
    assert (f' = f) as -> by congruence. by exists f, rm, rs.
  - intros Hv Hlt. rewrite (Hm2 Hv), (Hs2 Hv).
    by rewrite lookup_replicate_2.
Qed.

Lemma np_intersect1d_one : np_intersect1d [2%R] [1%R; 2%R] = ([2%R], [0], [1]).
Proof.
  unfold np_intersect1d, np_unique. simpl.
  rewrite filter_cons_True.
  2:{ apply elem_of_cons. right. constructor. }
  rewrite filter_nil. simpl.
  destruct (decide (2%R = 2%R)); [|done].
  destruct (decide (1%R = 2%R)); [lra | done].
Qed.

Lemma calibrate_one_spectrum :
  calibrate one_spectrum [one_cal] =
    Ok ([[nan_row; map4 (fun y => fdiv y (Fin 2)) (all4 (Fin 8))]],
        [[nan_row; map4 (fun y => fdiv y (Fin 2)) (all4 (Fin 4))]]).
Proof.
  unfold calibrate, one_spectrum. cbn [all_means all_stds all_wavelengths].
  cbn [zip zip_with for_enumerate]. unfold calibrate_body, calibrate_one, one_cal.
  cbn [fmap list_fmap fst snd]. rewrite np_intersect1d_one.
  reflexivity.
Qed.

Lemma calibrate_divides_by_factor_witness :
  exists mean_calibrated std_calibrated,
    [[nan_row; map4 (fun y => fdiv y (Fin 2)) (all4 (Fin 8))]] !! 0
      = Some mean_calibrated /\
    [[nan_row; map4 (fun y => fdiv y (Fin 2)) (all4 (Fin 4))]] !! 0
      = Some std_calibrated /\
    length mean_calibrated = length [all4 (Fin 6); all4 (Fin 8)] /\
    length std_calibrated = length [all4 (Fin 6); all4 (Fin 8)] /\
    forall g v, all_wavelengths one_spectrum !! g = Some v ->
      (v ∈ one_cal.*1 ->
         exists f rm rs,
           one_cal.*2 !! index_of v one_cal.*1 = Some f /\
           [all4 (Fin 6); all4 (Fin 8)] !! g = Some rm /\
           [all4 (Fin 2); all4 (Fin 4)] !! g = Some rs /\
           mean_calibrated !! g = Some (map4 (fun y => fdiv y f) rm) /\
           std_calibrated !! g = Some (map4 (fun y => fdiv y f) rs)) /\
      (v ∉ one_cal.*1 -> g < length [all4 (Fin 6); all4 (Fin 8)] ->
         mean_calibrated !! g = Some nan_row /\
         std_calibrated !! g = Some nan_row).
Proof.
  apply (calibrate_divides_by_factor one_spectrum [one_cal] _ _
           ltac:(apply NoDup_cons; split; [|apply NoDup_singleton];
                 intros H%list_elem_of_singleton; lra)
           calibrate_one_spectrum 0
           [all4 (Fin 6); all4 (Fin 8)] [all4 (Fin 2); all4 (Fin 4)] one_cal).
  - reflexivity.
  - reflexivity.
  - reflexivity.
Defined.

(** ** The weighted average stays within its inputs *)

Lemma weighted_sum_bounds (lo hi : R) (valid : list (R * R)) :
  Forall (fun p => (lo <= p.1 <= hi)%R) valid ->
  (lo * sumR (weight <$> valid) <= sumR ((fun q => weight q * q.1)%R <$> valid)
   <= hi * sumR (weight <$> valid))%R.
Proof.
  induction 1 as [|p valid Hp _ IH].
  - simpl. rewrite !sumR_nil. lra.
  - rewrite !fmap_cons, !sumR_cons. pose proof (weight_nonneg p). nra.
Qed.

Lemma total_pos_valid (valid : list (R * R)) :
  sumR (weight <$> valid) <> 0%R ->
  valid <> [] /\ (0 < sumR (weight <$> valid))%R.
Proof.
  intros Ht. split; [by intros ->|].
  assert (0 <= sumR (weight <$> valid))%R; [|lra].
  apply sumR_nonneg, Forall_fmap, Forall_forall. intros q _. apply weight_nonneg.
Qed.

(** At a cell where some valid spectrum has a nonzero mean, the combined
    mean is a number, not masked, and lies between the smallest and the
    largest mean of the valid spectra. *)
Theorem combined_mean_between (means_normalised stds_normalised : arr3)
    (w : nat) (c : channel) (lo hi : R) :
  length means_normalised = length stds_normalised ->
  has_row means_normalised w ->
  has_row stds_normalised w ->
  Forall valid_or_missing
    (zip (column means_normalised w c) (column stds_normalised w c)) ->
  Forall (fun p => (lo <= p.1 <= hi)%R)
    (valid_pairs (zip (column means_normalised w c) (column stds_normalised w c))) ->
  sumR (weight <$> valid_pairs
          (zip (column means_normalised w c) (column stds_normalised w c))) <> 0%R ->
  exists m,
    cell (flat_means_mask means_normalised stds_normalised) w c
      = Some (MFloat (Fin m) false) /\
    (lo <= m <= hi)%R.
Proof.
  intros Hlen Hm Hs Hcol Hb Ht.
  set (col := zip (column means_normalised w c) (column stds_normalised w c)) in *.
  destruct (total_pos_valid _ Ht) as [Hv Hpos].
  assert (Hne : means_normalised <> []).
  { intros ->. by apply Hv. }
  rewrite cell_flat_means_mask by done. fold col.
  rewrite flat_mean_cell_eq by done.
  rewrite bool_decide_eq_false_2 by done.
  unfold ma_true_divide. simpl. rewrite Rzero_false by done. simpl.
  eexists. split; [done|].
  pose proof (weighted_sum_bounds lo hi _ Hb) as [H1 H2].
  split.
  - apply Rmult_le_reg_r with (sumR (weight <$> valid_pairs col)); [done|].
    unfold Rdiv. rewrite Rmult_assoc, Rinv_l by done. lra.
  - apply Rmult_le_reg_r with (sumR (weight <$> valid_pairs col)); [done|].
    unfold Rdiv. rewrite Rmult_assoc, Rinv_l by done. lra.
Qed.

Lemma combined_mean_between_witness :
  exists m,
    cell (flat_means_mask [[all4 (Fin 3)]; [nan_row]] [[all4 (Fin 2)]; [nan_row]])
      0 chR = Some (MFloat (Fin m) false) /\
    (3 <= m <= 3)%R.
Proof.
  assert (Hvs : valid_pairs
            (zip (column [[all4 (Fin 3)]; [nan_row]] 0 chR)
                 (column [[all4 (Fin 2)]; [nan_row]] 0 chR)) = [(3, 2)%R]).
  { unfold valid_pairs. simpl. by rewrite Rzero_false by lra. }
  apply (combined_mean_between
           [[all4 (Fin 3)]; [nan_row]] [[all4 (Fin 2)]; [nan_row]] 0 chR 3 3).
  - done.
  - repeat constructor.
  - repeat constructor.
  - change (Forall valid_or_missing [(Fin 3, Fin 2); (NaN, NaN)]).
    apply Forall_cons_2.
    + left. exists (3, 2)%R. simpl. by rewrite Rzero_false by lra.
    + apply Forall_cons_2; [by right | constructor].
  - rewrite Hvs. apply Forall_cons_2; [simpl; lra | constructor].
  - rewrite Hvs. unfold sumR, weight. simpl. lra.
Defined.

(** ** The combined error is at most the largest error *)

Lemma squared_terms_bound (S W : R) (valid : list (R * R)) :
  (0 < W)%R ->
  Forall (fun p => (- S <= p.2 <= S)%R) valid ->
  (sumR (weight <$> valid) <= W)%R ->
  (sumR ((fun q => (weight q / W * q.2) * (weight q / W * q.2))%R <$> valid)
   <= S * S * (sumR (weight <$> valid) / W))%R.
Proof.
  intros HW. induction 1 as [|p valid Hp Hall IH].
  - intros _. simpl. rewrite !sumR_nil. unfold Rdiv. lra.
  - rewrite !fmap_cons, !sumR_cons. intros Hsum.
    pose proof (weight_nonneg p) as Hw0.
    assert (Hrest : (0 <= sumR (weight <$> valid))%R).
    { apply sumR_nonneg, Forall_fmap, Forall_forall. intros q _. apply weight_nonneg. }
    specialize (IH ltac:(lra)).
    set (q := (weight p / W)%R).
    assert (Hq0 : (0 <= q)%R).
    { unfold q. apply Rmult_le_pos; [done|]. apply Rlt_le, Rinv_0_lt_compat, HW. }
    assert (Hq1 : (q <= 1)%R).
    { unfold q. apply Rmult_le_reg_r with W; [done|].
      unfold Rdiv. rewrite Rmult_assoc, Rinv_l by lra. lra. }
    assert (Hs : (p.2 * p.2 <= S * S)%R) by nra.
    assert (Hqq : (q * q <= q)%R) by nra.
    assert (Hterm : (q * p.2 * (q * p.2) <= S * S * q)%R).
    { replace (q * p.2 * (q * p.2))%R with (q * q * (p.2 * p.2))%R by ring.
      assert (0 <= p.2 * p.2)%R by nra. nra. }
    replace ((weight p + sumR (weight <$> valid)) / W)%R
      with (q + sumR (weight <$> valid) / W)%R by (unfold q; field; lra).
    lra.
Qed.

(** At a cell where some valid spectrum has a nonzero mean, the combined
    std is a number, not masked, not negative and at most the largest std
    (in absolute value) of the valid spectra. *)
Theorem combined_std_at_most_largest (means_normalised stds_normalised : arr3)
    (w : nat) (c : channel) (S : R) :
  length means_normalised = length stds_normalised ->
  has_row means_normalised w ->
  has_row stds_normalised w ->
  Forall valid_or_missing
    (zip (column means_normalised w c) (column stds_normalised w c)) ->
  Forall (fun p => (- S <= p.2 <= S)%R)
    (valid_pairs (zip (column means_normalised w c) (column stds_normalised w c))) ->
  sumR (weight <$> valid_pairs
          (zip (column means_normalised w c) (column stds_normalised w c))) <> 0%R ->
  exists e,
    cell (flat_errs_mask means_normalised stds_normalised) w c
      = Some (MFloat (Fin e) false) /\
    (0 <= e <= S)%R.
Proof.
  intros Hlen Hm Hs Hcol Hb Ht.
  set (col := zip (column means_normalised w c) (column stds_normalised w c)) in *.
  destruct (total_pos_valid _ Ht) as [Hv Hpos].
  assert (Hne : means_normalised <> []).
  { intros ->. by apply Hv. }
  assert (HS : (0 <= S)%R).
  { destruct (valid_pairs col) as [|p l]; [done|].
    apply Forall_cons in Hb as [Hp _]. lra. }
  rewrite cell_flat_errs_mask by done. fold col.
  rewrite flat_err_cell_eq by done.
  eexists. split; [done|]. split; [apply sqrt_pos|].
  apply Rle_trans with (sqrt (S * S)); [|rewrite sqrt_square by done; lra].
  apply sqrt_le_1_alt.
  pose proof (squared_terms_bound S _ _ Hpos Hb ltac:(lra)) as Hbound.
  replace (sumR (weight <$> valid_pairs col) / sumR (weight <$> valid_pairs col))%R
    with 1%R in Hbound by (field; lra).
  lra.
Qed.

Lemma combined_std_at_most_largest_witness :
  exists e,
    cell (flat_errs_mask [[all4 (Fin 3)]; [nan_row]] [[all4 (Fin 2)]; [nan_row]])
      0 chR = Some (MFloat (Fin e) false) /\
    (0 <= e <= 2)%R.
Proof.
  assert (Hvs : valid_pairs
            (zip (column [[all4 (Fin 3)]; [nan_row]] 0 chR)
                 (column [[all4 (Fin 2)]; [nan_row]] 0 chR)) = [(3, 2)%R]).
  { unfold valid_pairs. simpl. by rewrite Rzero_false by lra. }
  apply (combined_std_at_most_largest
           [[all4 (Fin 3)]; [nan_row]] [[all4 (Fin 2)]; [nan_row]] 0 chR 2).
  - done.
  - repeat constructor.
  - repeat constructor.
  - change (Forall valid_or_missing [(Fin 3, Fin 2); (NaN, NaN)]).
    apply Forall_cons_2.
    + left. exists (3, 2)%R. simpl. by rewrite Rzero_false by lra.
    + apply Forall_cons_2; [by right | constructor].
  - rewrite Hvs. apply Forall_cons_2; [simpl; lra | constructor].
  - rewrite Hvs. unfold sumR, weight. simpl. lra.
Defined.

(** ** The response has its peak at 1 *)

Lemma elem_of_cells_cell {A} (a : list (chan4 A)) (x : A) :
  x ∈ cells a -> exists w c, cell a w c = Some x.
Proof.
  unfold cells. intros (r & Hx & Hr)%list_elem_of_bind.
  apply list_elem_of_lookup_1 in Hr as [w Hw].
  assert (Hc : exists c, get c r = x).
  { apply elem_of_cons in Hx as [->|Hx]; [by exists chR|].
    apply elem_of_cons in Hx as [->|Hx]; [by exists chG|].
    apply elem_of_cons in Hx as [->|Hx]; [by exists chB|].
    apply list_elem_of_singleton in Hx as ->. by exists chG2. }
  destruct Hc as [c <-]. exists w, c. unfold cell. by rewrite Hw.
Qed.

Lemma ma_true_divide_unmasked (a b : mfloat) (x : float) (m : bool) :
  ma_true_divide a b = MFloat x m -> m = false -> exists q, x = Fin q.
Proof.
  unfold ma_true_divide. intros [= <- <-] Hm.
  apply orb_false_iff in Hm as [Hm Hb]. apply orb_false_iff in Hm as [Hm Ha].
  rewrite Hm, Ha, Hb. simpl. destruct (fdiv (data a) (data b)); try done. eauto.
Qed.

Lemma flat_means_unmasked_number (mn sn : arr3) w c (x : float) :
  cell (flat_means_mask mn sn) w c = Some (MFloat x false) -> exists q, x = Fin q.
Proof.
  unfold flat_means_mask, ma_average. cbv zeta. rewrite cell_zip2d.
  destruct (cell (axis0 ma_sum (zip3d np_multiply _ _)) w c) as [a|];
    [|by intros [=]].
  cbn [mbind option_bind].
  destruct (cell (axis0 ma_sum _) w c) as [b|]; [|by intros [=]].
  cbn [mbind option_bind]. intros E. apply (inj Some) in E.
  exact (ma_true_divide_unmasked _ _ _ _ E eq_refl).
Qed.

(** the maximum of numbers: an upper bound that is one of them *)
Lemma foldl_Rmax_upper (x : R) (xs : list R) :
  Forall (fun z => (z <= foldl Rmax x xs)%R) (x :: xs).
Proof.
  revert x. induction xs as [|y xs IH]; intros x; simpl.
  - constructor; [lra | constructor].
  - specialize (IH (Rmax x y)). apply Forall_cons in IH as [H1 H2].
    pose proof (Rmax_l x y). pose proof (Rmax_r x y).
    constructor; [lra|]. constructor; [lra | done].
Qed.

Lemma ma_max_numbers (l : list mfloat) (x0 : mfloat) :
  Forall (fun x => mask x = false -> exists q, data x = Fin q) l ->
  x0 ∈ l -> mask x0 = false ->
  exists M,
    ma_max l = Ok (MFloat (Fin M) false) /\
    MFloat (Fin M) false ∈ l /\
    forall q, MFloat (Fin q) false ∈ l -> (q <= M)%R.
Proof.
  intros Hall Hin Hm.
  assert (Hq : exists qs, filter (fun x => mask x = false) l
                          = (fun q => MFloat (Fin q) false) <$> qs).
  { clear Hin. induction Hall as [|x l Hx _ [qs IH]]; [by exists []|].
    destruct (mask x) eqn:E.
    - exists qs. rewrite filter_cons_False; [done | by rewrite E].
    - destruct (Hx eq_refl) as [q Hq]. exists (q :: qs).
      rewrite filter_cons_True by done. rewrite fmap_cons, <- IH.
      f_equal. destruct x as [d m]. simpl in *. by subst. }
  destruct Hq as [qs Hqs].
  assert (Hmem : forall q, MFloat (Fin q) false ∈ l <-> q ∈ qs).
  { intros q. split.
    - intros Hq.
      assert (Hf : MFloat (Fin q) false ∈ filter (fun x => mask x = false) l).
      { by apply list_elem_of_filter. }
      rewrite Hqs in Hf. apply list_elem_of_fmap in Hf as (q' & [= ->] & Hq'). done.
    - intros Hq.
      assert (Hf : MFloat (Fin q) false ∈ filter (fun x => mask x = false) l).
      { rewrite Hqs. apply list_elem_of_fmap. by exists q. }
      by apply list_elem_of_filter in Hf as [_ Hf]. }
  destruct qs as [|q qs].
  { exfalso. assert (Hf : x0 ∈ filter (fun x => mask x = false) l).
    { by apply list_elem_of_filter. }
    rewrite Hqs in Hf. inversion Hf. }
  exists (foldl Rmax q qs). split; [|split].
  - unfold ma_max. destruct l as [|y l]; [inversion Hin|].
    rewrite Hqs, fmap_cons. cbn [data].
    rewrite <- list_fmap_compose, (list_fmap_ext _ Fin qs) by done.
    by rewrite foldl_fmax_Fin.
  - apply Hmem, foldl_Rmax_elem_of.
  - intros z Hz%Hmem. pose proof (foldl_Rmax_upper q qs) as Hup.
    by eapply Forall_forall in Hup.
Qed.

(** When some combined mean is a positive number, the combination
    succeeds, the maximum of the combined mean is a positive number, the
    response is the combined mean divided by it at every cell that is
    not masked, at most 1 there, and exactly 1 at some cell. *)
Theorem response_peaks_at_one (means_normalised stds_normalised : arr3)
    (w0 : nat) (c0 : channel) (q0 : R) :
  cell (flat_means_mask means_normalised stds_normalised) w0 c0
    = Some (MFloat (Fin q0) false) ->
  (0 < q0)%R ->
  exists flat_max cmb,
    ma_max (cells (flat_means_mask means_normalised stds_normalised))
      = Ok (MFloat (Fin flat_max) false) /\
    (0 < flat_max)%R /\
    combine means_normalised stds_normalised = Ok cmb /\
    (forall w c q,
       cell (flat_means_mask means_normalised stds_normalised) w c
         = Some (MFloat (Fin q) false) ->
       cell (response_normalised cmb) w c = Some (Fin (q / flat_max)) /\
       (q / flat_max <= 1)%R) /\
    exists w c, cell (response_normalised cmb) w c = Some (Fin 1).
Proof.
  intros H0 Hq0.
  set (flat_means := flat_means_mask means_normalised stds_normalised) in *.
  destruct (ma_max_numbers (cells flat_means) (MFloat (Fin q0) false))
    as (M & Hmax & Hin & Hup).
  { apply Forall_forall. intros [x m] Hx Hm. simpl in *. subst m.
    apply elem_of_cells_cell in Hx as (w & c & Hx).
    by apply flat_means_unmasked_number in Hx. }
  { by eapply cell_elem_of_cells. }
  { done. }
  assert (HM : (0 < M)%R).
  { specialize (Hup q0 ltac:(by eapply cell_elem_of_cells)). lra. }
  assert (Hcell : forall w c q,
            cell flat_means w c = Some (MFloat (Fin q) false) ->
            cell (map2d (fun x => data (ma_true_divide x (MFloat (Fin M) false)))
                    flat_means) w c = Some (Fin (q / M))).
  { intros w c q Hq. rewrite cell_map2d, Hq. simpl.
    unfold ma_true_divide. simpl. by rewrite Rzero_false by lra. }
  exists M. eexists. split; [done|]. split; [done|].
  split; [unfold combine; cbv zeta; fold flat_means; by rewrite Hmax|].
  cbn [response_normalised]. split.
  - intros w c q Hq. split; [by apply Hcell|].
    specialize (Hup q ltac:(by eapply cell_elem_of_cells)).
    apply Rmult_le_reg_r with M; [done|].
    unfold Rdiv. rewrite Rmult_assoc, Rinv_l by lra. lra.
  - apply elem_of_cells_cell in Hin as (w & c & Hin). exists w, c.
    rewrite (Hcell w c M Hin). do 2 f_equal. field. lra.
Qed.

Lemma response_peaks_at_one_witness :
  exists flat_max cmb,
    ma_max (cells (flat_means_mask gap gap)) = Ok (MFloat (Fin flat_max) false) /\
    (0 < flat_max)%R /\
    combine gap gap = Ok cmb /\
    (forall w c q,
       cell (flat_means_mask gap gap) w c = Some (MFloat (Fin q) false) ->
       cell (response_normalised cmb) w c = Some (Fin (q / flat_max)) /\
       (q / flat_max <= 1)%R) /\
    exists w c, cell (response_normalised cmb) w c = Some (Fin 1).
Proof.
  apply (response_peaks_at_one gap gap 0 chR 1).
  - rewrite cell_flat_means_mask; [|done|done|repeat constructor..].
    change (zip (column gap 0 chR) (column gap 0 chR)) with [(Fin 1, Fin 1)].
    rewrite (flat_mean_cell_usable (Fin 1, Fin 1) 1); [done|].
    simpl. by rewrite Rzero_false by lra.
  - lra.
Defined.

(** ** The saved curve is read back as it was *)

Lemma np_transpose_channels (a : arr2) :
  np_transpose (transpose_channels a) = rows_of a.
Proof.
  unfold np_transpose, transpose_channels, rows_of.
  cbn [fmap list_fmap]. apply list_eq. intros j.
  rewrite list_lookup_imap, !list_lookup_fmap.
  destruct (a !! j) as [r|] eqn:E; simpl; [|done].
  cbn [omap list_omap]. rewrite !list_lookup_fmap, E. done.
Qed.

Lemma stack_curve_Ok (all_wavelengths : list R) (response errors : arr2)
    (final_curves : list (list float)) :
  stack_curve all_wavelengths response errors = Ok final_curves ->
  final_curves = (Fin <$> all_wavelengths)
                 :: transpose_channels response ++ transpose_channels errors /\
  length response = length all_wavelengths /\
  length errors = length all_wavelengths.
Proof.
  unfold stack_curve, np_stack. case_decide as Hall; [|done].
  intros [= <-]. split; [done|].
  unfold transpose_channels in Hall. cbn [fmap list_fmap app] in Hall.
  rewrite !Forall_cons in Hall. rewrite !length_fmap in Hall.
  destruct Hall as (H1 & _ & _ & _ & H2 & _). done.
Qed.

(** When the curve is stacked for saving, the response and the errors
    have as many rows as there are wavelengths; the array has nine rows,
    the first holds the wavelengths, and what the analysis script takes
    from it as [final_mean] and [final_stds] are exactly the response
    and the errors that were stacked. *)
Theorem saved_curve_read_back (all_wavelengths : list R)
    (response_normalised errors_normalised : arr2)
    (final_curves : list (list float)) :
  stack_curve all_wavelengths response_normalised errors_normalised
    = Ok final_curves ->
  length final_curves = 9 /\
  final_curves !! 0 = Some (Fin <$> all_wavelengths) /\
  final_mean final_curves = rows_of response_normalised /\
  final_stds final_curves = rows_of errors_normalised /\
  length response_normalised = length all_wavelengths /\
  length errors_normalised = length all_wavelengths.
Proof.
  intros (-> & Hr & He)%stack_curve_Ok.
  split; [done|]. split; [done|].
  split; [|split; [|done]].
  - unfold final_mean, slice_rows.
    change (take (5 - 1) (drop 1 _)) with (transpose_channels response_normalised).
    apply np_transpose_channels.
  - unfold final_stds.
    change (drop 5 _) with (transpose_channels errors_normalised).
    apply np_transpose_channels.
Qed.

Lemma saved_curve_read_back_witness :
  length ((Fin <$> [1%R; 2%R]) :: transpose_channels lone_mean
                               ++ transpose_channels lone_std) = 9 /\
  ((Fin <$> [1%R; 2%R]) :: transpose_channels lone_mean
                         ++ transpose_channels lone_std) !! 0
    = Some (Fin <$> [1%R; 2%R]) /\
  final_mean ((Fin <$> [1%R; 2%R]) :: transpose_channels lone_mean
                                    ++ transpose_channels lone_std)
    = rows_of lone_mean /\
  final_stds ((Fin <$> [1%R; 2%R]) :: transpose_channels lone_mean
                                    ++ transpose_channels lone_std)
    = rows_of lone_std /\
  length lone_mean = length [1%R; 2%R] /\
  length lone_std = length [1%R; 2%R].
Proof.
  apply (saved_curve_read_back [1%R; 2%R] lone_mean lone_std). reflexivity.
Defined.

(** ** The root folder *)

Section RootFolder.

Variable has_metadata : metadata.path -> bool.

(** the candidates of the loop, by the number of components they keep *)
Lemma first_with_metadata_prefixes (cand : nat -> metadata.path) (m : nat) :
  match metadata.first_with_metadata has_metadata (cand <$> reverse (seq 0 m)) with
  | Some root =>
      exists k, k < m /\ root = cand k /\ has_metadata (cand k) = true /\
                forall j, k < j < m -> has_metadata (cand j) = false
  | None => forall j, j < m -> has_metadata (cand j) = false
  end.
Proof.
  induction m as [|m IH]; [simpl; intros; lia|].
  rewrite seq_S, reverse_app, reverse_singleton. simpl.
  destruct (has_metadata (cand m)) eqn:E.
  - exists m. repeat split; [lia | done | intros; lia].
  - destruct (metadata.first_with_metadata _ _) as [root|].
    + destruct IH as (k & Hk & -> & Hf & Hbetween).
      exists k. repeat split; [lia | done |].
      intros j Hj. destruct (decide (j = m)) as [->|]; [done|]. apply Hbetween. lia.
    + intros j Hj. destruct (decide (j = m)) as [->|]; [done|]. apply IH. lia.
Qed.

Lemma candidates_prefixes (p : metadata.path) :
  p :: metadata.parents p =
    (fun k => metadata.Path (metadata.anchor p) (take k (metadata.parts p)))
      <$> reverse (seq 0 (S (length (metadata.parts p)))).
Proof.
  unfold metadata.parents. rewrite seq_S, reverse_app, reverse_singleton. simpl.
  rewrite take_ge by done. by destruct p.
Qed.

Lemma find_root_folder_cases (p : metadata.path) :
  match metadata.find_root_folder has_metadata p with
  | metadata.Return root =>
      exists k, k <= length (metadata.parts p) /\
        root = metadata.Path (metadata.anchor p) (take k (metadata.parts p)) /\
        has_metadata root = true /\
        forall j, k < j <= length (metadata.parts p) ->
          has_metadata (metadata.Path (metadata.anchor p) (take j (metadata.parts p)))
            = false
  | metadata.Except e =>
      e = metadata.OSError /\
      forall j, has_metadata
                  (metadata.Path (metadata.anchor p) (take j (metadata.parts p)))
                = false
  end.
Proof.
  unfold metadata.find_root_folder. rewrite candidates_prefixes.
  pose proof (first_with_metadata_prefixes
    (fun k => metadata.Path (metadata.anchor p) (take k (metadata.parts p)))
    (S (length (metadata.parts p)))) as H.
  destruct (metadata.first_with_metadata _ _) as [root|].
  - destruct H as (k & Hk & -> & Hf & Hbetween).
    exists k. repeat split; [lia | done |]. intros j Hj. apply Hbetween. lia.
  - split; [done|]. intros j.
    destruct (decide (j <= length (metadata.parts p))) as [Hj|Hj]; [apply H; lia|].
    rewrite take_ge by lia.
    rewrite <- (take_ge (metadata.parts p) (length (metadata.parts p))) by done.
    apply H. lia.
Qed.

Lemma prefix_is_take {A} (q l : list A) :
  q `prefix_of` l -> q = take (length q) l.
Proof. intros [k ->]. by rewrite take_app_length. Qed.

(** The root folder that [find_root_folder] returns is the input path
    or one of its parents, it holds a 'metadata.json', no folder between
    it and the input path does, and it is its own root folder. *)
Theorem find_root_folder_nearest (input_path root : metadata.path) :
  metadata.find_root_folder has_metadata input_path = metadata.Return root ->
  metadata.anchor root = metadata.anchor input_path /\
  metadata.parts root `prefix_of` metadata.parts input_path /\
  has_metadata root = true /\
  (forall q, metadata.anchor q = metadata.anchor input_path ->
     metadata.parts root `prefix_of` metadata.parts q ->
     metadata.parts q `prefix_of` metadata.parts input_path ->
     has_metadata q = true -> q = root) /\
  metadata.find_root_folder has_metadata root = metadata.Return root.
Proof.
  intros Hrun. pose proof (find_root_folder_cases input_path) as H.
  rewrite Hrun in H. destruct H as (k & Hk & -> & Hf & Hbetween). simpl.
  split; [done|]. split; [apply prefix_take|]. split; [done|]. split.
  - intros [a q] Ha Hroot Hq Hfq. simpl in *. subst a.
    pose proof (prefix_is_take _ _ Hq) as Eq.
    pose proof (prefix_length _ _ Hroot) as Hlen.
    pose proof (prefix_length _ _ Hq) as Hlen'.
    rewrite length_take in Hlen.
    destruct (decide (length q <= k)) as [Hle|Hgt].
    + f_equal. rewrite Eq. f_equal. lia.
    + rewrite Eq in Hfq. rewrite Hbetween in Hfq by lia. done.
  - unfold metadata.find_root_folder. simpl. by rewrite Hf.
Qed.

(** [find_root_folder] raises, and then an OSError, exactly when neither
    the input path nor any of its parents holds a 'metadata.json'. *)
Theorem find_root_folder_raises_iff (input_path : metadata.path) :
  metadata.find_root_folder has_metadata input_path = metadata.Except metadata.OSError
  <-> forall q, metadata.anchor q = metadata.anchor input_path ->
        metadata.parts q `prefix_of` metadata.parts input_path ->
        has_metadata q = false.
Proof.
  pose proof (find_root_folder_cases input_path) as H. split.
  - intros Hrun. rewrite Hrun in H. destruct H as [_ H].
    intros [a q] Ha Hq. simpl in *. subst a.
    rewrite (prefix_is_take _ _ Hq). apply H.
  - intros Hnone.
    destruct (metadata.find_root_folder has_metadata input_path) as [root|e].
    + destruct H as (k & Hk & -> & Hf & _).
      rewrite Hnone in Hf; [done | done | apply prefix_take].
    + destruct H as [-> _]. done.
Qed.

End RootFolder.

Lemma find_root_folder_nearest_witness :
  metadata.anchor (metadata.Path "/" ["data"])
    = metadata.anchor (metadata.Path "/" ["data"; "stacks"; "run1"]) /\
  metadata.parts (metadata.Path "/" ["data"])
    `prefix_of` metadata.parts (metadata.Path "/" ["data"; "stacks"; "run1"]) /\
  (fun p => bool_decide (metadata.parts p = ["data"])) (metadata.Path "/" ["data"])
    = true /\
  (forall q, metadata.anchor q
               = metadata.anchor (metadata.Path "/" ["data"; "stacks"; "run1"]) ->
     metadata.parts (metadata.Path "/" ["data"]) `prefix_of` metadata.parts q ->
     metadata.parts q
       `prefix_of` metadata.parts (metadata.Path "/" ["data"; "stacks"; "run1"]) ->
     (fun p => bool_decide (metadata.parts p = ["data"])) q = true ->
     q = metadata.Path "/" ["data"]) /\
  metadata.find_root_folder (fun p => bool_decide (metadata.parts p = ["data"]))
    (metadata.Path "/" ["data"]) = metadata.Return (metadata.Path "/" ["data"]).
Proof.
  apply (find_root_folder_nearest
           (fun p => bool_decide (metadata.parts p = ["data"]))
           (metadata.Path "/" ["data"; "stacks"; "run1"])
           (metadata.Path "/" ["data"])).
  reflexivity.
Defined.

(** ** The Bayer map and the bias map *)

Lemma parity_cases (r : nat) :
  (Nat.even r = true /\ r mod 2 = 0) \/ (Nat.even r = false /\ r mod 2 = 1).
Proof.
  rewrite <- Nat.bit0_mod, Nat.bit0_odd, <- Nat.negb_odd.
  destruct (Nat.odd r); simpl; auto.
Qed.

Lemma hits_even (r : nat) : (0 <= r /\ Nat.even (r - 0) = true) <-> r mod 2 = 0.
Proof.
  rewrite Nat.sub_0_r. destruct (parity_cases r) as [[-> ->]|[-> ->]];
    split; (done || lia || intros []; done || lia).
Qed.

Lemma hits_odd (r : nat) : (1 <= r /\ Nat.even (r - 1) = true) <-> r mod 2 = 1.
Proof.
  destruct r as [|r]; [simpl; split; [lia | done]|].
  rewrite Nat.even_sub by lia. change (Nat.even 1) with false.
  destruct (parity_cases (S r)) as [[-> ->]|[-> ->]]; simpl;
    split; (done || lia || intros []; done || lia).
Qed.

Lemma pixel_set_strided (r0 c0 : nat) (v : Z) (a : list (list Z)) (r c : nat) :
  metadata.pixel (metadata.set_strided r0 c0 v a) r c =
    (fun x => if decide ((r0 <= r /\ Nat.even (r - r0) = true) /\
                         (c0 <= c /\ Nat.even (c - c0) = true))
              then v else x) <$> metadata.pixel a r c.
Proof.
  unfold metadata.pixel, metadata.set_strided. rewrite list_lookup_imap.
  destruct (a !! r) as [row|]; simpl; [|done].
  destruct (decide (r0 <= r /\ Nat.even (r - r0) = true)) as [Hr|Hr].
  - rewrite list_lookup_imap. destruct (row !! c) as [x|]; simpl; [|done].
    destruct (decide (c0 <= c /\ Nat.even (c - c0) = true)) as [Hc|Hc].
    + by rewrite decide_True.
    + by rewrite decide_False by tauto.
  - destruct (row !! c) as [x|]; simpl; [|done].
    by rewrite decide_False by tauto.
Qed.

Lemma set_strided_shape (r0 c0 : nat) (v : Z) (a : list (list Z)) (width : nat) :
  Forall (fun row => length row = width) a ->
  length (metadata.set_strided r0 c0 v a) = length a /\
  Forall (fun row => length row = width) (metadata.set_strided r0 c0 v a).
Proof.
  intros Ha. unfold metadata.set_strided. split; [by rewrite length_imap|].
  apply Forall_lookup. intros r row. rewrite list_lookup_imap.
  destruct (a !! r) as [row'|] eqn:E; simpl; [|done]. intros [= <-].
  eapply Forall_lookup in Ha; [|exact E].
  case_decide; [by rewrite length_imap | done].
Qed.

Lemma pixel_zeros (height width r c : nat) :
  r < height -> c < width ->
  metadata.pixel (replicate height (replicate width 0%Z)) r c = Some 0%Z.
Proof.
  intros Hr Hc. unfold metadata.pixel.
  rewrite lookup_replicate_2 by done. simpl. by rewrite lookup_replicate_2.
Qed.

Lemma bayer_map_shape_cells (height width : nat)
    (bayer_pattern bayer_map : list (list Z)) :
  metadata._generate_bayer_map height width bayer_pattern
    = metadata.Return bayer_map ->
  length bayer_map = height /\
  Forall (fun row => length row = width) bayer_map /\
  forall r c, r < height -> c < width ->
    exists v, metadata.pattern_at bayer_pattern (r mod 2) (c mod 2)
                = metadata.Return v /\
              metadata.pixel bayer_map r c = Some v.
Proof.
  unfold metadata._generate_bayer_map. cbv zeta.
  destruct (metadata.pattern_at bayer_pattern 0 0) as [p00|] eqn:E00;
    cbn [mbind metadata.outcome_bind]; [|done].
  destruct (metadata.pattern_at bayer_pattern 0 1) as [p01|] eqn:E01;
    cbn [mbind metadata.outcome_bind]; [|done].
  destruct (metadata.pattern_at bayer_pattern 1 0) as [p10|] eqn:E10;
    cbn [mbind metadata.outcome_bind]; [|done].
  destruct (metadata.pattern_at bayer_pattern 1 1) as [p11|] eqn:E11;
    cbn [mbind metadata.outcome_bind]; [|done].
  intros [= <-].
  assert (H0 : Forall (fun row : list Z => length row = width)
                 (replicate height (replicate width 0%Z))).
  { apply Forall_replicate. by rewrite length_replicate. }
  destruct (set_strided_shape 0 0 p00 _ _ H0) as [L1 H1].
  destruct (set_strided_shape 0 1 p01 _ _ H1) as [L2 H2].
  destruct (set_strided_shape 1 0 p10 _ _ H2) as [L3 H3].
  destruct (set_strided_shape 1 1 p11 _ _ H3) as [L4 H4].
  split; [by rewrite L4, L3, L2, L1, length_replicate|]. split; [done|].
  intros r c Hr Hc. rewrite !pixel_set_strided, pixel_zeros by done.
  cbn [fmap option_fmap option_map].
  pose proof (hits_even r) as R0. pose proof (hits_odd r) as R1.
  pose proof (hits_even c) as C0. pose proof (hits_odd c) as C1.
  pose proof (Nat.mod_upper_bound r 2 ltac:(lia)) as Br.
  pose proof (Nat.mod_upper_bound c 2 ltac:(lia)) as Bc.
  destruct (r mod 2) as [|[|?]] eqn:Er; [| |lia];
    (destruct (c mod 2) as [|[|?]] eqn:Ec; [| |lia]);
    repeat case_decide;
    first [ exfalso; intuition lia
          | eexists; split; [eassumption | reflexivity] ].
Qed.

Lemma bayer_map_follows_pattern_cells (height width : nat)
    (bayer_pattern bayer_map : list (list Z)) :
  metadata._generate_bayer_map height width bayer_pattern
    = metadata.Return bayer_map ->
  forall r c, r < height -> c < width ->
    exists v, metadata.pattern_at bayer_pattern (r mod 2) (c mod 2)
                = metadata.Return v /\
              metadata.pixel bayer_map r c = Some v.
Proof. intros H. by apply bayer_map_shape_cells in H as (_ & _ & H). Qed.

(** The Bayer map has the shape of the image, and the pixel in row [r]
    and column [c] holds the entry of the Bayer pattern in row [r mod 2]
    and column [c mod 2]. *)
Theorem bayer_map_follows_pattern (height width : nat)
    (bayer_pattern bayer_map : list (list Z)) :
  metadata._generate_bayer_map height width bayer_pattern
    = metadata.Return bayer_map ->
  length bayer_map = height /\
  Forall (fun row => length row = width) bayer_map /\
  forall r c, r < height -> c < width ->
    exists v, metadata.pattern_at bayer_pattern (r mod 2) (c mod 2)
                = metadata.Return v /\
              metadata.pixel bayer_map r c = Some v.
Proof. apply bayer_map_shape_cells. Qed.

Lemma bayer_map_follows_pattern_witness :
  length [[0; 1; 0]; [2; 3; 2]]%Z = 2 /\
  Forall (fun row => length row = 3) [[0; 1; 0]; [2; 3; 2]]%Z /\
  forall r c, r < 2 -> c < 3 ->
    exists v, metadata.pattern_at [[0; 1]; [2; 3]]%Z (r mod 2) (c mod 2)
                = metadata.Return v /\
              metadata.pixel [[0; 1; 0]; [2; 3; 2]]%Z r c = Some v.
Proof.
  apply (bayer_map_follows_pattern 2 3 [[0; 1]; [2; 3]]%Z). reflexivity.
Defined.

Lemma pixel_replace_equal (j bias_value : Z) (a : list (list Z)) (r c : nat) :
  metadata.pixel (metadata.replace_equal j bias_value a) r c =
    (fun x => if decide (x = j) then bias_value else x) <$> metadata.pixel a r c.
Proof.
  unfold metadata.pixel, metadata.replace_equal. rewrite list_lookup_fmap.
  destruct (a !! r) as [row|]; simpl; [|done]. by rewrite list_lookup_fmap.
Qed.

Lemma pixel_replace_channels (j : Z) (bias : list Z) (a : list (list Z)) (r c : nat) :
  metadata.pixel (metadata.replace_channels j bias a) r c =
    metadata.replace_value j bias <$> metadata.pixel a r c.
Proof.
  revert j a. induction bias as [|v rest IH]; intros j a; simpl.
  - by destruct (metadata.pixel a r c).
  - rewrite IH, pixel_replace_equal. by destruct (metadata.pixel a r c).
Qed.

(** the loop on one value, when no bias value is the number of a channel
    that the loop has still to visit *)
Lemma replace_value_no_collision (j : Z) (bias : list Z) (x : Z) :
  (forall i k, i < k -> k < length bias -> bias !! i <> Some (j + Z.of_nat k)%Z) ->
  metadata.replace_value j bias x =
    default x (if decide (j <= x)%Z then bias !! Z.to_nat (x - j) else None).
Proof.
  revert j x. induction bias as [|v rest IH]; intros j x Hfree; simpl.
  - by case_decide.
  - assert (Hrest : forall i k, i < k -> k < length rest ->
                      rest !! i <> Some (j + 1 + Z.of_nat k)%Z).
    { intros i k Hik Hk E. apply (Hfree (S i) (S k)); [lia | simpl; lia |].
      simpl. rewrite E. f_equal. lia. }
    rewrite (IH _ _ Hrest).
    destruct (decide (x = j)) as [->|Hne].
    + rewrite (decide_True (P := (j <= j)%Z)) by lia.
      replace (Z.to_nat (j - j)) with 0 by lia. simpl.
      destruct (decide (j + 1 <= v)%Z) as [Hv|Hv]; [|done].
      destruct (rest !! Z.to_nat (v - (j + 1))) as [y|] eqn:E; [|done].
      exfalso. apply lookup_lt_Some in E.
      apply (Hfree 0 (Z.to_nat (v - j))); [lia | simpl; lia |].
      simpl. f_equal. lia.
    + destruct (decide (j <= x)%Z) as [Hle|Hgt].
      * rewrite decide_True by lia.
        replace (Z.to_nat (x - j)) with (S (Z.to_nat (x - (j + 1)))) by lia.
        done.
      * by rewrite decide_False by lia.
Qed.

(** When no bias value is the number of a later channel, the bias map has
    at every pixel the bias of the channel that the Bayer pattern gives
    the pixel (the channel number itself where the metadata list no bias
    for it). *)
Theorem bias_map_by_channel (height width : nat)
    (bayer_pattern : list (list Z)) (bias : list Z) (bias_map : list (list Z)) :
  metadata.generate_bias_map height width bayer_pattern bias
    = metadata.Return bias_map ->
  (forall j k, j < k -> k < length bias -> bias !! j <> Some (Z.of_nat k)) ->
  forall r c, r < height -> c < width ->
    exists v, metadata.pattern_at bayer_pattern (r mod 2) (c mod 2)
                = metadata.Return v /\
              metadata.pixel bias_map r c
                = Some (default v (metadata.bias_of bias v)).
Proof.
  unfold metadata.generate_bias_map.
  destruct (metadata._generate_bayer_map height width bayer_pattern)
    as [bayer_map|] eqn:E; cbn [mbind metadata.outcome_bind]; [|done].
  intros [= <-] Hfree r c Hr Hc.
  destruct (bayer_map_follows_pattern_cells _ _ _ _ E r c Hr Hc) as (v & Hv & Hp).
  exists v. split; [done|].
  rewrite pixel_replace_channels, Hp. simpl. f_equal.
  rewrite replace_value_no_collision.
  - unfold metadata.bias_of. by rewrite Z.sub_0_r.
  - intros i k Hik Hk. rewrite Z.add_0_l. by apply Hfree.
Qed.

Lemma bias_map_by_channel_witness :
  exists v, metadata.pattern_at [[0; 1]; [2; 3]]%Z (1 mod 2) (0 mod 2)
              = metadata.Return v /\
            metadata.pixel [[528; 529]; [530; 531]]%Z 1 0
              = Some (default v (metadata.bias_of [528; 529; 530; 531]%Z v)).
Proof.
  apply (bias_map_by_channel 2 2 [[0; 1]; [2; 3]]%Z [528; 529; 530; 531]%Z
           [[528; 529]; [530; 531]]%Z).
  - reflexivity.
  - intros [|[|[|[|j]]]] k Hjk Hk; simpl in *; intros [= E]; lia.
  - lia.
  - lia.
Defined.

(** ** Exposure times *)

Lemma split_slash_no_slash (s : string) :
  metadata.has_slash s = false -> metadata.split_slash s = [s].
Proof.
  induction s as [|ch s IH]; simpl; [done|].
  destruct (Ascii.eqb ch "/") eqn:E; simpl; [done|].
  intros Hs. by rewrite (IH Hs).
Qed.

Lemma split_slash_fraction (num den : string) :
  metadata.has_slash num = false -> metadata.has_slash den = false ->
  metadata.split_slash (num +:+ String "/" den) = [num; den].
Proof.
  intros Hn Hd. induction num as [|ch num IH]; simpl.
  - by rewrite split_slash_no_slash.
  - simpl in Hn. destruct (Ascii.eqb ch "/") eqn:E; simpl in Hn; [done|].
    by rewrite (IH Hn).
Qed.

Lemma has_slash_app (a b : string) :
  metadata.has_slash (a +:+ b) = metadata.has_slash a || metadata.has_slash b.
Proof.
  induction a as [|ch a IH]; simpl; [done|]. by rewrite IH, orb_assoc.
Qed.

Lemma split_slash_ne (s : string) : 1 <= length (metadata.split_slash s).
Proof.
  induction s as [|ch s IH]; simpl; [lia|].
  destruct (Ascii.eqb ch "/"); simpl; [lia|].
  destruct (metadata.split_slash s); simpl in *; lia.
Qed.

Lemma split_slash_app_length (a s : string) :
  S (length (metadata.split_slash s))
    <= length (metadata.split_slash (a +:+ String "/" s)).
Proof.
  induction a as [|ch a IH]; simpl; [lia|].
  destruct (Ascii.eqb ch "/"); simpl; [lia|].
  destruct (metadata.split_slash (a +:+ String "/" s)); simpl in *; lia.
Qed.

Lemma floats_length (float_of_string : string -> option float)
    (pieces : list string) (values : list float) :
  metadata.floats float_of_string pieces = metadata.Return values ->
  length values = length pieces.
Proof.
  revert values. induction pieces as [|p pieces IH]; intros values; simpl.
  - by intros [= <-].
  - destruct (float_of_string p); [|done].
    destruct (metadata.floats float_of_string pieces) as [xs|]; simpl; [|done].
    intros [= <-]. simpl. f_equal. by apply IH.
Qed.

Lemma floats_raises (float_of_string : string -> option float)
    (pieces : list string) (e : metadata.exception) :
  metadata.floats float_of_string pieces = metadata.Except e ->
  e = metadata.ValueError.
Proof.
  induction pieces as [|p pieces IH]; simpl; [done|].
  destruct (float_of_string p); [|by intros [= <-]].
  destruct (metadata.floats float_of_string pieces) as [xs|e']; simpl; [done|].
  intros [= <-]. by apply IH.
Qed.

(** An exposure time given as a fraction, two strings without a slash
    around one slash, is the quotient of the two numbers; it is a
    ValueError when one of the two is not a number and a
    ZeroDivisionError when the denominator is 0. *)
Theorem exposure_fraction (float_of_string : string -> option float)
    (num den : string) :
  metadata.has_slash num = false ->
  metadata.has_slash den = false ->
  metadata._convert_exposure_time float_of_string
    (metadata.PyStr (num +:+ String "/" den)) =
  match float_of_string num, float_of_string den with
  | Some x, Some y =>
      match y with
      | Fin d => if Rzero d then metadata.Except metadata.ZeroDivisionError
                 else metadata.Return (metadata.PyFloat (fdiv x y))
      | _ => metadata.Return (metadata.PyFloat (fdiv x y))
      end
  | _, _ => metadata.Except metadata.ValueError
  end.
Proof.
  intros Hn Hd. unfold metadata._convert_exposure_time.
  assert (Hs : metadata.has_slash (num +:+ String "/" den) = true).
  { rewrite has_slash_app. simpl. by rewrite orb_true_r. }
  rewrite Hs, split_slash_fraction by done. simpl.
  destruct (float_of_string num) as [x|]; [|done].
  destruct (float_of_string den) as [y|]; simpl; [|done].
  unfold metadata.truediv. destruct y as [| |d]; simpl; try done.
  by destruct (Rzero d).
Qed.

Lemma exposure_fraction_witness :
  metadata._convert_exposure_time
    (fun s => if decide (s = "1") then Some (Fin 1)
              else if decide (s = "3") then Some (Fin 3) else None)
    (metadata.PyStr ("1" +:+ String "/" "3")) =
  match (if decide ("1" = "1") then Some (Fin 1)
         else if decide ("1" = "3") then Some (Fin 3) else None),
        (if decide ("3" = "1") then Some (Fin 1)
         else if decide ("3" = "3") then Some (Fin 3) else None) with
  | Some x, Some y =>
      match y with
      | Fin d => if Rzero d then metadata.Except metadata.ZeroDivisionError
                 else metadata.Return (metadata.PyFloat (fdiv x y))
      | _ => metadata.Return (metadata.PyFloat (fdiv x y))
      end
  | _, _ => metadata.Except metadata.ValueError
  end.
Proof.
  apply (exposure_fraction
           (fun s => if decide (s = "1") then Some (Fin 1)
                     else if decide (s = "3") then Some (Fin 3) else None)
           "1" "3").
  - reflexivity.
  - reflexivity.
Defined.

(** An exposure time with two slashes or more is a ValueError, whatever
    stands between them. *)
Theorem exposure_two_slashes (float_of_string : string -> option float)
    (a b c : string) :
  metadata._convert_exposure_time float_of_string
    (metadata.PyStr (a +:+ String "/" (b +:+ String "/" c)))
  = metadata.Except metadata.ValueError.
Proof.
  unfold metadata._convert_exposure_time.
  assert (Hs : metadata.has_slash (a +:+ String "/" (b +:+ String "/" c)) = true).
  { rewrite has_slash_app. simpl. by rewrite orb_true_r. }
  rewrite Hs.
  pose proof (split_slash_app_length a (b +:+ String "/" c)) as H1.
  pose proof (split_slash_app_length b c) as H2.
  pose proof (split_slash_ne c) as H3.
  destruct (metadata.floats float_of_string _) as [values|e] eqn:E.
  - apply floats_length in E. cbn [mbind metadata.outcome_bind].
    destruct values as [|x [|y [|z values]]]; simpl in E; try done; lia.
  - apply floats_raises in E as ->. done.
Qed.

(** An exposure time without a slash is the number that [float] reads,
    with or without a decimal point, and a number is returned as it is. *)
Lemma exposure_plain (float_of_string : string -> option float) (s : string) :
  metadata.has_slash s = false ->
  metadata._convert_exposure_time float_of_string (metadata.PyStr s) =
    match float_of_string s with
    | Some x => metadata.Return (metadata.PyFloat x)
    | None => metadata.Except metadata.ValueError
    end.
Proof. intros Hs. unfold metadata._convert_exposure_time. by rewrite Hs. Qed.

(** ** What the aligner accepts *)

Lemma broadcast_rows_Ok {A} (k : nat) (vals : list A) :
  broadcasts k vals ->
  exists vals', broadcast_rows k vals = Ok vals' /\ length vals' = k.
Proof.
  unfold broadcast_rows. intros Hb. case_decide as Hk; [by exists vals|].
  destruct Hb as [Hb|Hb]; [done|].
  destruct vals as [|v [|]]; simpl in Hb; try done.
  eexists. split; [done|]. by rewrite length_replicate.
Qed.

Lemma broadcast_rows_Raise {A} (k : nat) (vals : list A) :
  ~ broadcasts k vals -> broadcast_rows k vals = Raise ValueError.
Proof.
  unfold broadcast_rows, broadcasts. intros Hb. case_decide as Hk; [tauto|].
  destruct vals as [|v [|]]; simpl in *; try done. tauto.
Qed.

Lemma setitem_fancy_length {A} (acc acc' : list A) indices vals :
  setitem_fancy acc indices vals = Ok acc' -> length acc' = length acc.
Proof.
  unfold setitem_fancy. destruct (broadcast_rows _ _); simpl; [|done].
  apply setitems_length.
Qed.

Lemma setitem_fancy_on_grid_Ok (grid wvl : list R) (vals acc : arr2) :
  StronglySorted Rlt grid -> (forall v, v ∈ wvl -> v ∈ grid) ->
  length acc = length grid ->
  broadcasts (length wvl) vals ->
  raised (setitem_fancy acc (np_searchsorted grid <$> wvl) vals) = false.
Proof.
  intros Hgrid Hsub Hacc Hb.
  destruct (broadcast_rows_Ok _ _ Hb) as (vals' & E & Hlen).
  pose proof (setitems_on_grid_Ok grid wvl vals' acc Hgrid Hsub Hlen Hacc) as Hok.
  unfold setitem_fancy in *. rewrite length_fmap in *. rewrite E. simpl.
  rewrite <- Hlen in Hok at 1. by rewrite broadcast_rows_same in Hok.
Qed.

Lemma setitem_fancy_Raise {A} (acc : list A) indices vals :
  ~ broadcasts (length indices) vals ->
  setitem_fancy acc indices vals = Raise ValueError.
Proof. intros Hb. unfold setitem_fancy. by rewrite broadcast_rows_Raise. Qed.

Section RowLoopCases.

Context {X A B : Type} `{Inhabited A, Inhabited B}.
Variable F : X -> A -> result A.
Variable G : X -> B -> result B.
Variable body : nat -> X -> list A * list B -> result (list A * list B).
Hypothesis body_eq : forall i x st,
  body i x st =
    m ← F x (st.1 !!! i); s ← G x (st.2 !!! i); Ok (<[i:=m]> st.1, <[i:=s]> st.2).
Variable good : X -> Prop.
Variable E : exn.

(** a loop whose passes fail for the entries that are not [good], and
    then with [E], fails exactly when some entry is not [good] *)
Lemma for_enumerate_rows_cases (xs : list X) (k : nat) (st : list A * list B) :
  (forall i x, xs !! i = Some x ->
     (good x /\ raised (F x (st.1 !!! (k + i))) = false
             /\ raised (G x (st.2 !!! (k + i))) = false) \/
     (~ good x /\
      (_ ← F x (st.1 !!! (k + i)); G x (st.2 !!! (k + i))) = Raise E)) ->
  forall e, for_enumerate body k xs st = Raise e <->
            e = E /\ Exists (fun x => ~ good x) xs.
Proof.
  revert k st. induction xs as [|x xs IH]; intros k st Hxs e; simpl.
  - split; [done|]. intros [_ Hex]. inversion Hex.
  - rewrite body_eq. rewrite Exists_cons.
    destruct (Hxs 0 x eq_refl) as [(Hg & HF & HG)|(Hb & Hfail)];
      rewrite Nat.add_0_r in *.
    + destruct (F x (st.1 !!! k)) as [m|]; simpl in HF |- *; [|done].
      destruct (G x (st.2 !!! k)) as [s|]; simpl in HG |- *; [|done].
      rewrite IH.
      * split; [intros [-> Hex]; auto | intros [-> [Hx|Hex]]; [done | auto]].
      * intros i y Hy. simpl.
        rewrite !list_lookup_total_insert_ne by lia.
        specialize (Hxs (S i) y Hy). by rewrite Nat.add_succ_r in Hxs.
    + destruct (F x (st.1 !!! k)) as [m|e0]; simpl in Hfail |- *.
      * rewrite Hfail. simpl. split; [intros [= <-]; auto | by intros [-> _]].
      * injection Hfail as ->. split; [intros [= <-]; auto | by intros [-> _]].
Qed.

End RowLoopCases.

Section Aligner.

Variables (wavelengths : list (list R)) (means stds : list arr2).

Let grid := np_unique (concat wavelengths).
Let xs := zip (zip wavelengths means) stds.

Lemma align_grid_sorted : StronglySorted Rlt grid.
Proof. apply np_unique_sorted. Qed.

Lemma align_entries i x :
  xs !! i = Some x ->
  wavelengths !! i = Some x.1.1 /\ means !! i = Some x.1.2 /\ stds !! i = Some x.2.
Proof.
  intros Hx. unfold xs in Hx.
  apply lookup_zip_with_Some in Hx as (p & std & -> & Hp & Hstd).
  apply lookup_zip_with_Some in Hp as (wvl & mean & -> & Hwvl & Hmean). done.
Qed.

Lemma align_entries_on_grid i x v : xs !! i = Some x -> v ∈ x.1.1 -> v ∈ grid.
Proof.
  intros Hx Hv. unfold grid. rewrite elem_of_np_unique, elem_of_concat.
  exists x.1.1. split; [|done].
  apply (list_elem_of_lookup_2 _ i). by apply align_entries.
Qed.

Lemma align_entries_length : length xs <= length wavelengths.
Proof. unfold xs. rewrite !length_zip_with. lia. Qed.

(** the loop of the aligner on its initial arrays *)
Lemma align_loop_raises e :
  for_enumerate (align_body grid) 0 xs
    (full_nan (length wavelengths) (length grid),
     full_nan (length wavelengths) (length grid)) = Raise e
  <-> e = ValueError /\ Exists (fun x => ~ assignable x) xs.
Proof.
  apply (for_enumerate_rows_cases
           (fun (x : list R * arr2 * arr2) acc =>
              setitem_fancy acc (np_searchsorted grid <$> x.1.1) x.1.2)
           (fun (x : list R * arr2 * arr2) acc =>
              setitem_fancy acc (np_searchsorted grid <$> x.1.1) x.2)
           _ (align_body_eq grid)).
  intros i x Hx. simpl.
  assert (Hi : i < length wavelengths).
  { pose proof align_entries_length. apply lookup_lt_Some in Hx. lia. }
  rewrite full_nan_lookup by done.
  assert (Hok : forall vals : arr2, broadcasts (length x.1.1) vals ->
            raised (setitem_fancy (replicate (length grid) nan_row)
                      (np_searchsorted grid <$> x.1.1) vals) = false).
  { intros vals Hb. apply setitem_fancy_on_grid_Ok; try done.
    - apply align_grid_sorted.
    - intros v. by apply (align_entries_on_grid i).
    - by rewrite length_replicate. }
  assert (Hdec : forall vals : arr2,
            broadcasts (length x.1.1) vals \/ ~ broadcasts (length x.1.1) vals).
  { intros vals. unfold broadcasts.
    destruct (decide (length vals = length x.1.1)); [tauto|].
    destruct (decide (length vals = 1)); tauto. }
  destruct (Hdec x.1.2) as [Hm|Hm]; [destruct (Hdec x.2) as [Hs|Hs]|].
  - left. split; [done|]. split; by apply Hok.
  - right. split; [by intros [_ ?]|].
    destruct (raised_false _ (Hok _ Hm)) as [m ->]. simpl.
    apply setitem_fancy_Raise. by rewrite length_fmap.
  - right. split; [by intros [? _]|].
    rewrite (setitem_fancy_Raise _ (np_searchsorted grid <$> x.1.1) x.1.2);
      [done | by rewrite length_fmap].
Qed.

Lemma align_loop_shape st :
  for_enumerate (align_body grid) 0 xs
    (full_nan (length wavelengths) (length grid),
     full_nan (length wavelengths) (length grid)) = Ok st ->
  has_shape (length wavelengths) (length grid) st.1 /\
  has_shape (length wavelengths) (length grid) st.2.
Proof.
  intros Hrun.
  pose proof align_entries_length as Hlen.
  apply (for_enumerate_rows
           (fun (x : list R * arr2 * arr2) acc =>
              setitem_fancy acc (np_searchsorted grid <$> x.1.1) x.1.2)
           (fun (x : list R * arr2 * arr2) acc =>
              setitem_fancy acc (np_searchsorted grid <$> x.1.1) x.2)
           _ (align_body_eq grid)) in Hrun; simpl;
    unfold full_nan; rewrite ?length_replicate; [|lia..].
  simpl in Hrun. unfold full_nan in Hrun. rewrite !length_replicate in Hrun.
  destruct Hrun as (Hl1 & Hl2 & Hout & Hin).
  assert (Hrow : forall j, j < length wavelengths ->
            exists m s, st.1 !! j = Some m /\ st.2 !! j = Some s /\
                        length m = length grid /\ length s = length grid).
  { intros j Hj. destruct (decide (j < length xs)) as [Hlt|Hge].
    - destruct (lookup_lt_is_Some_2 xs j Hlt) as [x Hx].
      destruct (Hin j x Hx) as (m & s & EF & EG & Em & Es). simpl in *.
      exists m, s. split; [done|]. split; [done|].
      apply setitem_fancy_length in EF, EG.
      rewrite (list_lookup_total_correct _ _ (replicate (length grid) nan_row))
        in EF, EG by by apply lookup_replicate_2.
      by rewrite length_replicate in EF, EG.
    - destruct (Hout j) as [E1 E2]; [lia|].
      exists (replicate (length grid) nan_row), (replicate (length grid) nan_row).
      rewrite E1, E2, lookup_replicate_2 by done.
      by rewrite length_replicate. }
  split; (split; [done|]); apply Forall_lookup; intros j s Hs.
  - destruct (Hrow j) as (m' & s' & E1 & E2 & H1 & H2).
    { rewrite <- Hl1. by eapply lookup_lt_Some. }
    congruence.
  - destruct (Hrow j) as (m' & s' & E1 & E2 & H1 & H2).
    { rewrite <- Hl2. by eapply lookup_lt_Some. }
    congruence.
Qed.

End Aligner.

Lemma align_shape (wavelengths : list (list R)) (means stds : list arr2) (sp : spectra) :
  align wavelengths means stds = Ok sp ->
  wavelengths <> [] /\
  all_wavelengths sp = np_unique (concat wavelengths) /\
  has_shape (length wavelengths) (length (all_wavelengths sp)) (all_means sp) /\
  has_shape (length wavelengths) (length (all_wavelengths sp)) (all_stds sp).
Proof.
  unfold align. destruct wavelengths as [|wvl0 rest] eqn:Ew; [done|]. rewrite <- Ew.
  assert (Hcat : np_concatenate wavelengths = Ok (concat wavelengths)) by by rewrite Ew.
  rewrite Hcat. cbn [mbind result_bind]. cbv zeta.
  destruct (for_enumerate _ _ _ _) as [st|] eqn:Hrun; simpl; [|done].
  intros [= <-]. simpl. split; [by rewrite Ew|]. split; [done|].
  exact (align_loop_shape wavelengths means stds st Hrun).
Qed.

Lemma align_raises_cases (wavelengths : list (list R)) (means stds : list arr2)
    (e : exn) :
  align wavelengths means stds = Raise e <->
  e = ValueError /\
  (wavelengths = [] \/
   Exists (fun x => ~ assignable x) (zip (zip wavelengths means) stds)).
Proof.
  unfold align. destruct wavelengths as [|wvl0 rest] eqn:Ew.
  - simpl. split; [intros [= <-]; auto | by intros [-> _]].
  - rewrite <- Ew.
    assert (Hcat : np_concatenate wavelengths = Ok (concat wavelengths)) by by rewrite Ew.
    rewrite Hcat. cbn [mbind result_bind]. cbv zeta.
    pose proof (align_loop_raises wavelengths means stds) as Hloop.
    destruct (for_enumerate _ _ _ _) as [st|e'] eqn:Hrun; simpl.
    + split; [done|]. intros [-> [Hnil|Hex]]; [by rewrite Ew in Hnil|].
      destruct (Hloop ValueError) as [_ H2]. by specialize (H2 (conj eq_refl Hex)).
    + split.
      * intros [= <-]. destruct (Hloop e') as [H1 _].
        destruct (H1 eq_refl) as [-> Hex]. auto.
      * intros [-> [Hnil|Hex]]; [by rewrite Ew in Hnil|].
        destruct (Hloop ValueError) as [_ H2].
        specialize (H2 (conj eq_refl Hex)). by injection H2 as ->.
Qed.

(** The aligner fails exactly when there is no spectrum at all, or when
    the mean or the std of some spectrum has a number of rows that is
    neither the number of its wavelengths nor one; the error is then a
    ValueError.  In particular no index is ever out of bounds. *)
Theorem align_raises_iff (wavelengths : list (list R)) (means stds : list arr2)
    (e : exn) :
  align wavelengths means stds = Raise e <->
  e = ValueError /\
  (wavelengths = [] \/
   Exists (fun x => ~ assignable x) (zip (zip wavelengths means) stds)).
Proof. apply align_raises_cases. Qed.

(** ** Shapes are kept by every stage *)

Section RowLoopShape.

Context {X A B : Type} `{Inhabited A, Inhabited B}.
Variable F : X -> A -> result A.
Variable G : X -> B -> result B.
Variable body : nat -> X -> list A * list B -> result (list A * list B).
Hypothesis body_eq : forall i x st,
  body i x st =
    m ← F x (st.1 !!! i); s ← G x (st.2 !!! i); Ok (<[i:=m]> st.1, <[i:=s]> st.2).
Variable P : A -> Prop.
Variable Q : B -> Prop.
Hypothesis F_keeps : forall x a m, P a -> F x a = Ok m -> P m.
Hypothesis G_keeps : forall x b s, Q b -> G x b = Ok s -> Q s.

Lemma for_enumerate_rows_Forall (xs : list X) (k : nat) (st st' : list A * list B) :
  for_enumerate body k xs st = Ok st' ->
  Forall P st.1 -> Forall Q st.2 ->
  length st'.1 = length st.1 /\ length st'.2 = length st.2 /\
  Forall P st'.1 /\ Forall Q st'.2.
Proof.
  revert k st. induction xs as [|x xs IH]; intros k st; simpl.
  - by intros [= <-].
  - rewrite body_eq.
    destruct (F x (st.1 !!! k)) as [m|] eqn:EF; simpl; [|done].
    destruct (G x (st.2 !!! k)) as [s|] eqn:EG; simpl; [|done].
    intros Hrun HP HQ. apply IH in Hrun; simpl.
    + simpl in Hrun. by rewrite !length_insert in Hrun.
    + destruct (decide (k < length st.1)) as [Hk|Hk].
      * apply Forall_insert; [done|]. eapply F_keeps; [|exact EF].
        eapply Forall_lookup_1; [exact HP|]. by apply list_lookup_lookup_total_lt.
      * by rewrite list_insert_ge by lia.
    + destruct (decide (k < length st.2)) as [Hk|Hk].
      * apply Forall_insert; [done|]. eapply G_keeps; [|exact EG].
        eapply Forall_lookup_1; [exact HQ|]. by apply list_lookup_lookup_total_lt.
      * by rewrite list_insert_ge by lia.
Qed.

End RowLoopShape.

Lemma has_shape_row (n L : nat) (a : arr3) (i : nat) :
  has_shape n L a -> i < n -> length (a !!! i) = L.
Proof.
  intros [Hn HL] Hi.
  apply (Forall_lookup_1 (fun s : arr2 => length s = L) a i); [done|].
  apply list_lookup_lookup_total_lt. lia.
Qed.

Lemma has_shape_lookup (n L : nat) (a : arr3) (i : nat) (s : arr2) :
  has_shape n L a -> a !! i = Some s -> length s = L.
Proof.
  intros [Hn HL] Hi.
  by apply (Forall_lookup_1 (fun s : arr2 => length s = L) a i).
Qed.

Lemma calibrate_one_Ok (grid : list R) (cal : calibration) (x acc : arr2) :
  length x = length grid -> length acc = length grid ->
  raised (calibrate_one grid cal x acc) = false.
Proof.
  intros Hx Hacc. unfold calibrate_one, np_intersect1d. cbv zeta.
  set (common := filter _ _).
  set (ci := (fun v => index_of v cal.*1) <$> common).
  set (gi := (fun v => index_of v grid) <$> common).
  assert (Hcommon : forall v, v ∈ common <-> v ∈ cal.*1 /\ v ∈ grid).
  { intros v. unfold common. rewrite list_elem_of_filter, elem_of_np_unique. tauto. }
  assert (Hgi : Forall (fun g => g < length grid) gi).
  { unfold gi. apply Forall_fmap, Forall_forall. intros v [_ Hv]%Hcommon. simpl.
    eapply lookup_lt_Some. by apply index_of_elem_of. }
  destruct (raised_false (np_take x gi)) as [rows Ex].
  { apply np_take_Ok. by rewrite Hx. }
  destruct (raised_false (np_take cal.*2 ci)) as [factors Ef].
  { apply np_take_Ok. unfold ci. apply Forall_fmap, Forall_forall.
    intros v [Hv _]%Hcommon. simpl.
    assert (Hl : length cal.*2 = length cal.*1) by by rewrite !length_fmap.
    rewrite Hl. eapply lookup_lt_Some. by apply index_of_elem_of. }
  rewrite Ex, Ef. cbn [mbind result_bind].
  apply np_take_spec in Ex, Ef.
  apply Forall2_length in Ex, Ef.
  assert (length ci = length gi) by (unfold ci, gi; by rewrite !length_fmap).
  rewrite setitem_fancy_same_length by (rewrite length_zip_with; lia).
  apply setitems_Ok, Forall_forall. intros [g r] Hin%elem_of_zip_l. simpl.
  rewrite Hacc. by eapply Forall_forall in Hgi.
Qed.

Lemma calibrate_one_length (grid : list R) (cal : calibration) (x acc r : arr2) :
  calibrate_one grid cal x acc = Ok r -> length r = length acc.
Proof.
  unfold calibrate_one. destruct (np_intersect1d _ _) as [[? ci] gi].
  destruct (np_take x gi); simpl; [|done].
  destruct (np_take cal.*2 ci); simpl; [|done].
  apply setitem_fancy_length.
Qed.

Lemma full_like_nan_shape (a : arr3) (n L : nat) :
  has_shape n L a -> has_shape n L (full_like_nan a).
Proof.
  intros [Hn HL]. unfold full_like_nan. split; [by rewrite length_fmap|].
  apply Forall_fmap. eapply Forall_impl; [exact HL|]. intros s Hs. simpl.
  by rewrite length_replicate.
Qed.

(** spectra of the shape the aligner gives are calibrated without an
    error, whatever the calibration files hold, and keep their shape *)
Lemma calibrate_on_grid (sp : spectra) (cals : list calibration) (n : nat) :
  has_shape n (length (all_wavelengths sp)) (all_means sp) ->
  has_shape n (length (all_wavelengths sp)) (all_stds sp) ->
  exists mc sc, calibrate sp cals = Ok (mc, sc) /\
    has_shape n (length (all_wavelengths sp)) mc /\
    has_shape n (length (all_wavelengths sp)) sc.
Proof.
  intros Hm Hs. pose proof (full_like_nan_shape _ _ _ Hm) as Hinit.
  unfold calibrate. cbv zeta.
  set (grid := all_wavelengths sp) in *.
  set (xs := zip (zip (all_means sp) (all_stds sp)) cals).
  set (init := full_like_nan (all_means sp)) in *.
  destruct (raised_false (for_enumerate (calibrate_body grid) 0 xs (init, init)))
    as [[mc sc] Hrun].
  { apply (for_enumerate_rows_Ok
             (fun x a => calibrate_one grid x.2 x.1.1 a)
             (fun x b => calibrate_one grid x.2 x.1.2 b)
             _ (calibrate_body_eq grid)).
    intros i [[mean std] cal] Hx. simpl.
    unfold xs in Hx. apply lookup_zip_with_Some in Hx as (p & cal' & [= <- <-] & Hp & _).
    apply lookup_zip_with_Some in Hp as (mean' & std' & [= <- <-] & Hmean & Hstd).
    assert (Hrow : length (init !!! i) = length grid).
    { apply (has_shape_row n); [done|]. destruct Hm as [<- _].
      by eapply lookup_lt_Some. }
    split; apply calibrate_one_Ok; try done.
    - by apply (has_shape_lookup n _ (all_means sp) i).
    - by apply (has_shape_lookup n _ (all_stds sp) i). }
  exists mc, sc. split; [done|].
  apply (for_enumerate_rows_Forall
           (fun x a => calibrate_one grid x.2 x.1.1 a)
           (fun x b => calibrate_one grid x.2 x.1.2 b)
           _ (calibrate_body_eq grid)
           (fun s => length s = length grid) (fun s => length s = length grid))
    in Hrun; simpl in *.
  - destruct Hrun as (H1 & H2 & H3 & H4). destruct Hinit as [Hin HiL].
    unfold has_shape. by rewrite H1, H2, Hin.
  - intros x a m Ha Hr. apply calibrate_one_length in Hr. congruence.
  - intros x a m Ha Hr. apply calibrate_one_length in Hr. congruence.
  - by destruct Hinit.
  - by destruct Hinit.
Qed.

Section NormaliserShape.

Variable lstsq : list R -> list (chan4 float) -> nat -> option (list (chan4 float)).
Variable grid : list R.
Variables cal_m cal_s : arr3.
Variable n : nat.
Hypothesis Hm : has_shape n (length grid) cal_m.
Hypothesis Hs : has_shape n (length grid) cal_s.

Lemma normalise_body_shape overlaps baseline i st st' :
  has_shape n (length grid) (all_means_normalised st) /\
  has_shape n (length grid) (all_stds_normalised st) ->
  normalise_body lstsq grid cal_m cal_s overlaps baseline i st = Ok st' ->
  has_shape n (length grid) (all_means_normalised st') /\
  has_shape n (length grid) (all_stds_normalised st').
Proof.
  intros [[Hmn HmL] [Hsn HsL]]. unfold normalise_body.
  destruct (if decide _ then _ else _) as [comparison|]; simpl; [|done].
  destruct (np_polyfit _ _ _ _) as [fits|]; simpl; [|done].
  intros [= <-]. simpl.
  set (fit_norms := (fun w => tab4 (fun c => np_polyval (get c <$> fits) w)) <$> grid).
  assert (Hfit : length fit_norms = length grid) by (unfold fit_norms; by rewrite length_fmap).
  unfold has_shape. rewrite !length_insert.
  split; (split; [done|]).
  - destruct (decide (i < n)) as [Hi|Hi]; [|by rewrite list_insert_ge by lia].
    apply Forall_insert; [done|]. unfold zip2d. rewrite length_zip_with, Hfit.
    assert (length (cal_m !!! i) = length grid); [|lia].
    by apply (has_shape_row n).
  - destruct (decide (i < n)) as [Hi|Hi]; [|by rewrite list_insert_ge by lia].
    apply Forall_insert; [done|]. unfold zip2d. rewrite length_zip_with, Hfit.
    assert (length (cal_s !!! i) = length grid); [|lia].
    by apply (has_shape_row n).
Qed.

Lemma normalise_shape st :
  normalise lstsq grid cal_m cal_s = Ok st ->
  has_shape n (length grid) (all_means_normalised st) /\
  has_shape n (length grid) (all_stds_normalised st).
Proof.
  unfold normalise. destruct (baseline_of cal_m) as [baseline|]; simpl; [|done].
  apply (for_each_inv _ (fun st => has_shape n (length grid) (all_means_normalised st) /\
                                   has_shape n (length grid) (all_stds_normalised st))).
  - intros x s s'. apply normalise_body_shape.
  - done.
Qed.

End NormaliserShape.

Lemma flat_means_mask_length (mn sn : arr3) (n L : nat) :
  0 < n -> has_shape n L mn -> has_shape n L sn ->
  length (flat_means_mask mn sn) = L.
Proof.
  intros Hn [Hmn HmL] [Hsn HsL].
  destruct mn as [|m0 mn]; [simpl in *; lia|].
  destruct sn as [|s0 sn]; [simpl in *; lia|].
  apply Forall_cons in HmL as [H1 _]. apply Forall_cons in HsL as [H2 _].
  unfold flat_means_mask, ma_average, weights, zip3d, map3d, axis0. simpl.
  unfold zip2d, map2d.
  rewrite ?length_zip_with, ?length_imap, ?length_zip_with, ?length_fmap,
    ?length_zip_with, ?length_fmap, ?length_zip_with, ?length_fmap.
  lia.
Qed.

Lemma flat_errs_mask_length (mn sn : arr3) (n L : nat) :
  0 < n -> has_shape n L mn -> has_shape n L sn ->
  length (flat_errs_mask mn sn) = L.
Proof.
  intros Hn [Hmn HmL] [Hsn HsL].
  destruct mn as [|m0 mn]; [simpl in *; lia|].
  destruct sn as [|s0 sn]; [simpl in *; lia|].
  apply Forall_cons in HmL as [H1 _]. apply Forall_cons in HsL as [H2 _].
  unfold flat_errs_mask, weights, zip3d, map3d, axis0. simpl.
  unfold zip2d, map2d.
  rewrite ?length_fmap, ?length_imap, ?length_fmap, ?length_zip_with, ?length_fmap,
    ?length_zip_with, ?length_imap, ?length_fmap, ?length_zip_with, ?length_fmap.
  lia.
Qed.

Lemma combine_shape (mn sn : arr3) (n L : nat) (cmb : combined) :
  0 < n -> has_shape n L mn -> has_shape n L sn ->
  combine mn sn = Ok cmb ->
  0 < L /\ length (response_normalised cmb) = L /\ length (errors_normalised cmb) = L.
Proof.
  intros Hn Hm Hs. unfold combine. cbv zeta.
  pose proof (flat_means_mask_length mn sn n L Hn Hm Hs) as H1.
  pose proof (flat_errs_mask_length mn sn n L Hn Hm Hs) as H2.
  destruct (ma_max _) as [flat_max|] eqn:E; simpl; [|done].
  intros [= <-]. simpl. unfold map2d. rewrite !length_fmap.
  split; [|done].
  destruct L as [|L]; [|lia].
  apply nil_length_inv in H1. rewrite H1 in E. done.
Qed.

(** ** Errors of the normaliser and of the combiner *)

Lemma for_each_Raise {X St} (body : X -> St -> result St) (xs : list X) (st : St) e :
  for_each body xs st = Raise e -> exists x s, x ∈ xs /\ body x s = Raise e.
Proof.
  revert st. induction xs as [|x xs IH]; intros st; simpl; [done|].
  destruct (body x st) as [s|e'] eqn:E; simpl.
  - intros (y & s' & Hy & Hr)%IH. exists y, s'. split; [by constructor | done].
  - intros [= <-]. exists x, st. split; [constructor | done].
Qed.

Lemma normalise_order_bounds (cal : arr3) (baseline i : nat) :
  baseline < length cal ->
  i ∈ normalise_order_of cal baseline -> i < length cal /\ 2 <= length cal.
Proof.
  intros Hb. unfold normalise_order_of, slice_from_m2_reversed.
  set (a := np_argsort (all_overlaps cal !!! baseline)).
  assert (Hlen : length a = length cal).
  { unfold a. by rewrite np_argsort_length, all_overlaps_row_length. }
  rewrite elem_of_reverse. intros Hin. split.
  - rewrite <- (all_overlaps_row_length cal baseline Hb).
    apply elem_of_np_argsort. fold a.
    rewrite <- (take_drop (length a - 1) a). apply elem_of_app. by left.
  - destruct (decide (2 <= length cal)); [done|].
    replace (length a - 1) with 0 in Hin by lia. by apply elem_of_nil in Hin.
Qed.

Lemma normalise_body_errors lstsq (grid : list R) (cal_m cal_s : arr3)
    baseline i st e :
  i < length cal_m -> 2 <= length cal_m ->
  normalise_body lstsq grid cal_m cal_s (all_overlaps cal_m) baseline i st = Raise e ->
  e = TypeError \/ e = LinAlgError.
Proof.
  intros Hi Hn. unfold normalise_body.
  assert (Hcmp : exists comparison,
            (if decide ((all_overlaps cal_m !!! i) !!! baseline ≠ 0) then Ok baseline
             else getitem_from_end (np_argsort (all_overlaps cal_m !!! i)) 2)
            = Ok comparison).
  { case_decide; [eauto|]. unfold getitem_from_end, getitem.
    assert (Hlen : length (np_argsort (all_overlaps cal_m !!! i)) = length cal_m)
      by by rewrite np_argsort_length, all_overlaps_row_length.
    rewrite decide_True by lia.
    destruct (lookup_lt_is_Some_2 (np_argsort (all_overlaps cal_m !!! i))
                (length (np_argsort (all_overlaps cal_m !!! i)) - 2)) as [c ->]; [lia|].
    eauto. }
  destruct Hcmp as [comparison ->]. cbn [mbind result_bind].
  unfold np_polyfit. destruct (mask_select _ grid); simpl; [intros [= <-]; auto|].
  destruct (lstsq _ _ _); simpl; [done | intros [= <-]; auto].
Qed.

(** the normaliser fails with a ValueError only when there is no
    spectrum, and otherwise only in a fit *)
Lemma normalise_errors lstsq (grid : list R) (cal_m cal_s : arr3) e :
  normalise lstsq grid cal_m cal_s = Raise e ->
  e = ValueError /\ cal_m = [] \/ e = TypeError \/ e = LinAlgError.
Proof.
  unfold normalise. destruct (baseline_of cal_m) as [baseline|e'] eqn:Hb; simpl.
  - apply baseline_of_spec in Hb as [Hb _].
    intros Hrun. apply for_each_Raise in Hrun as (i & s & Hi & Hr).
    apply normalise_order_bounds in Hi as [Hi Hn]; [|done].
    right. exact (normalise_body_errors _ _ _ _ _ _ _ _ Hi Hn Hr).
  - intros [= <-]. left. unfold baseline_of, np_argmax in Hb.
    destruct cal_m; [by injection Hb as <- | done].
Qed.

Lemma combine_errors (mn sn : arr3) e :
  combine mn sn = Raise e -> e = ValueError /\ flat_means_mask mn sn = [].
Proof.
  unfold combine. cbv zeta. unfold ma_max.
  destruct (flat_means_mask mn sn) as [|r rows]; simpl; [by intros [= <-]|].
  destruct (filter _ _); done.
Qed.

Lemma np_unique_nil (l : list R) : np_unique l = [] -> l = [].
Proof.
  intros Hnil. destruct l as [|x l]; [done|].
  assert (Hx : x ∈ np_unique (x :: l)) by (apply elem_of_np_unique; constructor).
  rewrite Hnil in Hx. by apply elem_of_nil in Hx.
Qed.

(** ** The whole script *)

(** After the alignment the calibration cannot fail, whatever the
    calibration files hold (wavelengths off the grid, repeated
    wavelengths, fewer files than spectra): every index it uses is within
    bounds, and the calibrated arrays have the shape of the aligned ones,
    one spectrum per setting and one row per wavelength of the grid. *)
Theorem calibrate_after_align_succeeds
    (wavelengths : list (list R)) (means stds : list arr2)
    (cals : list calibration) (sp : spectra) :
  align wavelengths means stds = Ok sp ->
  exists all_means_calibrated all_stds_calibrated,
    calibrate sp cals = Ok (all_means_calibrated, all_stds_calibrated) /\
    has_shape (length wavelengths) (length (all_wavelengths sp)) all_means_calibrated /\
    has_shape (length wavelengths) (length (all_wavelengths sp)) all_stds_calibrated.
Proof.
  intros (_ & _ & Hm & Hs)%align_shape. by apply calibrate_on_grid.
Qed.

Lemma spectral_response_stages lstsq (wavelengths : list (list R))
    (means stds : list arr2) (cals : list calibration) (sp : spectra) :
  align wavelengths means stds = Ok sp ->
  exists mc sc,
    has_shape (length wavelengths) (length (all_wavelengths sp)) mc /\
    has_shape (length wavelengths) (length (all_wavelengths sp)) sc /\
    spectral_response lstsq wavelengths means stds cals =
      nrm ← normalise lstsq (all_wavelengths sp) mc sc;
      cmb ← combine (all_means_normalised nrm) (all_stds_normalised nrm);
      Ok (Curve (all_wavelengths sp) (response_normalised cmb) (errors_normalised cmb)).
Proof.
  intros Hal. pose proof Hal as (_ & _ & Hm & Hs)%align_shape.
  destruct (calibrate_on_grid sp cals _ Hm Hs) as (mc & sc & Hcal & Hmc & Hsc).
  exists mc, sc. split; [done|]. split; [done|].
  unfold spectral_response. rewrite Hal. cbn [mbind result_bind].
  rewrite Hcal. done.
Qed.

Lemma spectral_response_shape lstsq (wavelengths : list (list R))
    (means stds : list arr2) (cals : list calibration) (c : curve) :
  spectral_response lstsq wavelengths means stds cals = Ok c ->
  curve_wavelengths c = np_unique (concat wavelengths) /\
  curve_wavelengths c <> [] /\
  length (curve_response c) = length (curve_wavelengths c) /\
  length (curve_errors c) = length (curve_wavelengths c).
Proof.
  destruct (align wavelengths means stds) as [sp|] eqn:Hal;
    [|unfold spectral_response; by rewrite Hal].
  destruct (spectral_response_stages lstsq _ _ _ cals sp Hal) as (mc & sc & Hmc & Hsc & ->).
  apply align_shape in Hal as (Hne & Hgrid & _ & _).
  assert (Hn : 0 < length wavelengths) by (destruct wavelengths; simpl; [done | lia]).
  destruct (normalise _ _ _ _) as [nrm|] eqn:Hnrm; simpl; [|done].
  apply (normalise_shape _ _ _ _ _ Hmc Hsc) in Hnrm as [Hmn Hsn].
  destruct (combine _ _) as [cmb|] eqn:Hcmb; simpl; [|done].
  apply (combine_shape _ _ _ _ _ Hn Hmn Hsn) in Hcmb as (HL & Hr & He).
  intros [= <-]. simpl. split; [done|]. split; [|done].
  intros Hnil. rewrite Hnil in HL. simpl in HL. lia.
Qed.

(** When the script runs through, the wavelengths of the curve are the
    distinct wavelengths of the input, there is at least one, the
    response and its error have one row for each of them, and therefore
    the array of the curve can be stacked and saved. *)
Theorem response_rows_match_grid lstsq (wavelengths : list (list R))
    (means stds : list arr2) (cals : list calibration) (c : curve) :
  spectral_response lstsq wavelengths means stds cals = Ok c ->
  curve_wavelengths c = np_unique (concat wavelengths) /\
  curve_wavelengths c <> [] /\
  length (curve_response c) = length (curve_wavelengths c) /\
  length (curve_errors c) = length (curve_wavelengths c) /\
  exists final_curves,
    stack_curve (curve_wavelengths c) (curve_response c) (curve_errors c)
      = Ok final_curves.
Proof.
  intros (Hw & Hne & Hr & He)%spectral_response_shape.
  repeat (split; [done|]).
  unfold stack_curve, np_stack, transpose_channels. cbn [fmap list_fmap app].
  rewrite decide_True; [eauto|].
  rewrite !Forall_cons, !length_fmap. repeat split; done.
Qed.

(** The script never fails with an index out of bounds.  A ValueError
    has one of three causes: there is no spectrum, the mean or the std
    of a spectrum does not have one row per wavelength (or a single
    row), or the spectra have no wavelength at all; every other failure
    comes from a fit of the normaliser. *)
Theorem spectral_response_errors lstsq (wavelengths : list (list R))
    (means stds : list arr2) (cals : list calibration) (e : exn) :
  spectral_response lstsq wavelengths means stds cals = Raise e ->
  e = ValueError /\
    (wavelengths = [] \/
     Exists (fun x => ~ assignable x) (zip (zip wavelengths means) stds) \/
     concat wavelengths = []) \/
  e = TypeError \/ e = LinAlgError.
Proof.
  destruct (align wavelengths means stds) as [sp|e'] eqn:Hal.
  - destruct (spectral_response_stages lstsq _ _ _ cals sp Hal)
      as (mc & sc & Hmc & Hsc & ->).
    apply align_shape in Hal as (Hne & Hgrid & _ & _).
    assert (Hn : 0 < length wavelengths) by (destruct wavelengths; simpl; [done | lia]).
    destruct (normalise _ _ _ _) as [nrm|e1] eqn:Hnrm; simpl.
    + apply (normalise_shape _ _ _ _ _ Hmc Hsc) in Hnrm as [Hmn Hsn].
      intros Hcmb.
      destruct (combine _ _) as [cmb|e2] eqn:Ecmb; simpl in Hcmb; [done|].
      injection Hcmb as ->. apply combine_errors in Ecmb as [-> Hnil].
      left. split; [done|]. right. right.
      apply np_unique_nil. rewrite <- Hgrid. apply nil_length_inv.
      rewrite <- (flat_means_mask_length _ _ _ _ Hn Hmn Hsn).
      by rewrite Hnil.
    + intros [= <-]. apply normalise_errors in Hnrm as [[-> Hnil]|Hfit]; [|tauto].
      destruct Hmc as [Hlen _]. rewrite Hnil in Hlen. simpl in Hlen. lia.
  - unfold spectral_response. rewrite Hal. simpl. intros [= <-].
    apply align_raises_cases in Hal as [-> [Hnil|Hex]]; left; (split; [done|]); tauto.
Qed.

(** ** Example runs *)

Ltac Rdecide :=
  repeat match goal with
  | |- context [Rlt_dec ?a ?b] => destruct (Rlt_dec a b); try lra
  | |- context [Req_dec_T ?a ?b] => destruct (Req_dec_T a b); try lra
  end.

Lemma np_unique_pair : np_unique [1; 2]%R = [1; 2]%R.
Proof. unfold np_unique. simpl. by Rdecide. Qed.

Lemma np_unique_repeated : np_unique [1; 1]%R = [1%R].
Proof. unfold np_unique. simpl. by Rdecide. Qed.

Lemma np_searchsorted_pair :
  np_searchsorted [1; 2]%R <$> [1; 2]%R = [0; 1].
Proof. simpl. by Rdecide. Qed.

Lemma np_searchsorted_repeated :
  np_searchsorted [1%R] <$> [1; 1]%R = [0; 0].
Proof. simpl. by Rdecide. Qed.

Lemma align_one_spectrum :
  align [[1; 2]]%R [[all4 (Fin 6); all4 (Fin 8)]] [[all4 (Fin 2); all4 (Fin 4)]]
    = Ok one_spectrum.
Proof.
  unfold align. cbn [np_concatenate concat app mbind result_bind]. cbv zeta.
  rewrite np_unique_pair. cbn [zip zip_with for_enumerate]. unfold align_body.
  rewrite np_searchsorted_pair. reflexivity.
Qed.

Lemma align_repeated :
  align repeated_wavelengths repeated_means repeated_stds
    = Ok (Spectra [1%R] [[all4 (Fin 20)]] [[all4 (Fin 2)]]).
Proof.
  unfold align, repeated_wavelengths, repeated_means, repeated_stds.
  cbn [np_concatenate concat app mbind result_bind]. cbv zeta.
  rewrite np_unique_repeated. cbn [zip zip_with for_enumerate]. unfold align_body.
  rewrite np_searchsorted_repeated. reflexivity.
Qed.

Lemma mismatch_raises :
  spectral_response constant_fit [[1; 2]]%R
    [[all4 (Fin 6); all4 (Fin 8); all4 (Fin 9)]] [[all4 (Fin 2); all4 (Fin 4)]] []
    = Raise ValueError.
Proof.
  unfold spectral_response, align.
  cbn [np_concatenate concat app mbind result_bind]. cbv zeta.
  rewrite np_unique_pair. cbn [zip zip_with for_enumerate]. unfold align_body.
  rewrite np_searchsorted_pair. reflexivity.
Qed.

Lemma calibrate_after_align_succeeds_witness :
  exists all_means_calibrated all_stds_calibrated,
    calibrate one_spectrum [one_cal] = Ok (all_means_calibrated, all_stds_calibrated) /\
    has_shape (length [[1; 2]]%R) (length (all_wavelengths one_spectrum))
      all_means_calibrated /\
    has_shape (length [[1; 2]]%R) (length (all_wavelengths one_spectrum))
      all_stds_calibrated.
Proof.
  apply (calibrate_after_align_succeeds [[1; 2]]%R
           [[all4 (Fin 6); all4 (Fin 8)]] [[all4 (Fin 2); all4 (Fin 4)]]
           [one_cal] one_spectrum).
  apply align_one_spectrum.
Defined.

(** the script on one spectrum with the wavelengths 1 and 2, calibrated
    at the wavelength 2 only *)
Lemma spectral_response_one_spectrum :
  exists c,
    spectral_response constant_fit [[1; 2]]%R
      [[all4 (Fin 6); all4 (Fin 8)]] [[all4 (Fin 2); all4 (Fin 4)]] [one_cal] = Ok c.
Proof.
  unfold spectral_response. rewrite align_one_spectrum. cbn [mbind result_bind].
  rewrite calibrate_one_spectrum. cbn [mbind result_bind fst snd].
  cbn [all_wavelengths one_spectrum].
  rewrite normalise_single. cbn [mbind result_bind all_means_normalised all_stds_normalised].
  destruct (combine_Ok [[nan_row; map4 (fun y => fdiv y (Fin 2)) (all4 (Fin 8))]]
              [[nan_row; map4 (fun y => fdiv y (Fin 2)) (all4 (Fin 4))]] 0)
    as (flat_max & _ & ->); [done | done | repeat constructor.. |].
  cbn [mbind result_bind]. eauto.
Qed.

Lemma response_rows_match_grid_witness :
  exists c,
    spectral_response constant_fit [[1; 2]]%R
      [[all4 (Fin 6); all4 (Fin 8)]] [[all4 (Fin 2); all4 (Fin 4)]] [one_cal] = Ok c /\
    curve_wavelengths c = np_unique (concat [[1; 2]]%R) /\
    curve_wavelengths c <> [] /\
    length (curve_response c) = length (curve_wavelengths c) /\
    length (curve_errors c) = length (curve_wavelengths c) /\
    exists final_curves,
      stack_curve (curve_wavelengths c) (curve_response c) (curve_errors c)
        = Ok final_curves.
Proof.
  destruct spectral_response_one_spectrum as [c Hc].
  exists c. split; [exact Hc|].
  exact (response_rows_match_grid constant_fit _ _ _ _ c Hc).
Defined.

Lemma spectral_response_errors_witness :
  ValueError = ValueError /\
    ([[1; 2]]%R = [] \/
     Exists (fun x => ~ assignable x)
       (zip (zip [[1; 2]]%R [[all4 (Fin 6); all4 (Fin 8); all4 (Fin 9)]])
            [[all4 (Fin 2); all4 (Fin 4)]]) \/
     concat [[1; 2]]%R = []) \/
  ValueError = TypeError \/ ValueError = LinAlgError.
Proof.
  apply (spectral_response_errors constant_fit [[1; 2]]%R
           [[all4 (Fin 6); all4 (Fin 8); all4 (Fin 9)]] [[all4 (Fin 2); all4 (Fin 4)]]
           [] ValueError).
  apply mismatch_raises.
Defined.

(** ** A wavelength measured twice *)

Lemma setitems_last {A} (a a' : list A) ivs k i v :
  setitems a ivs = Ok a' ->
  ivs !! k = Some (i, v) ->
  (forall k' v', k < k' -> ivs !! k' <> Some (i, v')) ->
  a' !! i = Some v.
Proof.
  revert a k. induction ivs as [|[j u] ivs IH]; intros a k; simpl; [done|].
  case_decide as Hj; [|done]. intros Hrun Hk Hlast.
  destruct k as [|k]; simpl in Hk.
  - injection Hk as -> ->.
    rewrite (setitems_other _ _ _ i Hrun).
    + by apply list_lookup_insert_eq.
    + intros ((i' & v') & Heq & Hin)%list_elem_of_fmap. simpl in Heq. subst i'.
      apply list_elem_of_lookup_1 in Hin as [k' Hk'].
      by apply (Hlast (S k') v' ltac:(lia)).
  - apply (IH _ k Hrun Hk). intros k' v' Hlt. apply (Hlast (S k') v'). lia.
Qed.

Lemma setitems_on_grid_last (grid wvl : list R) (vals acc acc' : arr2) k v :
  StronglySorted Rlt grid -> (forall u, u ∈ wvl -> u ∈ grid) ->
  length vals = length wvl ->
  setitem_fancy acc (np_searchsorted grid <$> wvl) vals = Ok acc' ->
  wvl !! k = Some v ->
  (forall k', k < k' -> wvl !! k' <> Some v) ->
  acc' !! np_searchsorted grid v = vals !! k.
Proof.
  intros Hgrid Hsub Hlen.
  rewrite setitem_fancy_same_length by by rewrite length_fmap.
  intros Hrun Hk Hlast.
  destruct (lookup_lt_is_Some_2 vals k) as [r Hr].
  { rewrite Hlen. by eapply lookup_lt_Some. }
  rewrite Hr. apply (setitems_last _ _ _ k _ _ Hrun).
  - apply lookup_zip_with_Some. exists (np_searchsorted grid v), r.
    split; [done|]. split; [|done]. by rewrite list_lookup_fmap, Hk.
  - intros k' r' Hlt Hk'.
    apply lookup_zip_with_Some in Hk' as (g & r'' & [= <- <-] & Hg & _).
    rewrite list_lookup_fmap in Hg.
    destruct (wvl !! k') as [u|] eqn:Eu; simpl in Hg; [|done].
    injection Hg as Hg. apply (Hlast k' Hlt). rewrite Eu. f_equal.
    assert (Hu : grid !! np_searchsorted grid u = Some u).
    { apply np_searchsorted_elem_of; [done|]. apply Hsub. by eapply list_elem_of_lookup_2. }
    assert (Hv : grid !! np_searchsorted grid v = Some v).
    { apply np_searchsorted_elem_of; [done|]. apply Hsub. by eapply list_elem_of_lookup_2. }
    rewrite Hg in Hu. congruence.
Qed.

(** A spectrum may list a wavelength more than once.  numpy performs
    the writes of an assignment with repeated indices one after the
    other, so the aligner keeps, at the index of that wavelength on the
    grid, the mean and the std of its last occurrence in the spectrum. *)
Theorem align_keeps_last_measurement
    (wavelengths : list (list R)) (means stds : list arr2) (sp : spectra)
    (i : nat) (wvl : list R) (mean std : arr2) (k : nat) (v : R) :
  align wavelengths means stds = Ok sp ->
  wavelengths !! i = Some wvl -> means !! i = Some mean -> stds !! i = Some std ->
  length mean = length wvl -> length std = length wvl ->
  wvl !! k = Some v ->
  (forall k', k < k' -> wvl !! k' <> Some v) ->
  exists g all_mean all_std,
    all_wavelengths sp !! g = Some v /\
    all_means sp !! i = Some all_mean /\ all_stds sp !! i = Some all_std /\
    all_mean !! g = mean !! k /\ all_std !! g = std !! k.
Proof.
  intros Hal Hwvl Hmean Hstd Hlm Hls Hk Hlast.
  unfold align in Hal.
  destruct wavelengths as [|wvl0 rest] eqn:Ew; [done|]. rewrite <- Ew in *.
  assert (Hcat : np_concatenate wavelengths = Ok (concat wavelengths)) by by rewrite Ew.
  rewrite Hcat in Hal. cbn [mbind result_bind] in Hal. cbv zeta in Hal.
  set (grid := np_unique (concat wavelengths)) in *.
  set (n := length wavelengths) in *. set (L := length grid) in *.
  set (xs := zip (zip wavelengths means) stds) in *.
  destruct (for_enumerate _ _ _ _) as [st|] eqn:Hrun; simpl in Hal; [|done].
  injection Hal as <-. cbn [all_wavelengths all_means all_stds].
  assert (Hgrid : StronglySorted Rlt grid) by apply np_unique_sorted.
  assert (Hsub : forall u, u ∈ wvl -> u ∈ grid).
  { intros u Hu. unfold grid. rewrite elem_of_np_unique, elem_of_concat.
    exists wvl. split; [|done]. by eapply list_elem_of_lookup_2. }
  assert (Hx : xs !! i = Some (wvl, mean, std)).
  { unfold xs. apply lookup_zip_with_Some. exists (wvl, mean), std.
    split; [done|]. split; [|done]. apply lookup_zip_with_Some. by exists wvl, mean. }
  assert (Hi : i < n) by by eapply lookup_lt_Some.
  assert (Hxs : length xs <= n) by (unfold xs; rewrite !length_zip_with; lia).
  apply (for_enumerate_rows
           (fun (x : list R * arr2 * arr2) acc =>
              setitem_fancy acc (np_searchsorted grid <$> x.1.1) x.1.2)
           (fun (x : list R * arr2 * arr2) acc =>
              setitem_fancy acc (np_searchsorted grid <$> x.1.1) x.2)
           _ (align_body_eq grid)) in Hrun; simpl;
    unfold full_nan; rewrite ?length_replicate; [|lia..].
  destruct Hrun as (_ & _ & _ & Hrows).
  destruct (Hrows i _ Hx) as (m & s & EF & EG & Em & Es).
  simpl in EF, EG, Em, Es. rewrite full_nan_lookup in EF, EG by done.
  exists (np_searchsorted grid v), m, s.
  split. { apply np_searchsorted_elem_of; [done|]. apply Hsub. by eapply list_elem_of_lookup_2. }
  split; [done|]. split; [done|]. split.
  - by apply (setitems_on_grid_last grid wvl mean _ _ k v Hgrid Hsub Hlm EF).
  - by apply (setitems_on_grid_last grid wvl std _ _ k v Hgrid Hsub Hls EG).
Qed.

Lemma align_keeps_last_measurement_witness :
  exists g all_mean all_std,
    all_wavelengths (Spectra [1%R] [[all4 (Fin 20)]] [[all4 (Fin 2)]]) !! g = Some 1%R /\
    all_means (Spectra [1%R] [[all4 (Fin 20)]] [[all4 (Fin 2)]]) !! 0 = Some all_mean /\
    all_stds (Spectra [1%R] [[all4 (Fin 20)]] [[all4 (Fin 2)]]) !! 0 = Some all_std /\
    all_mean !! g = [all4 (Fin 10); all4 (Fin 20)] !! 1 /\
    all_std !! g = [all4 (Fin 1); all4 (Fin 2)] !! 1.
Proof.
  apply (align_keeps_last_measurement repeated_wavelengths repeated_means repeated_stds
           _ 0 [1; 1]%R _ _ 1 1%R align_repeated).
  - reflexivity.
  - reflexivity.
  - reflexivity.
  - reflexivity.
  - reflexivity.
  - reflexivity.
  - intros [|[|k']] Hk; [lia | lia | done].
Defined.
